(** * TRedisDriver: the RESP client of the TreeFrog framework

    A shallow embedding of [src/tredisdriver.cpp] and the properties of its
    reply parser, command encoder and request loop.

    Conventions.
    - A C++ [int] is a [Z]; every [int] operation of the source is written
      with [Int.add] / [Int.mul], which wrap to 32 bits in two's complement
      (what the supported compilers produce where the C++ standard leaves
      signed overflow undefined).
    - A [QByteArray] used as a buffer is a [list byte]; a [QByteArray] handed
      back as a value is an [option (list byte)], [None] being the null byte
      array [QByteArray()], which Qt tells apart from the empty one.
    - The member variables [redis], [buffer] and [pos] form the record
      [Driver]; a member function that mutates them returns the new record.
    - An out-parameter [bool *ok] becomes a component of the result. *)

From Stdlib Require Import ZArith List Lia Bool String Ascii DecimalString.
From Stdlib Require Import Strings.Byte.
From Stdlib Require DecimalPos DecimalZ.
Import ListNotations.
Open Scope Z_scope.

Set Implicit Arguments.

(** ** 32-bit [int] arithmetic *)

Module Int.

Definition min_int : Z := - 2 ^ 31.
Definition max_int : Z := 2 ^ 31 - 1.

Definition wrap (z : Z) : Z := (z + 2 ^ 31) mod 2 ^ 32 - 2 ^ 31.

Definition add (a b : Z) : Z := wrap (a + b).
Definition mul (a b : Z) : Z := wrap (a * b).

End Int.

(** ** The part of Qt's [QByteArray] the driver uses

    Qt is a library, not part of the repository: these definitions follow
    the documented behaviour of Qt 5's [QByteArray]. *)

Definition bytes := list byte.

Definition CR : byte := x0d.
Definition LF : byte := x0a.

(** [char] to [int] promotion (the codes used here are all below 128). *)
Definition code (b : byte) : Z := Z.of_N (Byte.to_N b).

Module QByteArray.

Definition length (b : bytes) : Z := Z.of_nat (List.length b).

(** [b[i]] read through a [QByteRef], and [b.at(i)]: the byte at index
    [i].  Reading a [QByteRef] whose index is not below the size yields
    [char(0)]; an index below zero is outside what Qt defines and is given
    the same value. *)
Definition at_ (b : bytes) (i : Z) : byte :=
  if i <? 0 then x00 else nth (Z.to_nat i) b x00.

Fixpoint startsWith (needle hay : bytes) : bool :=
  match needle, hay with
  | [], _ => true
  | _ :: _, [] => false
  | x :: needle', y :: hay' => Byte.eqb x y && startsWith needle' hay'
  end.

(** Leftmost occurrence of [needle] in [hay], whose first byte has index
    [i] in the whole array; -1 when there is none. *)
Fixpoint search (needle hay : bytes) (i : Z) : Z :=
  match hay with
  | [] => -1
  | _ :: hay' =>
      if startsWith needle hay then i else search needle hay' (i + 1)
  end.

(** [b.indexOf(needle, from)] for a non-empty [needle].  A negative [from]
    counts from the end and is clamped at the start; a [from] above the
    size finds nothing. *)
Definition indexOf (b needle : bytes) (from : Z) : Z :=
  let from := if from <? 0 then Z.max (from + length b) 0 else from in
  search needle (skipn (Z.to_nat from) b) from.

(** [b.mid(pos, len)]: the bytes of [b] from [pos], at most [len] of them
    (all of them when [len] is negative). *)
Definition mid (b : bytes) (pos len : Z) : bytes :=
  let size := length b in
  if size <? pos then []
  else
    let len := if len <? 0 then size - pos else len in
    let '(pos, len) := if pos <? 0 then (0, len + pos) else (pos, len) in
    let len := if size <? len + pos then size - pos else len in
    firstn (Z.to_nat len) (skipn (Z.to_nat pos) b).

(** [b.remove(0, len)]. *)
Definition remove0 (b : bytes) (len : Z) : bytes :=
  if len <=? 0 then b else skipn (Z.to_nat len) b.

(** [QByteArray::number(n)]: [n] in decimal. *)
Definition number (n : Z) : bytes :=
  list_byte_of_string (NilZero.string_of_int (Z.to_int n)).

End QByteArray.

(** ** The part of [QTcpSocket] and of the event loop the driver uses

    The transport is an external collaborator.  It is modelled by what the
    driver can observe of it: the open flag of the device, the connection
    state, the calls it received, the bytes it holds for [readAll], a clock
    in milliseconds, and the list of things the event loop will deliver, one
    [Poll] for each time the driver sleeps and runs the loop. *)

Module QAbstractSocket.

Inductive SocketState : Set :=
  | UnconnectedState | HostLookupState | ConnectingState | ConnectedState
  | BoundState | ListeningState | ClosingState.

(** The enumerators' values, as [waitForState] receives an [int]. *)
Definition state_code (s : SocketState) : Z :=
  match s with
  | UnconnectedState => 0 | HostLookupState => 1 | ConnectingState => 2
  | ConnectedState => 3 | BoundState => 4 | ListeningState => 5
  | ClosingState => 6
  end.

End QAbstractSocket.
Import QAbstractSocket.

Record Poll : Type := mkPoll {
  elapsed_ms : Z;              (* time spent sleeping and in the event loop *)
  incoming : bytes;            (* bytes the loop moved into the socket *)
  state_after : SocketState    (* connection state once the loop returns *)
}.

Module QTcpSocket.

Record t : Type := mk {
  opened : bool;                       (* QIODevice::isOpen() *)
  state : SocketState;                 (* QAbstractSocket::state() *)
  connects : list (string * Z);        (* connectToHost(host, port) calls *)
  written : bytes;                     (* bytes passed to write() *)
  readable : bytes;                    (* bytes waiting for readAll() *)
  clock : Z;                           (* milliseconds *)
  events : list Poll                   (* what the event loop will bring *)
}.

Definition isOpen (s : t) : bool := opened s.

(** [connectToHost] opens the device at once and starts the lookup; the
    connection itself is made by the event loop. *)
Definition connectToHost (s : t) (host : string) (port : Z) : t :=
  mk true HostLookupState (connects s ++ [(host, port)]) (written s)
     (readable s) (clock s) (events s).

Definition close (s : t) : t :=
  mk false UnconnectedState (connects s) (written s) [] (clock s) (events s).

Definition write (s : t) (data : bytes) : t :=
  if opened s
  then mk (opened s) (state s) (connects s) (written s ++ data)
          (readable s) (clock s) (events s)
  else s.

Definition readAll (s : t) : bytes * t :=
  (readable s,
   mk (opened s) (state s) (connects s) (written s) [] (clock s) (events s)).

(** One [msleep] followed by [while (eventLoop.processEvents()) {}], when
    the event loop still has something to bring. *)
Definition deliver (p : Poll) (s : t) (rest : list Poll) : t :=
  mk (opened s) (state_after p) (connects s) (written s)
     (readable s ++ incoming p) (clock s + elapsed_ms p) rest.

(** The same when nothing will ever be brought again: only time passes,
    here up to the deadline [until]. *)
Definition idle (s : t) (until : Z) : t :=
  mk (opened s) (state s) (connects s) (written s) (readable s)
     (Z.max (clock s) until) [].

End QTcpSocket.

(** ** The driver *)

Record Driver : Type := mkDriver {
  redis : QTcpSocket.t;
  buffer : bytes;
  pos : Z
}.

Definition setPos (st : Driver) (p : Z) : Driver :=
  mkDriver (redis st) (buffer st) p.

Definition setRedis (st : Driver) (s : QTcpSocket.t) : Driver :=
  mkDriver s (buffer st) (pos st).

(** Modelled from the spec: the enumeration of reply tags is declared in
    [tredisdriver.h], which is not among the sources; section 4.2 gives the
    five tag bytes. *)
Definition Error : Z := code "-".
Definition SimpleString : Z := code "+".
Definition Integer : Z := code ":".
Definition BulkString : Z := code "$".
Definition Array : Z := code "*".

Definition DEFAULT_PORT : Z := 6379.

#[local] Set Warnings "-register-all".

(** [QVariant], restricted to the three kinds of value the driver stores. *)
Inductive QVariant : Type :=
  | VInt (n : Z)
  | VByteArray (s : option bytes)
  | VList (l : list QVariant).

Definition QVariantList := list QVariant.

Definition isDigit (d : byte) : bool :=
  (code "0" <=? code d) && (code d <=? code "9").

Section Build.

(** Whether the build target defines [Q_OS_WIN]. *)
Variable Q_OS_WIN : bool.

Definition CRLF : bytes := if Q_OS_WIN then [LF] else [CR; LF].

(** [void TRedisDriver::clearBuffer()] *)
Definition clearBuffer (st : Driver) : Driver :=
  mkDriver (redis st) [] 0.

(** [QByteArray TRedisDriver::getLine(bool *ok)] *)
Definition getLine (st : Driver) : option bytes * bool * Driver :=
  let idx := QByteArray.indexOf (buffer st) CRLF (pos st) in
  if idx <? 0 then (None, false, st)
  else
    let ret := QByteArray.mid (buffer st) (pos st) idx in
    (Some ret, true, setPos st (Int.add idx 2)).

(** The loop [while (d >= '0' && d <= '9') { num *= 10; num += d - '0';
    d = buffer[pos++]; }] of [getNumber].  The scan cursor is the list
    [rest] of the bytes not read yet; the cursor itself is overwritten
    after the loop.  Past the end of the buffer [buffer[pos++]] reads
    [char(0)], which ends the loop. *)
Fixpoint digitLoop (rest : bytes) (num : Z) (d : byte) : Z :=
  if isDigit d then
    let num := Int.add (Int.mul num 10) (code d - code "0") in
    match rest with
    | [] => num
    | d' :: rest' => digitLoop rest' num d'
    end
  else num.

(** The bytes [buffer[p]], [buffer[p+1]], ... that successive
    [buffer[pos++]] read, out-of-range reads left out. *)
Definition readFrom (b : bytes) (p : Z) : bytes :=
  if p <? 0 then [] else skipn (Z.to_nat p) b.

Definition next (rest : bytes) : byte * bytes :=
  match rest with
  | [] => (x00, [])
  | d :: rest' => (d, rest')
  end.

(** [int TRedisDriver::getNumber(bool *ok)] *)
Definition getNumber (st : Driver) : Z * bool * Driver :=
  let num := 0 in
  let idx := QByteArray.indexOf (buffer st) CRLF (pos st) in
  if idx <? 0 then (num, false, st)
  else
    let c := 1 in
    let '(d, rest) := next (readFrom (buffer st) (pos st)) in
    let '(c, d, rest) :=
      if code d =? code "-"
      then let '(d', rest') := next rest in (-1, d', rest')
      else (c, d, rest) in
    let num := digitLoop rest num d in
    (Int.mul num c, true, setPos st (Int.add idx 2)).

(** [QByteArray TRedisDriver::parseBulkString(bool *ok)] *)
Definition parseBulkString (st : Driver) : option bytes * bool * Driver :=
  let startpos := pos st in
  let st := setPos st (Int.add (pos st) 1) in
  let '(len, ok, st) := getNumber st in
  let '(str, ok, st) :=
    if ok then
      if len <? -1 then (None, false, st)
      else if len =? -1 then (None, true, st)
      else if Int.add (pos st) 2 <=? QByteArray.length (buffer st) then
        (Some (if 0 <? len then QByteArray.mid (buffer st) (pos st) len
               else []),
         true,
         setPos st (Int.add (pos st) (Int.add len 2)))
      else (None, false, st)
    else (None, ok, st) in
  (str, ok, if ok then st else setPos st startpos).


(** [QVariantList TRedisDriver::parseArray(bool *ok)].  The function calls
    itself for a nested array and loops over the elements; [fuel] bounds
    the number of nested calls and iterations, and [None] is returned only
    when it is exhausted. *)
Fixpoint parseArray_rec (fuel : nat) (st : Driver) {struct fuel}
  : option (QVariantList * bool * Driver) :=
  match fuel with
  | O => None
  | S fuel' =>
      let lst := [] in
      let startpos := pos st in
      let st := setPos st (Int.add (pos st) 1) in
      let '(count, ok, st) := getNumber st in
      match arrayLoop fuel' count lst ok st with
      | None => None
      | Some (lst, ok, st) =>
          Some (lst, ok, if ok then st else setPos st startpos)
      end
  end

(** The loop [while ( *ok ) { switch (buffer[pos]) ...;
    if (lst.count() >= count) break; }]. *)
with arrayLoop (fuel : nat) (count : Z) (lst : QVariantList) (ok : bool)
               (st : Driver) {struct fuel}
  : option (QVariantList * bool * Driver) :=
  if negb ok then Some (lst, ok, st)
  else
    match fuel with
    | O => None
    | S fuel' =>
        let tag := code (QByteArray.at_ (buffer st) (pos st)) in
        let element :=
          if tag =? BulkString then
            let '(str, ok, st) := parseBulkString st in
            Some (if ok then lst ++ [VByteArray str] else lst, ok, st)
          else if tag =? Integer then
            let st := setPos st (Int.add (pos st) 1) in
            let '(num, ok, st) := getNumber st in
            Some (if ok then lst ++ [VInt num] else lst, ok, st)
          else if tag =? Array then
            match parseArray_rec fuel' st with
            | None => None
            | Some (var, ok, st) =>
                Some (if ok then lst ++ [VList var] else lst, ok, st)
            end
          else Some (lst, false, st) in
        match element with
        | None => None
        | Some (lst, ok, st) =>
            if Z.of_nat (List.length lst) >=? count then Some (lst, ok, st)
            else arrayLoop fuel' count lst ok st
        end
    end.

(** Fuel that is always enough (lemma [parseArray_returns]): an element
    takes at least one byte of the buffer. *)
Definition array_fuel (st : Driver) : nat :=
  (2 * List.length (buffer st) + 4)%nat.

Definition parseArray (st : Driver) : option (QVariantList * bool * Driver) :=
  parseArray_rec (array_fuel st) st.

(** [QByteArray TRedisDriver::toBulk(const QByteArray &data)] *)
Definition toBulk (data : bytes) : bytes :=
  let bulk := list_byte_of_string "$" in
  let bulk := bulk ++ QByteArray.number (QByteArray.length data) in
  let bulk := bulk ++ CRLF in
  let bulk := bulk ++ data in
  let bulk := bulk ++ CRLF in
  bulk.

(** [QByteArray TRedisDriver::toMultiBulk(const QList<QByteArray> &data)] *)
Definition toMultiBulk (data : list bytes) : bytes :=
  let mbulk := [] in
  let mbulk := mbulk ++ list_byte_of_string "*" in
  let mbulk := mbulk ++ QByteArray.number (Z.of_nat (List.length data)) in
  let mbulk := mbulk ++ CRLF in
  fold_left (fun mbulk d => mbulk ++ toBulk d) data mbulk.

(** [bool TRedisDriver::isOpen() const] *)
Definition isOpen (st : Driver) : bool := QTcpSocket.isOpen (redis st).

(** [void TRedisDriver::close()] *)
Definition close (st : Driver) : Driver :=
  setRedis st (QTcpSocket.close (redis st)).

(** The loop of [waitForState]: [while (redis->state() != state) { if
    (timer.elapsed() >= msecs) return false; Tf::msleep(1); while
    (eventLoop.processEvents()) {} }].  [start] is the clock when the
    timer was started.  When the event loop has nothing more to bring, the
    state will not change and the loop sleeps up to the deadline. *)
Fixpoint waitLoop (evs : list Poll) (start state msecs : Z)
                  (s : QTcpSocket.t) : bool * QTcpSocket.t :=
  if negb (state_code (QTcpSocket.state s) =? state) then
    if QTcpSocket.clock s - start >=? msecs then (false, s)
    else
      match evs with
      | [] => (false, QTcpSocket.idle s (start + msecs))
      | e :: evs' =>
          waitLoop evs' start state msecs (QTcpSocket.deliver e s evs')
      end
  else (true, s).

(** [bool TRedisDriver::waitForState(int state, int msecs)] *)
Definition waitForState (st : Driver) (state msecs : Z) : bool * Driver :=
  let start := QTcpSocket.clock (redis st) in
  let '(r, s) :=
    waitLoop (QTcpSocket.events (redis st)) start state msecs (redis st) in
  (r, setRedis st s).

(** [bool TRedisDriver::open(const QString &, const QString &, const
    QString &, const QString &host, quint16 port, const QString &)]; the
    four unnamed parameters are not used and are left out. *)
Definition open (st : Driver) (host : string) (port : Z) : bool * Driver :=
  if isOpen st then (true, st)
  else
    let hst := match host with
               | EmptyString => "localhost"%string
               | _ => host
               end in
    let port := if port <=? 0 then DEFAULT_PORT else port in
    let st := setRedis st (QTcpSocket.connectToHost (redis st) hst port) in
    waitForState st (state_code ConnectedState) 5000.

(** The loop of [readReply]: [while (buffer.length() == len) { if
    (timer.elapsed() >= 2000) break; Tf::msleep(0); while
    (eventLoop.processEvents()) {} buffer += redis->readAll(); }].  When
    the event loop has nothing more to bring, what the socket still holds
    is read and, if that is nothing, the deadline passes. *)
Fixpoint readLoop (evs : list Poll) (start len : Z) (s : QTcpSocket.t)
                  (buf : bytes) : QTcpSocket.t * bytes :=
  if QByteArray.length buf =? len then
    if QTcpSocket.clock s - start >=? 2000 then (s, buf)
    else
      match evs with
      | [] =>
          let '(data, s) :=
            QTcpSocket.readAll (QTcpSocket.idle s (start + 2000)) in
          (s, buf ++ data)
      | e :: evs' =>
          let '(data, s) :=
            QTcpSocket.readAll (QTcpSocket.deliver e s evs') in
          readLoop evs' start len s (buf ++ data)
      end
  else (s, buf).

(** [bool TRedisDriver::readReply()] *)
Definition readReply (st : Driver) : bool * Driver :=
  if negb (isOpen st) then (false, st)
  else
    let st :=
      if pos st >? 0
      then mkDriver (redis st) (QByteArray.remove0 (buffer st) (pos st)) 0
      else st in
    let start := QTcpSocket.clock (redis st) in
    let len := QByteArray.length (buffer st) in
    let '(s, buf) :=
      readLoop (QTcpSocket.events (redis st)) start len (redis st)
               (buffer st) in
    (QByteArray.length buf >? len, mkDriver s buf (pos st)).

(** Which of the three ways out of the [for (;;)] of [request] was taken.
    The source does not return it: it is kept here to state properties of
    each way out. *)
Inductive Exit : Set :=
  | ReadFailed          (* [break] after [readReply()] returned false *)
  | ParseDone           (* [break] on [ok] *)
  | InvalidProtocol.    (* [goto parse_done] of the [default] case *)

(** The [for (;;)] of [request].  Every iteration but the last takes
    something from the socket, so [fuel] bounds the iterations. *)
Fixpoint requestLoop (fuel : nat) (startpos : Z) (ret : bool)
                     (reply : QVariantList) (st : Driver) {struct fuel}
  : option (bool * QVariantList * Driver * Exit) :=
  match fuel with
  | O => None
  | S fuel' =>
      let '(got, st) := readReply st in
      if negb got then Some (ret, reply, clearBuffer st, ReadFailed)
      else
        let after_switch (ok ret : bool) (reply : QVariantList)
                         (st : Driver) :=
          if ok then Some (ret, reply, st, ParseDone)
          else requestLoop fuel' startpos ret reply (setPos st startpos) in
        let tag := code (QByteArray.at_ (buffer st) (pos st)) in
        if tag =? Error then
          let ret := false in
          let '(str, ok, st) := getLine st in
          after_switch ok ret reply st
        else if tag =? SimpleString then
          let '(str, ok, st) := getLine st in
          after_switch ok ret reply st
        else if tag =? Integer then
          let st := setPos st (Int.add (pos st) 1) in
          let '(num, ok, st) := getNumber st in
          after_switch ok ret (if ok then reply ++ [VInt num] else reply) st
        else if tag =? BulkString then
          let '(str, ok, st) := parseBulkString st in
          after_switch ok ret
            (if ok then reply ++ [VByteArray str] else reply) st
        else if tag =? Array then
          match parseArray st with
          | None => None
          | Some (lst, ok, st) =>
              after_switch ok ret (if ok then lst else []) st
          end
        else
          Some (false, reply, clearBuffer st, InvalidProtocol)
  end.

Definition request_fuel (st : Driver) : nat :=
  S (S (List.length (QTcpSocket.events (redis st)))).

(** [bool TRedisDriver::request(const QList<QByteArray> &command,
    QVariantList &reply)]; [reply] is passed by reference and comes back
    in the result. *)
Definition request (st : Driver) (command : list bytes)
                   (reply : QVariantList)
  : option (bool * QVariantList * Driver * Exit) :=
  let ret := true in
  let startpos := pos st in
  let cmd := toMultiBulk command in
  let st := setRedis st (QTcpSocket.write (redis st) cmd) in
  let st := clearBuffer st in
  requestLoop (request_fuel st) startpos ret reply st.

End Build.

(** [TRedisDriver::TRedisDriver()]: a new socket, which is not open, an
    empty buffer ([reserve] changes its capacity only) and the cursor at 0.
    The clock and what the event loop will bring belong to the environment
    the driver is created in. *)
Definition TRedisDriver (clock : Z) (evs : list Poll) : Driver :=
  mkDriver (QTcpSocket.mk false UnconnectedState [] [] [] clock evs) [] 0.

(** [TRedisDriver::~TRedisDriver()]: [close()], then the socket is deleted;
    what is left of the driver is returned for the properties to look at. *)
Definition destroy (st : Driver) : Driver := close st.

(** ** Sample inputs *)

Definition bs (s : string) : bytes := list_byte_of_string s.

(** An open, connected socket to which the event loop will bring [evs]. *)
Definition connected (evs : list Poll) : QTcpSocket.t :=
  QTcpSocket.mk true ConnectedState [] [] [] 0 evs.

(** A driver whose buffer holds [buf], the cursor at [p]. *)
Definition holding (buf : bytes) (p : Z) : Driver :=
  mkDriver (connected []) buf p.

(** One turn of the event loop that brings [data] after a millisecond. *)
Definition brings (data : bytes) : Poll := mkPoll 1 data ConnectedState.

(** What a caller of [request] sees, with the buffer and cursor left
    behind. *)
Definition observe (r : option (bool * QVariantList * Driver * Exit))
  : option (bool * QVariantList * bytes * Z * Exit) :=
  match r with
  | Some (ret, reply, st, e) => Some (ret, reply, buffer st, pos st, e)
  | None => None
  end.

(** ** Vocabulary of the statements *)

(** The digits at the head of a byte string, and their value in base ten:
    what section 4.2 of the specification calls the decimal digits of an
    integer line. *)
Fixpoint digitRun (l : bytes) : bytes :=
  match l with
  | [] => []
  | d :: l' => if isDigit d then d :: digitRun l' else []
  end.

Definition decimalFrom (num : Z) (ds : bytes) : Z :=
  fold_left (fun acc d => 10 * acc + (code d - code "0")) ds num.

Definition decimal (ds : bytes) : Z := decimalFrom 0 ds.

(** An optional leading [-], then decimal digits. *)
Definition signedDecimal (l : bytes) : Z :=
  match l with
  | [] => 0
  | d :: l' =>
      if code d =? code "-" then - decimal (digitRun l')
      else decimal (digitRun l)
  end.

(** The request frame in the words of section 4.1 of the specification:
    [*<N>] and a terminator, then for each argument [$<len>], a terminator,
    the argument's bytes and a terminator. *)
Definition frame (terminator : bytes) (args : list bytes) : bytes :=
  bs "*" ++ QByteArray.number (Z.of_nat (List.length args)) ++ terminator
  ++ List.concat
       (map (fun a => bs "$" ++ QByteArray.number (QByteArray.length a)
                      ++ terminator ++ a ++ terminator) args).


(** The bytes a socket holds or will be brought, in order of arrival. *)
Definition pending (s : QTcpSocket.t) : bytes :=
  QTcpSocket.readable s ++ List.concat (map incoming (QTcpSocket.events s)).

(** How many more times a read can bring something. *)
Definition reads_left (st : Driver) : nat :=
  (List.length (QTcpSocket.events (redis st))
   + match QTcpSocket.readable (redis st) with [] => 0 | _ :: _ => 1 end)%nat.

(** The first read of a request: [request] up to and including the first
    call of [readReply]. *)
Definition firstRead (Q_OS_WIN : bool) (st : Driver) (command : list bytes)
    : bool * Driver :=
  readReply
    (clearBuffer
       (setRedis st (QTcpSocket.write (redis st)
                                      (toMultiBulk Q_OS_WIN command)))).

(** Two drivers with the same socket and the same buffer: they differ by
    the cursor at most. *)
Definition same_data (st st' : Driver) : Prop :=
  redis st' = redis st /\ buffer st' = buffer st.

(** Qt keeps the size of a [QByteArray] below 2^30. *)
Definition fits (st : Driver) : Prop :=
  QByteArray.length (buffer st) < 2 ^ 30.

(** The cursor moved forward from a valid index, or left the [int] range
    upwards and came back negative. *)
Definition advanced (st st' : Driver) : Prop :=
  pos st' < 0 \/
  (0 <= pos st < QByteArray.length (buffer st) /\ pos st < pos st').

(** Bytes between a valid cursor and the end of the buffer; 0 for a cursor
    outside the buffer. *)
Definition remaining (st : Driver) : nat :=
  if (0 <=? pos st) && (pos st <? QByteArray.length (buffer st))
  then Z.to_nat (QByteArray.length (buffer st) - pos st)
  else O.

(** The count declared by the array that starts at the cursor: what
    [parseArray] reads with [getNumber] after the tag. *)
Definition declaredCount (Q_OS_WIN : bool) (st : Driver) : Z :=
  fst (fst (getNumber Q_OS_WIN (setPos st (Int.add (pos st) 1)))).

(** Equality of two integers as 32-bit [int]s. *)
Definition eqm (x y : Z) : Prop := x mod 2 ^ 32 = y mod 2 ^ 32.

(** The invariant of the specification: the cursor is inside the buffer or
    at its end. *)
Definition cursor_in_buffer (st : Driver) : Prop :=
  0 <= pos st <= QByteArray.length (buffer st).

(** The decimal digits of an unsigned number, as bytes. *)
Definition uint_bytes (u : Decimal.uint) : bytes :=
  list_byte_of_string (NilEmpty.string_of_uint u).

(** A line body: bytes among which there is no CR and no LF. *)
Definition plain (body : bytes) : Prop :=
  Forall (fun c => c <> CR /\ c <> LF) body.

(** The reply that carries a value, in the wire format of section 6 of the
    specification with CR LF as terminator: an integer line, a bulk string
    (the null one declares the length -1) or an array of replies. *)
Fixpoint wire (v : QVariant) : bytes :=
  match v with
  | VInt n => bs ":" ++ QByteArray.number n ++ [CR; LF]
  | VByteArray None => bs "$" ++ QByteArray.number (-1) ++ [CR; LF]
  | VByteArray (Some d) =>
      bs "$" ++ QByteArray.number (QByteArray.length d) ++ [CR; LF]
      ++ d ++ [CR; LF]
  | VList l =>
      bs "*" ++ QByteArray.number (Z.of_nat (List.length l)) ++ [CR; LF]
      ++ List.concat (map wire l)
  end.

Definition wires (l : list QVariant) : bytes := List.concat (map wire l).

(** The values whose reply the driver can read back: integers that fit an
    [int], bulk strings, and arrays of such values that are not empty. *)
Fixpoint readable_value (v : QVariant) : Prop :=
  match v with
  | VInt n => Int.min_int <= n <= Int.max_int
  | VByteArray _ => True
  | VList l =>
      l <> [] /\
      (fix all (l : list QVariant) : Prop :=
         match l with
         | [] => True
         | x :: l' => readable_value x /\ all l'
         end) l
  end.

Definition readable_values (l : list QVariant) : Prop :=
  Forall readable_value l.

(** A bound on the calls and iterations the array parser needs for a value:
    one for a scalar, two more than its elements for an array. *)
Fixpoint weight (v : QVariant) : nat :=
  match v with
  | VList l =>
      (2 + (fix sum (l : list QVariant) : nat :=
              match l with
              | [] => 0
              | x :: l' => weight x + sum l'
              end) l)%nat
  | _ => 1%nat
  end.

Definition weights (l : list QVariant) : nat :=
  fold_right (fun x n => weight x + n)%nat O l.

(** A byte string as the value of a bulk string. *)
Definition asBulk (a : bytes) : QVariant := VByteArray (Some a).

(** The tags of the replies that are one line: error, simple string,
    integer. *)
Definition line_tag (c : byte) : Prop :=
  code c = Error \/ code c = SimpleString \/ code c = Integer.

(** What [request] returns for a reply of one line with tag [c], given the
    flag and the reply list it holds and the number [num] read on the line:
    [false] for an error, the number appended for an integer. *)
Definition line_outcome (c : byte) (num : Z) (ret : bool)
           (reply : QVariantList) : bool * QVariantList :=
  if code c =? Error then (false, reply)
  else if code c =? SimpleString then (ret, reply)
  else (ret, reply ++ [VInt num]).

(** Every turn of the event loop brings at least one byte. *)
Definition each_brings (evs : list Poll) : Prop :=
  Forall (fun e => incoming e <> []) evs.

(** * Properties *)

(** ** The parse functions only move the cursor *)

Lemma same_data_refl st : same_data st st.
Proof. split; reflexivity. Qed.

Lemma same_data_setPos st p : same_data st (setPos st p).
Proof. split; reflexivity. Qed.

Lemma same_data_trans a b c : same_data a b -> same_data b c -> same_data a c.
Proof. intros [H1 H2] [H3 H4]; split; congruence. Qed.

Create HintDb driver.
#[local] Hint Resolve same_data_refl same_data_setPos : driver.

Section Cursor.

Variable Q_OS_WIN : bool.

Lemma getLine_data st : same_data st (snd (getLine Q_OS_WIN st)).
Proof.
  unfold getLine. destruct (_ <? 0); simpl; auto with driver.
Qed.

Lemma getNumber_data st : same_data st (snd (getNumber Q_OS_WIN st)).
Proof.
  unfold getNumber. destruct (_ <? 0); simpl; auto with driver.
  destruct (next _) as [d rest].
  destruct (code d =? code "-"); [destruct (next rest)|]; simpl;
    auto with driver.
Qed.

Lemma getNumber_fail st :
  snd (fst (getNumber Q_OS_WIN st)) = false ->
  getNumber Q_OS_WIN st = (0, false, st).
Proof.
  unfold getNumber. destruct (_ <? 0); simpl; auto.
  destruct (next _) as [d rest].
  destruct (code d =? code "-"); [destruct (next rest)|]; simpl;
    discriminate.
Qed.

Lemma getLine_fail st :
  snd (fst (getLine Q_OS_WIN st)) = false ->
  getLine Q_OS_WIN st = (None, false, st).
Proof.
  unfold getLine. destruct (_ <? 0); simpl; auto. discriminate.
Qed.

Lemma parseBulkString_data st :
  same_data st (snd (parseBulkString Q_OS_WIN st)).
Proof.
  unfold parseBulkString.
  pose proof (getNumber_data (setPos st (Int.add (pos st) 1))) as H.
  destruct (getNumber _ _) as [[len ok] st1]. simpl in H.
  assert (same_data st st1) as H1
    by (eapply same_data_trans; [apply same_data_setPos | exact H]).
  destruct ok; simpl.
  - destruct (len <? -1); simpl.
    { eapply same_data_trans; eauto with driver. }
    destruct (len =? -1); simpl; auto.
    destruct (_ <=? _); simpl.
    + eapply same_data_trans; eauto with driver.
    + eapply same_data_trans; eauto with driver.
  - eapply same_data_trans; eauto with driver.
Qed.

Lemma parseBulkString_fail st :
  snd (fst (parseBulkString Q_OS_WIN st)) = false ->
  pos (snd (parseBulkString Q_OS_WIN st)) = pos st.
Proof.
  unfold parseBulkString.
  destruct (getNumber _ _) as [[len ok] st1].
  destruct ok; simpl.
  - destruct (len <? -1); simpl; auto.
    destruct (len =? -1); simpl; [discriminate|].
    destruct (_ <=? _); simpl; [discriminate|auto].
  - auto.
Qed.

Lemma parseArray_rec_fail fuel st lst st' :
  parseArray_rec Q_OS_WIN fuel st = Some (lst, false, st') ->
  pos st' = pos st.
Proof.
  destruct fuel as [|fuel]; simpl; [discriminate|].
  destruct (getNumber _ _) as [[count ok] st1].
  destruct (arrayLoop _ _ _ _ _ _) as [[[l o] s]|]; [|discriminate].
  intros H; inversion H; subst. reflexivity.
Qed.

(** The two mutually recursive functions leave socket and buffer alone. *)
Lemma parseArray_arrayLoop_data fuel :
  (forall st r, parseArray_rec Q_OS_WIN fuel st = Some r ->
                same_data st (snd r)) /\
  (forall count lst ok st r,
      arrayLoop Q_OS_WIN fuel count lst ok st = Some r ->
      same_data st (snd r)).
Proof.
  induction fuel as [|fuel [IHa IHl]].
  - split; [simpl; discriminate|].
    intros count lst ok st r. simpl. destruct ok; simpl; [discriminate|].
    intros H; inversion H; subst; simpl; auto with driver.
  - assert (forall count lst ok st r,
               arrayLoop Q_OS_WIN (S fuel) count lst ok st = Some r ->
               same_data st (snd r)) as Hl.
    { intros count lst ok st r. simpl. destruct ok; simpl.
      2:{ intros H; inversion H; subst; simpl; auto with driver. }
      destruct (_ =? BulkString).
      { pose proof (parseBulkString_data st) as Hb.
        destruct (parseBulkString _ _) as [[str ok] st1]. simpl in Hb.
        destruct (_ >=? _).
        - intros H; inversion H; subst; simpl; auto.
        - intros H. apply IHl in H. eapply same_data_trans; eauto. }
      destruct (_ =? Integer).
      { pose proof (getNumber_data (setPos st (Int.add (pos st) 1))) as Hn.
        destruct (getNumber _ _) as [[num ok] st1]. simpl in Hn.
        assert (same_data st st1) as H1
          by (eapply same_data_trans; [apply same_data_setPos | exact Hn]).
        destruct (_ >=? _).
        - intros H; inversion H; subst; simpl; auto.
        - intros H. apply IHl in H. eapply same_data_trans; eauto. }
      destruct (_ =? Array).
      { destruct (parseArray_rec _ _ _) as [[[var ok] st1]|] eqn:E;
          [|discriminate].
        apply IHa in E. simpl in E.
        destruct (_ >=? _).
        - intros H; inversion H; subst; simpl; auto.
        - intros H. apply IHl in H. eapply same_data_trans; eauto. }
      destruct (_ >=? _).
      - intros H; inversion H; subst; simpl; auto with driver.
      - intros H. apply IHl in H. auto. }
    split; [|exact Hl].
    intros st r. simpl.
    pose proof (getNumber_data (setPos st (Int.add (pos st) 1))) as Hn.
    destruct (getNumber _ _) as [[count ok] st1]. simpl in Hn.
    destruct (arrayLoop _ _ _ _ _ _) as [[[l o] s]|] eqn:E; [|discriminate].
    apply IHl in E. simpl in E.
    intros H; inversion H; subst; simpl.
    assert (same_data st s) as Hs.
    { eapply same_data_trans; [|exact E].
      eapply same_data_trans; [apply same_data_setPos | exact Hn]. }
    destruct o; auto.
Qed.

End Cursor.

(** ** Arithmetic of [int] *)

Lemma wrap_small z : Int.min_int <= z <= Int.max_int -> Int.wrap z = z.
Proof.
  unfold Int.wrap, Int.min_int, Int.max_int.
  change (2 ^ 31) with 2147483648. change (2 ^ 32) with 4294967296.
  intros H. rewrite Z.mod_small; lia.
Qed.

Lemma wrap_range z : Int.min_int <= Int.wrap z <= Int.max_int.
Proof.
  unfold Int.wrap, Int.min_int, Int.max_int.
  change (2 ^ 31) with 2147483648. change (2 ^ 32) with 4294967296.
  pose proof (Z.mod_pos_bound (z + 2147483648) 4294967296). lia.
Qed.

Lemma wrap_above z :
  Int.max_int < z <= Int.max_int + 2 ^ 32 -> Int.wrap z = z - 2 ^ 32.
Proof.
  unfold Int.wrap, Int.max_int.
  change (2 ^ 31) with 2147483648. change (2 ^ 32) with 4294967296.
  intros H.
  replace (z + 2147483648) with (z + 2147483648 - 4294967296 + 1 * 4294967296)
    by lia.
  rewrite Z_mod_plus_full, Z.mod_small; lia.
Qed.

(** [wrap] is the identity modulo 2^32, so it can be pushed inside sums and
    products. *)
Lemma wrap_eqm z : (Int.wrap z) mod 2 ^ 32 = z mod 2 ^ 32.
Proof.
  unfold Int.wrap.
  change (2 ^ 31) with 2147483648. change (2 ^ 32) with 4294967296.
  rewrite Zminus_mod, Z.mod_mod by lia.
  rewrite <- Zminus_mod. f_equal. lia.
Qed.

Lemma wrap_congr a c : a mod 2 ^ 32 = c mod 2 ^ 32 -> Int.wrap a = Int.wrap c.
Proof.
  unfold Int.wrap. intros H.
  rewrite (Zplus_mod a), (Zplus_mod c), H. reflexivity.
Qed.

Lemma wrap_wrap z : Int.wrap (Int.wrap z) = Int.wrap z.
Proof. apply wrap_small, wrap_range. Qed.

Lemma add_small a c :
  Int.min_int <= a + c <= Int.max_int -> Int.add a c = a + c.
Proof. apply wrap_small. Qed.

(** ** [QByteArray] lemmas *)

Lemma length_nonneg (l : bytes) : 0 <= QByteArray.length l.
Proof. unfold QByteArray.length. lia. Qed.

Lemma search_range needle hay i :
  QByteArray.search needle hay i = -1 \/
  i <= QByteArray.search needle hay i < i + QByteArray.length hay.
Proof.
  revert i. induction hay as [|h hay IH]; intros i; simpl; auto.
  unfold QByteArray.length in *. simpl List.length.
  destruct needle as [|x needle']; simpl.
  - right. lia.
  - destruct (Byte.eqb x h && QByteArray.startsWith needle' hay).
    + right. lia.
    + destruct (IH (i + 1)) as [H|H]; [left; exact H | right; lia].
Qed.

(** What [indexOf] returns is -1 or a valid index at or after [from]. *)
Lemma indexOf_range buf needle from :
  QByteArray.indexOf buf needle from = -1 \/
  (0 <= QByteArray.indexOf buf needle from < QByteArray.length buf /\
   from <= QByteArray.indexOf buf needle from).
Proof.
  unfold QByteArray.indexOf.
  set (f := if from <? 0 then Z.max (from + QByteArray.length buf) 0
            else from).
  assert (0 <= f /\ from <= f) as [Hf0 Hf].
  { subst f. pose proof (length_nonneg buf).
    destruct (from <? 0) eqn:E; [apply Z.ltb_lt in E | apply Z.ltb_ge in E];
      lia. }
  destruct (search_range needle (skipn (Z.to_nat f) buf) f) as [H|H]; auto.
  right. unfold QByteArray.length in *. rewrite length_skipn in H. lia.
Qed.

Lemma at_nonzero buf i :
  code (QByteArray.at_ buf i) <> 0 -> 0 <= i < QByteArray.length buf.
Proof.
  unfold QByteArray.at_, QByteArray.length.
  destruct (i <? 0) eqn:E; [intros H; exfalso; apply H; reflexivity|].
  apply Z.ltb_ge in E. intros H.
  destruct (Nat.lt_ge_cases (Z.to_nat i) (List.length buf)) as [L|L]; [lia|].
  rewrite nth_overflow in H by exact L. exfalso; apply H; reflexivity.
Qed.

Lemma startsWith_length needle : forall hay,
  QByteArray.startsWith needle hay = true ->
  (List.length needle <= List.length hay)%nat.
Proof.
  induction needle as [|x needle IH]; intros [|h hay]; simpl;
    try discriminate; try lia.
  intros H. apply andb_true_iff in H. destruct H as [_ H].
  apply IH in H. lia.
Qed.

Lemma search_found needle hay : forall i,
  QByteArray.search needle hay i <> -1 -> 0 <= i ->
  QByteArray.search needle hay i + QByteArray.length needle
  <= i + QByteArray.length hay.
Proof.
  unfold QByteArray.length.
  induction hay as [|h hay IH]; intros i; cbn [QByteArray.search];
    [congruence|].
  destruct (QByteArray.startsWith needle (h :: hay)) eqn:E.
  - intros _ _. apply startsWith_length in E. lia.
  - intros H Hi. specialize (IH (i + 1) H ltac:(lia)).
    cbn [List.length]. lia.
Qed.

(** A needle that is found lies inside the array. *)
Lemma indexOf_found buf needle from :
  QByteArray.indexOf buf needle from <> -1 ->
  QByteArray.indexOf buf needle from + QByteArray.length needle
  <= QByteArray.length buf.
Proof.
  unfold QByteArray.indexOf.
  set (f := if from <? 0 then Z.max (from + QByteArray.length buf) 0
            else from).
  assert (0 <= f) as Hf.
  { subst f. destruct (from <? 0) eqn:E; [|apply Z.ltb_ge in E]; lia. }
  intros H. pose proof (search_found _ _ H Hf) as S.
  unfold QByteArray.length in *. rewrite length_skipn in S.
  destruct (Nat.le_gt_cases (Z.to_nat f) (List.length buf)) as [L|L]; [lia|].
  rewrite skipn_all2 in H by lia. simpl in H. congruence.
Qed.

(** ** The array parser returns

    In a buffer of a size Qt allows, every cursor value met while scanning
    is an [int] that did not wrap, and each element parsed moves the cursor
    forward: the recursion and the loop of [parseArray] come to an end. *)

Section Termination.

Variable Q_OS_WIN : bool.

Lemma getNumber_ok st n st' :
  getNumber Q_OS_WIN st = (n, true, st') ->
  let idx := QByteArray.indexOf (buffer st) (CRLF Q_OS_WIN) (pos st) in
  0 <= idx < QByteArray.length (buffer st) /\ pos st <= idx /\
  st' = setPos st (Int.add idx 2) /\
  Int.min_int <= n <= Int.max_int.
Proof.
  intros H idx. unfold getNumber in H. fold idx in H.
  destruct (indexOf_range (buffer st) (CRLF Q_OS_WIN) (pos st)) as [E|[E1 E2]];
    fold idx in E || fold idx in E1, E2.
  - rewrite E in H. simpl in H. discriminate.
  - destruct (idx <? 0) eqn:L; [apply Z.ltb_lt in L; lia|].
    destruct (next _) as [d rest].
    destruct (code d =? code "-"); [destruct (next rest)|];
      inversion H; subst; repeat split; auto; try lia;
      apply wrap_range.
Qed.

Lemma getNumber_advanced st n st' :
  fits st ->
  getNumber Q_OS_WIN st = (n, true, st') ->
  pos st + 2 <= pos st' <= QByteArray.length (buffer st) + 1 /\
  2 <= pos st' /\ buffer st' = buffer st /\
  Int.min_int <= n <= Int.max_int.
Proof.
  unfold fits. change (2 ^ 30) with 1073741824.
  intros F H. apply getNumber_ok in H. cbv zeta in H.
  destruct H as (H1 & H2 & -> & H3). simpl.
  rewrite add_small by (unfold Int.min_int, Int.max_int; simpl; lia).
  repeat split; lia || auto.
Qed.

Lemma parseBulkString_advanced st str st' :
  fits st ->
  0 <= pos st < QByteArray.length (buffer st) ->
  parseBulkString Q_OS_WIN st = (str, true, st') ->
  advanced st st'.
Proof.
  intros F R. unfold parseBulkString.
  assert (fits (setPos st (Int.add (pos st) 1))) as F1 by exact F.
  destruct (getNumber _ _) as [[len ok] st1] eqn:E.
  destruct ok; [|simpl; discriminate].
  apply (getNumber_advanced F1) in E. simpl in E.
  destruct E as (E1 & E2 & E3 & E4).
  unfold fits in F. change (2 ^ 30) with 1073741824 in F.
  rewrite add_small in E1
    by (unfold Int.min_int, Int.max_int; simpl; lia).
  unfold advanced.
  destruct (len <? -1) eqn:L1; [simpl; discriminate|].
  destruct (len =? -1) eqn:L2.
  { intros H; inversion H; subst. right. lia. }
  apply Z.ltb_ge in L1. apply Z.eqb_neq in L2.
  destruct (_ <=? _); [|simpl; discriminate].
  intros H; inversion H; subst; clear H. simpl.
  unfold Int.min_int, Int.max_int in *. simpl in E4.
  assert (Int.add len 2 = len + 2 /\ len + 2 <= 2147483647 \/
          Int.add len 2 = len + 2 - 4294967296 /\ 2147483647 < len + 2)
    as [[A1 A2]|[A1 A2]].
  { destruct (Z_le_gt_dec (len + 2) 2147483647).
    - left. split; [|lia]. apply add_small.
      unfold Int.min_int, Int.max_int; simpl; lia.
    - right. split; [|lia]. unfold Int.add. rewrite wrap_above; [reflexivity|].
      unfold Int.max_int; simpl; lia. }
  - rewrite A1.
    destruct (Z_le_gt_dec (pos st1 + (len + 2)) 2147483647).
    + rewrite add_small
        by (unfold Int.min_int, Int.max_int; simpl; lia).
      right. lia.
    + unfold Int.add. rewrite wrap_above by (unfold Int.max_int; simpl; lia).
      left. change (2 ^ 32) with 4294967296. lia.
  - rewrite A1.
    rewrite add_small by (unfold Int.min_int, Int.max_int; simpl; lia).
    left. lia.
Qed.

Lemma remaining_in_range st :
  0 <= pos st < QByteArray.length (buffer st) ->
  remaining st = Z.to_nat (QByteArray.length (buffer st) - pos st) /\
  (1 <= remaining st)%nat.
Proof.
  intros R. unfold remaining.
  replace ((0 <=? pos st) && _) with true; [lia|].
  symmetry. apply andb_true_iff. split; [apply Z.leb_le|apply Z.ltb_lt]; lia.
Qed.

Lemma remaining_advanced st st' :
  buffer st' = buffer st ->
  0 <= pos st < QByteArray.length (buffer st) ->
  advanced st st' ->
  (remaining st' < remaining st)%nat.
Proof.
  intros B R A. destruct (remaining_in_range st R) as [E1 E2].
  unfold remaining at 1. rewrite B.
  destruct ((0 <=? pos st') && _) eqn:E'; [|lia].
  apply andb_true_iff in E'. destruct E' as [E3 E4].
  apply Z.leb_le in E3. apply Z.ltb_lt in E4.
  destruct A as [A|[A1 A2]]; lia.
Qed.

Lemma advanced_trans a c d : advanced a c -> advanced c d -> advanced a d.
Proof.
  unfold advanced. intros [A|[A1 A2]] [C|[C1 C2]]; lia.
Qed.

Lemma arrayLoop_stopped fuel count lst st :
  arrayLoop Q_OS_WIN fuel count lst false st = Some (lst, false, st).
Proof. destruct fuel; reflexivity. Qed.

(** With fuel for twice the bytes that remain, the parser and its loop
    return, and a success has moved the cursor. *)
Lemma parse_returns m :
  forall st, fits st -> (remaining st < m)%nat ->
    (0 <= pos st < QByteArray.length (buffer st) ->
     forall fuel, (2 * m <= fuel + 2)%nat ->
     exists lst ok st',
       parseArray_rec Q_OS_WIN fuel st = Some (lst, ok, st') /\
       (ok = true -> advanced st st')) /\
    (forall fuel count lst, (2 * m <= fuel + 1)%nat ->
     exists lst' ok st',
       arrayLoop Q_OS_WIN fuel count lst true st = Some (lst', ok, st') /\
       (ok = true -> advanced st st')).
Proof.
  induction m as [|m IH]; intros st F R; [lia|].
  (* what follows an element, whatever its kind *)
  assert (forall f count lst1 ok1 st1,
             (2 * S m <= S f + 1)%nat ->
             buffer st1 = buffer st ->
             (ok1 = true ->
              0 <= pos st < QByteArray.length (buffer st) /\
              advanced st st1) ->
             exists lst' ok st',
               (if Z.of_nat (List.length lst1) >=? count
                then Some (lst1, ok1, st1)
                else arrayLoop Q_OS_WIN f count lst1 ok1 st1)
               = Some (lst', ok, st') /\
               (ok = true -> advanced st st')) as Tail.
  { intros f count lst1 ok1 st1 Hf B A.
    destruct (_ >=? _).
    - exists lst1, ok1, st1. split; [reflexivity|]. intros E. apply A, E.
    - destruct ok1.
      + destruct (A eq_refl) as [InR Adv].
        assert (fits st1) as F1 by (unfold fits; rewrite B; exact F).
        pose proof (remaining_advanced B InR Adv) as R1.
        destruct (IH st1 F1 ltac:(lia)) as [_ L].
        destruct (L f count lst1 ltac:(lia)) as (l' & o' & s' & EL & AL).
        exists l', o', s'. split; [exact EL|].
        intros E. eapply advanced_trans; eauto.
      + rewrite arrayLoop_stopped. exists lst1, false, st1.
        split; [reflexivity|discriminate]. }
  assert (0 <= pos st < QByteArray.length (buffer st) ->
          forall fuel, (2 * S m <= fuel + 2)%nat ->
          exists lst ok st',
            parseArray_rec Q_OS_WIN fuel st = Some (lst, ok, st') /\
            (ok = true -> advanced st st')) as A.
  { intros InR fuel Hf.
    destruct (remaining_in_range st InR) as [_ R1].
    destruct fuel as [|f]; [lia|]. simpl.
    assert (fits (setPos st (Int.add (pos st) 1))) as F0 by exact F.
    destruct (getNumber _ _) as [[count ok] st1] eqn:E.
    destruct ok.
    - apply (getNumber_advanced F0) in E. simpl in E.
      unfold fits in F. change (2 ^ 30) with 1073741824 in F.
      rewrite add_small in E
        by (unfold Int.min_int, Int.max_int; simpl; lia).
      destruct E as (E1 & E2 & E3 & E4).
      assert (fits st1) as F1
        by (unfold fits; rewrite E3; change (2 ^ 30) with 1073741824; exact F).
      assert (advanced st st1) as Adv by (right; lia).
      pose proof (remaining_advanced E3 InR Adv) as R2.
      destruct (IH st1 F1 ltac:(lia)) as [_ L].
      destruct (L f count [] ltac:(lia)) as (l' & o' & s' & EL & AL).
      rewrite EL. eexists _, _, _. split; [reflexivity|].
      intros ->. eapply advanced_trans; eauto.
    - rewrite arrayLoop_stopped. eexists _, _, _.
      split; [reflexivity|discriminate]. }
  split; [exact A|].
  intros fuel count lst Hf. destruct fuel as [|f]; [lia|].
  cbn [arrayLoop negb].
  set (tag := code (QByteArray.at_ (buffer st) (pos st))).
  assert (tag <> 0 -> 0 <= pos st < QByteArray.length (buffer st)) as InR
    by apply at_nonzero.
  destruct (tag =? BulkString) eqn:T1.
  { apply Z.eqb_eq in T1.
    assert (tag <> 0) as T0 by (rewrite T1; discriminate).
    pose proof (parseBulkString_data Q_OS_WIN st) as [_ B].
    pose proof (@parseBulkString_advanced st) as Adv.
    destruct (parseBulkString _ _) as [[str ok] st1]. simpl in B.
    apply Tail; [lia|exact B|].
    intros ->. split; [auto|]. eapply Adv; eauto. }
  destruct (tag =? Integer) eqn:T2.
  { apply Z.eqb_eq in T2.
    assert (tag <> 0) as T0 by (rewrite T2; discriminate).
    assert (fits (setPos st (Int.add (pos st) 1))) as F0 by exact F.
    destruct (getNumber _ _) as [[num ok] st1] eqn:E.
    assert (ok = true ->
            buffer st1 = buffer st /\ advanced st st1) as K.
    { intros ->. apply (getNumber_advanced F0) in E. simpl in E.
      specialize (InR T0).
      unfold fits in F. change (2 ^ 30) with 1073741824 in F.
      rewrite add_small in E
        by (unfold Int.min_int, Int.max_int; simpl; lia).
      split; [tauto|]. right. lia. }
    apply Tail; [lia| |].
    - destruct ok; [apply K; reflexivity|].
      pose proof (getNumber_fail Q_OS_WIN
                    (setPos st (Int.add (pos st) 1))) as E'.
      rewrite E in E'. specialize (E' eq_refl).
      inversion E'; subst. reflexivity.
    - intros ->. split; [auto|]. apply K; reflexivity. }
  destruct (tag =? Array) eqn:T3.
  { apply Z.eqb_eq in T3.
    assert (tag <> 0) as T0 by (rewrite T3; discriminate).
    destruct (A (InR T0) f ltac:(lia)) as (var & ok & st1 & E & Adv).
    rewrite E.
    apply Tail; [lia| |].
    - apply (parseArray_arrayLoop_data Q_OS_WIN f) in E. apply E.
    - intros ->. split; auto. }
  apply Tail; [lia|reflexivity|discriminate].
Qed.

(** [parseArray] returns, whatever the buffer and the cursor. *)
Lemma parseArray_returns st :
  fits st ->
  exists lst ok st', parseArray Q_OS_WIN st = Some (lst, ok, st').
Proof.
  intros F. unfold parseArray, array_fuel.
  replace (2 * List.length (buffer st) + 4)%nat
    with (S (2 * List.length (buffer st) + 3)) by lia.
  remember (2 * List.length (buffer st) + 3)%nat as f eqn:Hf.
  simpl parseArray_rec.
  assert (fits (setPos st (Int.add (pos st) 1))) as F0 by exact F.
  destruct (getNumber _ _) as [[count ok] st1] eqn:E.
  destruct ok.
  - apply (getNumber_advanced F0) in E. destruct E as (_ & _ & E3 & _).
    simpl in E3.
    assert (fits st1) as F1 by (unfold fits; rewrite E3; exact F).
    assert (remaining st1 < S (List.length (buffer st)))%nat as R.
    { unfold remaining. rewrite E3. unfold QByteArray.length.
      destruct (_ && _) eqn:C; [|lia].
      apply andb_true_iff in C. destruct C as [C1 C2].
      apply Z.leb_le in C1. lia. }
    destruct (parse_returns F1 R) as [_ L].
    destruct (L f count [] ltac:(lia)) as (l' & o' & s' & EL & _).
    rewrite EL. eauto.
  - rewrite arrayLoop_stopped. eauto.
Qed.

End Termination.

(** ** A parsing function that fails leaves the cursor alone *)

Lemma driver_eq st st' : same_data st st' -> pos st' = pos st -> st' = st.
Proof.
  destruct st, st'. unfold same_data. simpl. intros [-> ->] ->. reflexivity.
Qed.

(** The four parsing functions taken on their own.  For every buffer, cursor
    and build target, when the line scan [getLine], the number scan
    [getNumber], the bulk-string parse [parseBulkString] or the array parse
    [parseArray] reports failure ([*ok] false, the only way the source
    reports an incomplete or a malformed reply), the driver is exactly as it
    was before the call: same cursor, same buffer.  The array parse does
    return for every buffer of a size Qt allows.  What [request] does with
    the cursor after a failed attempt is another matter, see
    [request_retries_from_entry_cursor] below. *)
Theorem failed_parse_keeps_cursor (Q_OS_WIN : bool) (st : Driver) :
  (snd (fst (getLine Q_OS_WIN st)) = false ->
   snd (getLine Q_OS_WIN st) = st) /\
  (snd (fst (getNumber Q_OS_WIN st)) = false ->
   snd (getNumber Q_OS_WIN st) = st) /\
  (snd (fst (parseBulkString Q_OS_WIN st)) = false ->
   snd (parseBulkString Q_OS_WIN st) = st) /\
  (forall lst st',
      parseArray Q_OS_WIN st = Some (lst, false, st') -> st' = st) /\
  (fits st ->
   exists lst ok st', parseArray Q_OS_WIN st = Some (lst, ok, st')).
Proof.
  repeat split.
  - intros H. rewrite (getLine_fail _ _ H). reflexivity.
  - intros H. rewrite (getNumber_fail _ _ H). reflexivity.
  - intros H. apply driver_eq.
    + apply parseBulkString_data.
    + apply parseBulkString_fail, H.
  - intros lst st' H. unfold parseArray in H. apply driver_eq.
    + apply (parseArray_arrayLoop_data Q_OS_WIN (array_fuel st)) in H.
      exact H.
    + eapply parseArray_rec_fail, H.
  - apply parseArray_returns.
Qed.

(** A buffer that holds a length line without its terminator makes all four
    attempts fail. *)
Lemma failed_parse_keeps_cursor_witness :
  let st := holding (bs "*2$5") 2 in
  snd (getLine false st) = st /\
  snd (getNumber false st) = st /\
  snd (parseBulkString false st) = st /\
  parseArray false st = Some ([], false, st) /\
  (forall lst st', parseArray false st = Some (lst, false, st') -> st' = st) /\
  (exists lst ok st', parseArray false st = Some (lst, ok, st')).
Proof.
  intros st.
  destruct (failed_parse_keeps_cursor false st) as (H1 & H2 & H3 & H4 & H5).
  split; [apply H1; reflexivity|].
  split; [apply H2; reflexivity|].
  split; [apply H3; reflexivity|].
  split; [vm_compute; reflexivity|].
  split; [exact H4|].
  apply H5. unfold fits. vm_compute. reflexivity.
Defined.

(** An array whose nested array lacks its last terminator: the failure
    comes from two levels down and the cursor is back at the start. *)
Example nested_failure_restores :
  parseArray false
    (holding (bs "*2" ++ [CR; LF] ++ bs "$1" ++ [CR; LF] ++ bs "a" ++ [CR; LF]
              ++ bs "*1" ++ [CR; LF] ++ bs ":7") 0)
  = Some ([VByteArray (Some (bs "a"))], false,
          holding (bs "*2" ++ [CR; LF] ++ bs "$1" ++ [CR; LF] ++ bs "a"
                   ++ [CR; LF] ++ bs "*1" ++ [CR; LF] ++ bs ":7") 0).
Proof. vm_compute. reflexivity. Qed.

(** The reply of section 8 of the specification, whole. *)
Example nested_array_parsed :
  parseArray false
    (holding (bs "*2" ++ [CR; LF] ++ bs "$1" ++ [CR; LF] ++ bs "a" ++ [CR; LF]
              ++ bs "*1" ++ [CR; LF] ++ bs ":7" ++ [CR; LF]) 0)
  = Some ([VByteArray (Some (bs "a")); VList [VInt 7]], true,
          holding (bs "*2" ++ [CR; LF] ++ bs "$1" ++ [CR; LF] ++ bs "a"
                   ++ [CR; LF] ++ bs "*1" ++ [CR; LF] ++ bs ":7" ++ [CR; LF])
                  19).
Proof. vm_compute. reflexivity. Qed.

(** ** C5: the number of elements of an array *)

Section ArrayCount.

Variable Q_OS_WIN : bool.

(** The loop tests the count after each element: a loop that succeeds
    leaves [count] elements, or one more than it started with when that is
    already [count] or more. *)
Lemma arrayLoop_count fuel :
  forall count lst st lst' st',
    arrayLoop Q_OS_WIN fuel count lst true st = Some (lst', true, st') ->
    Z.of_nat (List.length lst) < count \/ lst = [] ->
    Z.of_nat (List.length lst') =
    Z.max count (Z.of_nat (List.length lst) + 1).
Proof.
  induction fuel as [|fuel IH]; intros count lst st lst' st';
    [simpl; discriminate|].
  cbn [arrayLoop negb]. intros H Pre.
  assert (forall x ok1 st1,
             (if Z.of_nat (List.length (if ok1 : bool then lst ++ [x] else lst))
                 >=? count
              then Some (if ok1 then lst ++ [x] else lst, ok1, st1)
              else arrayLoop Q_OS_WIN fuel count
                     (if ok1 then lst ++ [x] else lst) ok1 st1)
             = Some (lst', true, st') ->
             Z.of_nat (List.length lst') =
             Z.max count (Z.of_nat (List.length lst) + 1)) as Tail.
  { intros x ok1 st1 E. destruct ok1.
    - assert (Z.of_nat (List.length (lst ++ [x]))
              = Z.of_nat (List.length lst) + 1) as L
          by (rewrite length_app; simpl; lia).
      destruct (_ >=? _) eqn:C.
      + inversion E; subst. apply Z.geb_le in C.
        destruct Pre as [Pre| ->]; simpl in *; lia.
      + rewrite Z.geb_leb in C. apply Z.leb_gt in C.
        apply IH in E; [|left; exact C]. lia.
    - destruct (_ >=? _); [inversion E|].
      rewrite arrayLoop_stopped in E. inversion E. }
  destruct (_ =? BulkString).
  { destruct (parseBulkString _ _) as [[str ok] st1].
    eapply (Tail (VByteArray str)); eauto. }
  destruct (_ =? Integer).
  { destruct (getNumber _ _) as [[num ok] st1].
    eapply (Tail (VInt num)); eauto. }
  destruct (_ =? Array).
  { destruct (parseArray_rec _ _ _) as [[[var ok] st1]|]; [|discriminate].
    eapply (Tail (VList var)); eauto. }
  destruct (_ >=? _); [inversion H|].
  rewrite arrayLoop_stopped in H. inversion H.
Qed.

Lemma parseArray_count st lst st' :
  parseArray Q_OS_WIN st = Some (lst, true, st') ->
  Z.of_nat (List.length lst) = Z.max (declaredCount Q_OS_WIN st) 1.
Proof.
  unfold parseArray, declaredCount.
  destruct (array_fuel st) as [|fuel]; simpl; [discriminate|].
  destruct (getNumber _ _) as [[count ok] st1]. simpl.
  destruct ok.
  - destruct (arrayLoop _ _ _ _ _ _) as [[[l o] s]|] eqn:E; [|discriminate].
    intros H; inversion H; subst.
    apply arrayLoop_count in E; [|right; reflexivity]. simpl in E. exact E.
  - rewrite arrayLoop_stopped. discriminate.
Qed.

End ArrayCount.

(** C5, as the code has it.  For every array reply that declares a count of
    at least one, a parse that succeeds returns exactly that many elements.
    (The result is a [QVariantList]: the driver has no value for a null
    array.) *)
Theorem array_has_declared_count (Q_OS_WIN : bool) (st : Driver)
        (lst : QVariantList) (st' : Driver) :
  1 <= declaredCount Q_OS_WIN st ->
  parseArray Q_OS_WIN st = Some (lst, true, st') ->
  Z.of_nat (List.length lst) = declaredCount Q_OS_WIN st.
Proof.
  intros C H. apply parseArray_count in H. lia.
Qed.

Lemma array_has_declared_count_witness :
  let st := holding (bs "*2" ++ [CR; LF] ++ bs ":1" ++ [CR; LF]
                     ++ bs "$2" ++ [CR; LF] ++ bs "ab" ++ [CR; LF]) 0 in
  declaredCount false st = 2 /\
  parseArray false st
  = Some ([VInt 1; VByteArray (Some (bs "ab"))], true, setPos st 16) /\
  Z.of_nat (List.length [VInt 1; VByteArray (Some (bs "ab"))])
  = declaredCount false st.
Proof.
  intros st.
  split; [reflexivity|]. split; [vm_compute; reflexivity|].
  apply (@array_has_declared_count false st _ (setPos st 16)).
  - vm_compute. discriminate.
  - vm_compute. reflexivity.
Defined.

(** C5 as stated fails.  Alone in the buffer, [*-1] and [*0] both make the
    parse fail (the loop body runs once before the count is looked at and
    finds no element), with the same empty list; and an array that declares no
    element takes the reply that follows it as its element. *)
Lemma array_count_zero_counterexample :
  parseArray false (holding (bs "*-1" ++ [CR; LF]) 0)
  = Some ([], false, holding (bs "*-1" ++ [CR; LF]) 0) /\
  parseArray false (holding (bs "*0" ++ [CR; LF]) 0)
  = Some ([], false, holding (bs "*0" ++ [CR; LF]) 0) /\
  declaredCount false
    (holding (bs "*0" ++ [CR; LF] ++ bs ":5" ++ [CR; LF]) 0) = 0 /\
  parseArray false (holding (bs "*0" ++ [CR; LF] ++ bs ":5" ++ [CR; LF]) 0)
  = Some ([VInt 5], true,
          holding (bs "*0" ++ [CR; LF] ++ bs ":5" ++ [CR; LF]) 8).
Proof. repeat split; vm_compute; reflexivity. Qed.

(** ** C7: what the number scan accepts *)

Lemma eqm_wrap z : eqm (Int.wrap z) z.
Proof. apply wrap_eqm. Qed.

Lemma eqm_step a c k : eqm a c -> eqm (10 * a + k) (10 * c + k).
Proof.
  unfold eqm. intros H.
  rewrite (Zplus_mod (10 * a)), (Zplus_mod (10 * c)).
  rewrite (Zmult_mod 10 a), (Zmult_mod 10 c), H. reflexivity.
Qed.

Lemma decimalFrom_eqm ds : forall a c,
  eqm a c -> eqm (decimalFrom a ds) (decimalFrom c ds).
Proof.
  unfold decimalFrom.
  induction ds as [|d ds IH]; intros a c H; simpl; [exact H|].
  apply IH, eqm_step, H.
Qed.

Section Number.

Variable Q_OS_WIN : bool.

(** The loop computes, modulo 2^32, the decimal value of the digits it
    reads, on top of what was accumulated before. *)
Lemma digitRun_cons d l :
  digitRun (d :: l) = if isDigit d then d :: digitRun l else [].
Proof. reflexivity. Qed.

Lemma decimalFrom_cons num d ds :
  decimalFrom num (d :: ds)
  = decimalFrom (10 * num + (code d - code "0")) ds.
Proof. reflexivity. Qed.

Lemma digit_step num d :
  eqm (Int.add (Int.mul num 10) (code d - code "0"))
      (10 * num + (code d - code "0")).
Proof.
  unfold Int.add, Int.mul, eqm. rewrite wrap_eqm.
  rewrite (Zplus_mod (Int.wrap _)), wrap_eqm, <- Zplus_mod.
  f_equal. lia.
Qed.

Lemma digitLoop_decimal rest : forall num d,
  eqm (digitLoop rest num d) (decimalFrom num (digitRun (d :: rest))).
Proof.
  induction rest as [|d' rest' IH]; intros num d;
    rewrite digitRun_cons; cbn [digitLoop];
    destruct (isDigit d); try reflexivity; rewrite decimalFrom_cons.
  - apply digit_step.
  - unfold eqm. rewrite IH. apply decimalFrom_eqm, digit_step.
Qed.

Lemma digitRun_next l :
  digitRun (fst (next l) :: snd (next l)) = digitRun l.
Proof. destruct l; reflexivity. Qed.

Lemma mul_eqm a c k : eqm a c -> Int.mul a k = Int.wrap (c * k).
Proof.
  unfold Int.mul, eqm. intros H. apply wrap_congr.
  rewrite (Zmult_mod a), (Zmult_mod c), H. reflexivity.
Qed.

Lemma getNumber_value st :
  0 <= QByteArray.indexOf (buffer st) (CRLF Q_OS_WIN) (pos st) ->
  getNumber Q_OS_WIN st
  = (Int.wrap (signedDecimal (readFrom (buffer st) (pos st))), true,
     setPos st
       (Int.add (QByteArray.indexOf (buffer st) (CRLF Q_OS_WIN) (pos st)) 2)).
Proof.
  intros H. unfold getNumber.
  destruct (_ <? 0) eqn:L; [apply Z.ltb_lt in L; lia|].
  destruct (readFrom (buffer st) (pos st)) as [|d rest] eqn:E.
  - reflexivity.
  - cbn [next]. unfold signedDecimal.
    destruct (code d =? code "-").
    + pose proof (digitLoop_decimal (snd (next rest)) 0 (fst (next rest)))
        as D.
      rewrite digitRun_next in D. destruct (next rest) as [d' rest'].
      simpl fst in D; simpl snd in D.
      rewrite (mul_eqm (-1) D). do 3 f_equal. unfold decimal. lia.
    + pose proof (digitLoop_decimal rest 0 d) as D.
      rewrite (mul_eqm 1 D). do 3 f_equal. unfold decimal. lia.
Qed.

Lemma getNumber_no_terminator st :
  QByteArray.indexOf (buffer st) (CRLF Q_OS_WIN) (pos st) < 0 ->
  getNumber Q_OS_WIN st = (0, false, st).
Proof.
  intros H. unfold getNumber.
  destruct (_ <? 0) eqn:L; [reflexivity|apply Z.ltb_ge in L; lia].
Qed.

End Number.

(** C7, as the code has it.  For every integer line the scan fails, cursor
    unchanged, when no terminator is found from the cursor on, and in no
    other case: when a terminator is found it succeeds, also when a
    non-digit byte interrupts the digit run.  It then returns the value,
    wrapped to 32 bits, of the optional [-] and of the digits read up to the
    first byte that is not a digit, and puts the cursor two bytes after the
    start of the terminator. *)
Theorem number_scan_accepts (Q_OS_WIN : bool) (st : Driver) :
  let idx := QByteArray.indexOf (buffer st) (CRLF Q_OS_WIN) (pos st) in
  (idx < 0 -> getNumber Q_OS_WIN st = (0, false, st)) /\
  (0 <= idx ->
   getNumber Q_OS_WIN st
   = (Int.wrap (signedDecimal (readFrom (buffer st) (pos st))), true,
      setPos st (Int.add idx 2))).
Proof.
  split.
  - apply getNumber_no_terminator.
  - apply getNumber_value.
Qed.

Lemma number_scan_accepts_witness :
  getNumber false (holding (bs ":-12") 1) = (0, false, holding (bs ":-12") 1)
  /\
  getNumber false (holding (bs ":-12" ++ [CR; LF]) 1)
  = (-12, true, holding (bs ":-12" ++ [CR; LF]) 6).
Proof.
  split.
  - apply (number_scan_accepts false (holding (bs ":-12") 1)).
    vm_compute. reflexivity.
  - apply (number_scan_accepts false (holding (bs ":-12" ++ [CR; LF]) 1)).
    vm_compute. discriminate.
Defined.

(** C7 as stated fails: a letter inside the digits does not make the scan
    fail; the digits before it are returned as the number. *)
Lemma number_scan_counterexample :
  getNumber false (holding (bs ":12a4" ++ [CR; LF]) 1)
  = (12, true, holding (bs ":12a4" ++ [CR; LF]) 7).
Proof. vm_compute. reflexivity. Qed.

(** ** C6: the payload of an error or simple-string line *)

Lemma tag_not_terminator (Q_OS_WIN : bool) (tag : byte) (rest : bytes) :
  code tag = Error \/ code tag = SimpleString ->
  QByteArray.startsWith (CRLF Q_OS_WIN) (tag :: rest) = false.
Proof.
  intros H. destruct Q_OS_WIN; simpl.
  - destruct (Byte.eqb LF tag) eqn:E; [|reflexivity].
    apply Byte.byte_dec_bl in E. subst tag. vm_compute in H.
    destruct H; discriminate.
  - destruct (Byte.eqb CR tag) eqn:E; [|reflexivity].
    apply Byte.byte_dec_bl in E. subst tag. vm_compute in H.
    destruct H; discriminate.
Qed.

(** C6, as the code has it.  [request] calls the line scan with the cursor
    on the tag byte.  For every error or simple-string reply whose
    terminator is in the buffer, the scan succeeds and its payload is the
    line up to the terminator with the tag byte at its head; the cursor goes
    two bytes after the start of the terminator. *)
Theorem line_payload_keeps_tag (Q_OS_WIN : bool) (st : Driver)
        (tag : byte) (rest : bytes) :
  buffer st = tag :: rest ->
  pos st = 0 ->
  code tag = Error \/ code tag = SimpleString ->
  let idx := QByteArray.indexOf (buffer st) (CRLF Q_OS_WIN) 0 in
  0 <= idx ->
  getLine Q_OS_WIN st
  = (Some (tag :: firstn (Z.to_nat (idx - 1)) rest), true,
     setPos st (Int.add idx 2)).
Proof.
  intros B P T idx I. unfold getLine. rewrite P. fold idx.
  destruct (idx <? 0) eqn:L; [apply Z.ltb_lt in L; lia|].
  destruct (indexOf_range (buffer st) (CRLF Q_OS_WIN) 0) as [R|[R _]];
    fold idx in R; [lia|].
  assert (1 <= idx) as I1.
  { subst idx. rewrite B in *. unfold QByteArray.indexOf in *.
    simpl in *. rewrite tag_not_terminator in * by exact T.
    destruct (search_range (CRLF Q_OS_WIN) rest 1); lia. }
  do 3 f_equal. unfold QByteArray.mid.
  destruct (QByteArray.length (buffer st) <? 0) eqn:L0;
    [apply Z.ltb_lt in L0; lia|].
  rewrite L. simpl.
  destruct (QByteArray.length (buffer st) <? idx + 0) eqn:L1;
    [apply Z.ltb_lt in L1; lia|].
  rewrite B. replace (Z.to_nat idx) with (S (Z.to_nat (idx - 1))) by lia.
  reflexivity.
Qed.

Lemma line_payload_keeps_tag_witness :
  getLine false (holding (bs "-ERR bad" ++ [CR; LF]) 0)
  = (Some (bs "-ERR bad"), true, holding (bs "-ERR bad" ++ [CR; LF]) 10).
Proof.
  apply (@line_payload_keeps_tag false
           (holding (bs "-ERR bad" ++ [CR; LF]) 0)
           "-"%byte (bs "ERR bad" ++ [CR; LF])).
  - reflexivity.
  - reflexivity.
  - left. reflexivity.
  - vm_compute. discriminate.
Defined.

(** C6 as stated fails on its own example: the payload of [-ERR bad] is not
    [ERR bad], the tag byte is part of it. *)
Lemma line_payload_counterexample :
  fst (fst (getLine false (holding (bs "-ERR bad" ++ [CR; LF]) 0)))
  = Some (bs "-ERR bad") /\
  fst (fst (getLine false (holding (bs "-ERR bad" ++ [CR; LF]) 0)))
  <> Some (bs "ERR bad").
Proof. split; [vm_compute; reflexivity | vm_compute; discriminate]. Qed.

(** ** C9: the command encoder *)

Lemma fold_left_append (f : bytes -> bytes) (data : list bytes) :
  forall acc, fold_left (fun m d => m ++ f d) data acc
              = acc ++ List.concat (map f data).
Proof.
  induction data as [|d data IH]; intros acc; simpl.
  - rewrite app_nil_r. reflexivity.
  - rewrite IH, <- app_assoc. reflexivity.
Qed.

Lemma toMultiBulk_frame (Q_OS_WIN : bool) (args : list bytes) :
  toMultiBulk Q_OS_WIN args = frame (CRLF Q_OS_WIN) args.
Proof.
  unfold toMultiBulk, frame. rewrite fold_left_append.
  cbn [app]. rewrite <- !app_assoc. unfold bs. do 4 f_equal.
  apply map_ext. intros a. unfold toBulk. rewrite <- !app_assoc.
  reflexivity.
Qed.

(** C9, as the code has it.  For every argument list the encoder produces
    [*<N>], a terminator, then for each argument [$<len>], a terminator, the
    argument's bytes and a terminator; the empty list gives [*0] and a
    terminator.  The terminator is what the macro [CRLF] is on the build
    target: the two bytes CR LF, except where [Q_OS_WIN] is defined, where
    it is the single byte LF. *)
Theorem encoder_frames_arguments (args : list bytes) :
  toMultiBulk false args = frame [CR; LF] args /\
  toMultiBulk true args = frame [LF] args /\
  toMultiBulk false [] = bs "*0" ++ [CR; LF] /\
  toMultiBulk true [] = bs "*0" ++ [LF].
Proof.
  repeat split; try apply toMultiBulk_frame; reflexivity.
Qed.

(** C9 as stated fails where [Q_OS_WIN] is defined: the line that ends the
    empty command is one byte long. *)
Lemma encoder_terminator_counterexample :
  toMultiBulk true [] = bs "*0" ++ [LF] /\
  toMultiBulk true [] <> bs "*0" ++ [CR; LF] /\
  toMultiBulk true [bs "GET"; bs "k"]
  = bs "*2" ++ [LF] ++ bs "$3" ++ [LF] ++ bs "GET" ++ [LF]
    ++ bs "$1" ++ [LF] ++ bs "k" ++ [LF].
Proof.
  split; [reflexivity|]. split; [vm_compute; discriminate|].
  vm_compute. reflexivity.
Qed.

Example encode_set :
  toMultiBulk false [bs "SET"; bs "k"; bs "v"]
  = bs "*3" ++ [CR; LF] ++ bs "$3" ++ [CR; LF] ++ bs "SET" ++ [CR; LF]
    ++ bs "$1" ++ [CR; LF] ++ bs "k" ++ [CR; LF]
    ++ bs "$1" ++ [CR; LF] ++ bs "v" ++ [CR; LF].
Proof. vm_compute. reflexivity. Qed.

(** ** C10: opening the connection *)




(** A server that never answers: [open] gives up once 5000 ms have passed
    and leaves the remaining turns of the event loop alone. *)
Example open_times_out :
  let closed := mkDriver (QTcpSocket.mk false UnconnectedState [] [] [] 0
                            [mkPoll 3000 [] ConnectingState;
                             mkPoll 3000 [] ConnectingState;
                             mkPoll 3000 [] ConnectedState]) [] 0 in
  fst (open closed "db" 6380) = false /\
  QTcpSocket.clock (redis (snd (open closed "db" 6380))) = 6000 /\
  QTcpSocket.events (redis (snd (open closed "db" 6380)))
  = [mkPoll 3000 [] ConnectedState].
Proof. repeat split. Qed.

(** ** The request loop *)

Lemma readLoop_spec evs : forall start len s buf s' buf',
  QTcpSocket.events s = evs ->
  readLoop evs start len s buf = (s', buf') ->
  QTcpSocket.opened s' = QTcpSocket.opened s /\
  buf' ++ pending s' = buf ++ pending s /\
  (List.length (QTcpSocket.events s') <= List.length evs)%nat /\
  (QTcpSocket.readable s = [] -> QTcpSocket.readable s' = []).
Proof.
  assert (forall s (buf : bytes) l, QTcpSocket.events s = l ->
            QTcpSocket.opened s = QTcpSocket.opened s /\
            buf ++ pending s = buf ++ pending s /\
            (List.length (QTcpSocket.events s) <= List.length l)%nat /\
            (QTcpSocket.readable s = [] -> QTcpSocket.readable s = []))
    as Stay by (intros s buf l <-; auto).
  induction evs as [|e evs IH]; intros start len s buf s' buf' Hev;
    cbn [readLoop];
    (destruct (QByteArray.length buf =? len);
     [destruct (_ >=? 2000)|]);
    unfold QTcpSocket.readAll; intros H.
  1,3,4,6: inversion H; subst; apply Stay; exact Hev.
  - inversion H; subst; clear H. unfold pending. simpl. rewrite Hev. simpl.
    rewrite !app_nil_r. auto.
  - apply IH in H; [|reflexivity].
    destruct H as (H1 & H2 & H3 & H4). simpl in H1.
    split; [exact H1|]. split; [|split; [simpl; lia|auto]].
    rewrite H2. unfold pending. simpl. rewrite Hev. simpl.
    rewrite <- !app_assoc. reflexivity.
Qed.

Lemma remove0_length buf p :
  QByteArray.length (QByteArray.remove0 buf p) <= QByteArray.length buf.
Proof.
  unfold QByteArray.remove0, QByteArray.length.
  destruct (p <=? 0); [lia|]. rewrite length_skipn. lia.
Qed.

Lemma app_length_Z (l1 l2 : bytes) :
  QByteArray.length (l1 ++ l2) = QByteArray.length l1 + QByteArray.length l2.
Proof. unfold QByteArray.length. rewrite length_app. lia. Qed.

(** A read leaves the device as open as it was and loses no byte that is
    still to come; when it brings something, fewer reads are left. *)
Lemma readReply_spec st got st' :
  readReply st = (got, st') ->
  QTcpSocket.opened (redis st') = QTcpSocket.opened (redis st) /\
  QByteArray.length (buffer st') + QByteArray.length (pending (redis st'))
  <= QByteArray.length (buffer st) + QByteArray.length (pending (redis st)) /\
  (got = true -> (reads_left st' < reads_left st)%nat) /\
  (got = true -> 0 < QByteArray.length (buffer st')) /\
  (pos st = 0 -> pos st' = 0 /\
                 buffer st' ++ pending (redis st')
                 = buffer st ++ pending (redis st)).
Proof.
  unfold readReply, isOpen, QTcpSocket.isOpen.
  destruct (QTcpSocket.opened (redis st)) eqn:O; cbn [negb].
  2:{ intros H; inversion H; subst. rewrite O.
      repeat split; try discriminate; auto; lia. }
  set (st0 := if pos st >? 0
              then mkDriver (redis st)
                            (QByteArray.remove0 (buffer st) (pos st)) 0
              else st).
  assert (redis st0 = redis st /\
          QByteArray.length (buffer st0) <= QByteArray.length (buffer st) /\
          (pos st = 0 -> st0 = st)) as (R0 & B0 & P0).
  { subst st0. destruct (pos st >? 0) eqn:P; simpl.
    - split; [reflexivity|]. split; [apply remove0_length|].
      intros E. rewrite E in P. discriminate.
    - repeat split; auto. lia. }
  destruct (QTcpSocket.events (redis st0)) as [|e evs] eqn:Ev;
    cbn [readLoop]; rewrite Z.eqb_refl, Z.sub_diag; cbn [Z.geb Z.compare].
  - cbn [QTcpSocket.readAll QTcpSocket.idle QTcpSocket.readable].
    intros H; inversion H; subst got st'; clear H.
    cbn [redis buffer pos QTcpSocket.opened].
    rewrite R0 in *. unfold reads_left, pending.
    cbn [redis QTcpSocket.events QTcpSocket.readable]. rewrite Ev.
    cbn [map List.concat List.length]. rewrite !app_nil_r.
    rewrite app_length_Z. cbn [app].
    change (QByteArray.length []) with 0.
    split; [exact O|]. split; [lia|].
    assert ((QByteArray.length (buffer st0)
             + QByteArray.length (QTcpSocket.readable (redis st))
             >? QByteArray.length (buffer st0)) = true ->
            QTcpSocket.readable (redis st) <> []) as G.
    { intros G E. rewrite E in G. unfold QByteArray.length in G.
      simpl in G. rewrite Z.add_0_r in G.
      apply Z.gtb_lt in G. lia. }
    split; [|split].
    + intros G1. apply G in G1.
      destruct (QTcpSocket.readable (redis st)); [congruence|simpl; lia].
    + intros G1. apply Z.gtb_lt in G1.
      pose proof (length_nonneg (buffer st0)). lia.
    + intros E. rewrite (P0 E). split; [exact E|]. reflexivity.
  - cbn [QTcpSocket.readAll QTcpSocket.deliver QTcpSocket.readable].
    destruct (readLoop _ _ _ _ _) as [s' buf'] eqn:L.
    apply readLoop_spec in L; [|reflexivity].
    destruct L as (L1 & L2 & L3 & L4).
    cbn [QTcpSocket.opened QTcpSocket.readable] in L1, L4.
    specialize (L4 eq_refl).
    unfold pending at 2 in L2.
    cbn [QTcpSocket.readable QTcpSocket.events app] in L2.
    unfold QTcpSocket.deliver in L1, L2.
    cbn [QTcpSocket.opened QTcpSocket.events] in L1, L2.
    intros H; inversion H; subst got st'; clear H.
    cbn [redis buffer pos]. rewrite R0 in *.
    assert (QByteArray.length buf' + QByteArray.length (pending s')
            = QByteArray.length (buffer st0)
              + QByteArray.length (pending (redis st))) as LL.
    { rewrite <- !app_length_Z, L2. unfold pending. rewrite Ev.
      cbn [map List.concat]. rewrite <- !app_assoc. reflexivity. }
    split; [congruence|]. split; [lia|].
    split; [|split].
    + intros _. unfold reads_left. cbn [redis]. rewrite L4, Ev.
      cbn [List.length]. lia.
    + intros G1. apply Z.gtb_lt in G1.
      pose proof (length_nonneg (buffer st0)). lia.
    + intros E. rewrite (P0 E) in *. split; [exact E|].
      rewrite L2. unfold pending. rewrite Ev.
      cbn [map List.concat]. rewrite <- !app_assoc. reflexivity.
Qed.

Lemma pending_write s data : pending (QTcpSocket.write s data) = pending s.
Proof. unfold QTcpSocket.write. destruct (QTcpSocket.opened s); reflexivity. Qed.

Lemma opened_write s data :
  QTcpSocket.opened (QTcpSocket.write s data) = QTcpSocket.opened s.
Proof.
  unfold QTcpSocket.write. destruct (QTcpSocket.opened s) eqn:E; auto.
Qed.

Lemma reads_left_write st data :
  reads_left (clearBuffer (setRedis st (QTcpSocket.write (redis st) data)))
  = reads_left st.
Proof.
  unfold reads_left, QTcpSocket.write. simpl.
  destruct (QTcpSocket.opened (redis st)); reflexivity.
Qed.

Section Request.

Variable Q_OS_WIN : bool.

(** The loop of [request] returns: every turn but the last uses up a read. *)
Lemma requestLoop_returns fuel : forall startpos ret reply st,
  (reads_left st < fuel)%nat ->
  QByteArray.length (buffer st) + QByteArray.length (pending (redis st))
  < 2 ^ 30 ->
  exists r, requestLoop Q_OS_WIN fuel startpos ret reply st = Some r.
Proof.
  induction fuel as [|fuel IH]; intros startpos ret reply st M B; [lia|].
  cbn [requestLoop].
  destruct (readReply st) as [got st1] eqn:R.
  apply readReply_spec in R. destruct R as (R1 & R2 & R3 & _).
  destruct got; cbn [negb]; [|eauto].
  specialize (R3 eq_refl).
  assert (forall ok ret' reply' st2, same_data st1 st2 ->
            exists r,
              (if ok : bool then Some (ret', reply', st2, ParseDone)
               else requestLoop Q_OS_WIN fuel startpos ret' reply'
                                (setPos st2 startpos)) = Some r) as Cont.
  { intros ok ret' reply' st2 [D1 D2]. destruct ok; [eauto|]. apply IH.
    - unfold reads_left in *. simpl. rewrite D1. lia.
    - simpl. rewrite D1, D2. lia. }
  cbv zeta.
  destruct (_ =? Error).
  { pose proof (getLine_data Q_OS_WIN st1) as D.
    destruct (getLine _ _) as [[str ok] st2]. apply Cont, D. }
  destruct (_ =? SimpleString).
  { pose proof (getLine_data Q_OS_WIN st1) as D.
    destruct (getLine _ _) as [[str ok] st2]. apply Cont, D. }
  destruct (_ =? Integer).
  { pose proof (getNumber_data Q_OS_WIN (setPos st1 (Int.add (pos st1) 1)))
      as D.
    destruct (getNumber _ _) as [[num ok] st2]. apply Cont, D. }
  destruct (_ =? BulkString).
  { pose proof (parseBulkString_data Q_OS_WIN st1) as D.
    destruct (parseBulkString _ _) as [[str ok] st2]. apply Cont, D. }
  destruct (_ =? Array); [|eauto].
  assert (fits st1) as F.
  { unfold fits. pose proof (length_nonneg (pending (redis st1))). lia. }
  destruct (parseArray_returns Q_OS_WIN F) as (lst & ok & st2 & E).
  rewrite E. apply Cont.
  apply (parseArray_arrayLoop_data Q_OS_WIN (array_fuel st1)) in E. exact E.
Qed.

(** [request] returns, whatever arrives and however it is cut in pieces. *)
Lemma request_returns st command reply :
  QByteArray.length (pending (redis st)) < 2 ^ 30 ->
  exists r, request Q_OS_WIN st command reply = Some r.
Proof.
  intros B. unfold request. apply requestLoop_returns.
  - rewrite reads_left_write. unfold request_fuel, reads_left. simpl.
    unfold QTcpSocket.write.
    destruct (QTcpSocket.opened (redis st)), (QTcpSocket.readable (redis st));
      simpl; lia.
  - cbn [clearBuffer setRedis buffer redis]. rewrite pending_write.
    change (QByteArray.length []) with 0. lia.
Qed.

(** The loop never closes the device, and the two ways out other than a
    completed parse leave the buffer empty. *)
Lemma requestLoop_exit fuel : forall startpos ret reply st ret' reply' st' e,
  requestLoop Q_OS_WIN fuel startpos ret reply st
  = Some (ret', reply', st', e) ->
  QTcpSocket.opened (redis st') = QTcpSocket.opened (redis st) /\
  (e <> ParseDone -> buffer st' = [] /\ pos st' = 0).
Proof.
  induction fuel as [|fuel IH]; intros startpos ret reply st ret' reply' st' e;
    [simpl; discriminate|].
  cbn [requestLoop].
  destruct (readReply st) as [got st1] eqn:R.
  apply readReply_spec in R. destruct R as (R1 & _).
  destruct got; cbn [negb].
  2:{ intros H; inversion H; subst. simpl. auto. }
  assert (forall ok r1 reply1 st2, same_data st1 st2 ->
            (if ok : bool then Some (r1, reply1, st2, ParseDone)
             else requestLoop Q_OS_WIN fuel startpos r1 reply1
                              (setPos st2 startpos))
            = Some (ret', reply', st', e) ->
            QTcpSocket.opened (redis st') = QTcpSocket.opened (redis st) /\
            (e <> ParseDone -> buffer st' = [] /\ pos st' = 0)) as Cont.
  { intros ok r1 reply1 st2 [D1 D2]. destruct ok.
    - intros H; inversion H; subst. split; [congruence|]. congruence.
    - intros H. apply IH in H. simpl in H. rewrite D1 in H.
      destruct H as [H1 H2]. split; [congruence|exact H2]. }
  cbv zeta.
  destruct (_ =? Error).
  { pose proof (getLine_data Q_OS_WIN st1) as D.
    destruct (getLine _ _) as [[str ok] st2]. apply Cont, D. }
  destruct (_ =? SimpleString).
  { pose proof (getLine_data Q_OS_WIN st1) as D.
    destruct (getLine _ _) as [[str ok] st2]. apply Cont, D. }
  destruct (_ =? Integer).
  { pose proof (getNumber_data Q_OS_WIN (setPos st1 (Int.add (pos st1) 1)))
      as D.
    destruct (getNumber _ _) as [[num ok] st2]. apply Cont, D. }
  destruct (_ =? BulkString).
  { pose proof (parseBulkString_data Q_OS_WIN st1) as D.
    destruct (parseBulkString _ _) as [[str ok] st2]. apply Cont, D. }
  destruct (_ =? Array).
  { destruct (parseArray _ _) as [[[lst ok] st2]|] eqn:E; [|discriminate].
    apply Cont.
    apply (parseArray_arrayLoop_data Q_OS_WIN (array_fuel st1)) in E.
    exact E. }
  intros H; inversion H; subst. simpl. auto.
Qed.

End Request.

(** ** C3: a reply that never completes *)

Lemma startsWith_terminator (Q_OS_WIN : bool) (hay : bytes) :
  QByteArray.startsWith (CRLF Q_OS_WIN) hay = true -> In LF hay.
Proof.
  destruct Q_OS_WIN; simpl.
  - destruct hay as [|h hay]; [discriminate|].
    destruct (Byte.eqb LF h) eqn:E; [|discriminate].
    apply Byte.byte_dec_bl in E. subst h. left. reflexivity.
  - destruct hay as [|h [|h2 hay]]; try discriminate;
      [destruct (Byte.eqb CR h); discriminate|].
    destruct (Byte.eqb CR h); [|discriminate]. simpl.
    destruct (Byte.eqb LF h2) eqn:E; [|discriminate].
    apply Byte.byte_dec_bl in E. subst h2. right. left. reflexivity.
Qed.

Lemma search_no_LF (Q_OS_WIN : bool) (hay : bytes) : forall i,
  ~ In LF hay -> QByteArray.search (CRLF Q_OS_WIN) hay i = -1.
Proof.
  induction hay as [|h hay IH]; intros i N; [reflexivity|].
  cbn [QByteArray.search].
  destruct (QByteArray.startsWith _ _) eqn:E.
  - apply startsWith_terminator in E. contradiction.
  - apply IH. intros C. apply N. right. exact C.
Qed.

(** Without a line feed in the buffer no terminator is found. *)
Lemma indexOf_no_LF (Q_OS_WIN : bool) (buf : bytes) (from : Z) :
  ~ In LF buf -> QByteArray.indexOf buf (CRLF Q_OS_WIN) from = -1.
Proof.
  intros N. unfold QByteArray.indexOf. apply search_no_LF.
  intros C. apply N.
  rewrite <- (firstn_skipn
                (Z.to_nat (if from <? 0
                           then Z.max (from + QByteArray.length buf) 0
                           else from)) buf).
  apply in_or_app. right. exact C.
Qed.

Section Unterminated.

Variable Q_OS_WIN : bool.

(** An integer line of which no line feed ever arrives, read with a cursor
    that starts at 0: every attempt fails and the loop ends when a read
    brings nothing. *)
Lemma requestLoop_unterminated fuel : forall reply st rest,
  isOpen st = true ->
  pos st = 0 ->
  buffer st ++ pending (redis st) = ":"%byte :: rest ->
  ~ In LF (buffer st ++ pending (redis st)) ->
  (reads_left st < fuel)%nat ->
  exists st',
    requestLoop Q_OS_WIN fuel 0 true reply st
    = Some (true, reply, st', ReadFailed).
Proof.
  induction fuel as [|fuel IH]; intros reply st rest O P B N M; [lia|].
  cbn [requestLoop].
  destruct (readReply st) as [got st1] eqn:R.
  apply readReply_spec in R. destruct R as (R1 & _ & R3 & R4 & R5).
  destruct got; cbn [negb]; [|eauto].
  specialize (R3 eq_refl). specialize (R4 eq_refl).
  destruct (R5 P) as [P1 B1]. clear R5.
  destruct (buffer st1) as [|c buf1] eqn:Hb;
    [unfold QByteArray.length in R4; simpl in R4; lia|].
  assert (c = ":"%byte) as -> by (rewrite B in B1; inversion B1; reflexivity).
  rewrite P1. cbv zeta.
  change (code (QByteArray.at_ (":"%byte :: buf1) 0)) with Integer.
  change (Integer =? Error) with false.
  change (Integer =? SimpleString) with false.
  change (Integer =? Integer) with true. cbv iota.
  rewrite getNumber_no_terminator.
  2:{ cbn [buffer setPos]. rewrite Hb, indexOf_no_LF; [lia|].
      intros C. apply N. rewrite <- B1. apply in_or_app. left. exact C. }
  apply IH with (rest := rest).
  - unfold isOpen, QTcpSocket.isOpen in *. simpl. congruence.
  - reflexivity.
  - simpl. rewrite Hb, B1. exact B.
  - simpl. rewrite Hb, B1. exact N.
  - unfold reads_left in *. simpl. lia.
Qed.

Lemma request_unterminated st command reply rest :
  isOpen st = true ->
  pos st = 0 ->
  pending (redis st) = ":"%byte :: rest ->
  ~ In LF (pending (redis st)) ->
  exists st',
    request Q_OS_WIN st command reply = Some (true, reply, st', ReadFailed).
Proof.
  intros O P B N. unfold request. rewrite P.
  apply requestLoop_unterminated with (rest := rest).
  - unfold isOpen, QTcpSocket.isOpen in *. simpl. rewrite opened_write.
    exact O.
  - reflexivity.
  - simpl. rewrite pending_write. exact B.
  - simpl. rewrite pending_write. exact N.
  - rewrite reads_left_write. unfold request_fuel, reads_left. simpl.
    unfold QTcpSocket.write.
    destruct (QTcpSocket.opened (redis st)), (QTcpSocket.readable (redis st));
      simpl; lia.
Qed.

End Unterminated.

(** C3, as the code has it.  On an open connection, whenever [request]
    leaves its loop because a read brought nothing before the deadline, it
    has emptied the receive buffer, the bytes received so far included, and
    put the cursor at 0; it closes nothing, so the connection is still open
    for another attempt.  That is how a request ends whose reply is an
    integer line of which the terminator never arrives (read with a cursor
    that starts at 0), and [request] does return whatever arrives. *)
Theorem timeout_empties_buffer (Q_OS_WIN : bool) (st : Driver)
        (command : list bytes) (reply : QVariantList) :
  isOpen st = true ->
  (forall ret reply' st',
      request Q_OS_WIN st command reply = Some (ret, reply', st', ReadFailed)
      -> buffer st' = [] /\ pos st' = 0 /\ isOpen st' = true) /\
  (forall rest,
      pos st = 0 ->
      pending (redis st) = ":"%byte :: rest ->
      ~ In LF (pending (redis st)) ->
      exists ret st',
        request Q_OS_WIN st command reply
        = Some (ret, reply, st', ReadFailed)) /\
  (QByteArray.length (pending (redis st)) < 2 ^ 30 ->
   exists r, request Q_OS_WIN st command reply = Some r).
Proof.
  intros O. split; [|split].
  - intros ret reply' st' H. unfold request in H.
    apply requestLoop_exit in H. destruct H as [H1 H2].
    destruct (H2 ltac:(discriminate)) as [H3 H4].
    split; [exact H3|]. split; [exact H4|].
    unfold isOpen, QTcpSocket.isOpen in *. rewrite H1. simpl.
    rewrite opened_write. exact O.
  - intros rest P B N.
    destruct (@request_unterminated Q_OS_WIN st command reply rest O P B N)
      as [st' H].
    exists true, st'. exact H.
  - apply request_returns.
Qed.

Lemma timeout_empties_buffer_witness :
  let st := mkDriver (connected [brings (bs ":1"); brings (bs "2")]) [] 0 in
  (exists ret st',
      request false st [bs "GET"; bs "n"] []
      = Some (ret, [], st', ReadFailed)) /\
  (forall ret reply' st',
      request false st [bs "GET"; bs "n"] []
      = Some (ret, reply', st', ReadFailed) ->
      buffer st' = [] /\ pos st' = 0 /\ isOpen st' = true) /\
  (exists r, request false st [bs "GET"; bs "n"] [] = Some r).
Proof.
  intros st.
  destruct (@timeout_empties_buffer false st [bs "GET"; bs "n"] [] eq_refl)
    as (H1 & H2 & H3).
  split; [|split].
  - apply (H2 (bs "12")); [reflexivity|reflexivity|].
    vm_compute. intros C.
    repeat (destruct C as [C|C]; [discriminate|]). exact C.
  - exact H1.
  - apply H3. vm_compute. reflexivity.
Defined.

(** C3 as stated fails.  An integer line without terminator, then silence:
    [request] returns [true] with the reply list untouched, which is what it
    returns for the reply [+OK], and the three bytes received are no longer
    in the buffer. *)
Lemma timeout_counterexample :
  observe (request false (mkDriver (connected [brings (bs ":12")]) [] 0)
                   [bs "GET"; bs "n"] [])
  = Some (true, [], [], 0, ReadFailed) /\
  observe (request false
             (mkDriver (connected [brings (bs "+OK" ++ [CR; LF])]) [] 0)
             [bs "GET"; bs "n"] [])
  = Some (true, [], bs "+OK" ++ [CR; LF], 5, ParseDone).
Proof. split; vm_compute; reflexivity. Qed.

(** [request] remembers the cursor it is entered with and puts it back
    after every attempt that fails, although the buffer it is entered with
    is emptied.  After a first reply of five bytes, a reply in two pieces
    loses its first piece: the next read drops five bytes off the buffer. *)
Example stale_cursor_drops_bytes :
  observe (request false
             (mkDriver (connected [brings (bs ":1");
                                   brings (bs "2" ++ [CR; LF])]) [] 0)
             [bs "GET"; bs "n"] [])
  = Some (true, [VInt 12], bs ":12" ++ [CR; LF], 5, ParseDone) /\
  observe (request false
             (mkDriver (connected [brings (bs ":1");
                                   brings (bs "2" ++ [CR; LF])])
                       (bs "+OK" ++ [CR; LF]) 5)
             [bs "GET"; bs "n"] [])
  = Some (false, [], [], 0, InvalidProtocol).
Proof. split; vm_compute; reflexivity. Qed.

(** ** C8: server errors and protocol errors *)

(** C8, as the code has it.  When the first read of a request brings a
    complete error line, [request] returns [false] and leaves the reply
    list as it was, keeping the buffer with the cursor after the line.  When
    it brings a byte that is none of the five tags, [request] also returns
    [false] and leaves the reply list as it was, having emptied the buffer.
    What is returned is the same in both cases; only the buffer left behind
    (and the log) tell a server error from a protocol error. *)
Theorem server_error_returns_false (Q_OS_WIN : bool) (st : Driver)
        (command : list bytes) (reply : QVariantList) (st1 : Driver) :
  firstRead Q_OS_WIN st command = (true, st1) ->
  let tag := code (QByteArray.at_ (buffer st1) (pos st1)) in
  let idx := QByteArray.indexOf (buffer st1) (CRLF Q_OS_WIN) (pos st1) in
  (tag = Error -> 0 <= idx ->
   request Q_OS_WIN st command reply
   = Some (false, reply, setPos st1 (Int.add idx 2), ParseDone)) /\
  (tag <> Error -> tag <> SimpleString -> tag <> Integer ->
   tag <> BulkString -> tag <> Array ->
   request Q_OS_WIN st command reply
   = Some (false, reply, clearBuffer st1, InvalidProtocol)).
Proof.
  intros R tag idx. unfold firstRead in R.
  unfold request, request_fuel. cbn [requestLoop]. rewrite R.
  cbn [negb]. cbv zeta. fold tag. split.
  - intros T I. rewrite T. change (Error =? Error) with true. cbv iota.
    unfold getLine. fold idx.
    destruct (idx <? 0) eqn:L; [apply Z.ltb_lt in L; lia|]. reflexivity.
  - intros T1 T2 T3 T4 T5.
    apply Z.eqb_neq in T1, T2, T3, T4, T5.
    rewrite T1, T2, T3, T4, T5. reflexivity.
Qed.

Lemma server_error_returns_false_witness :
  let st := mkDriver (connected [brings (bs "-ERR bad" ++ [CR; LF])]) [] 0 in
  let st' := mkDriver (connected [brings (bs "!oops" ++ [CR; LF])]) [] 0 in
  observe (request false st [bs "GET"; bs "k"] [VInt 1])
  = Some (false, [VInt 1], bs "-ERR bad" ++ [CR; LF], 10, ParseDone) /\
  observe (request false st' [bs "GET"; bs "k"] [VInt 1])
  = Some (false, [VInt 1], [], 0, InvalidProtocol).
Proof.
  intros st st'. split.
  - destruct (@server_error_returns_false false st [bs "GET"; bs "k"]
                [VInt 1] (snd (firstRead false st [bs "GET"; bs "k"]))
                eq_refl) as [H _].
    rewrite H; [reflexivity|reflexivity|vm_compute; discriminate].
  - destruct (@server_error_returns_false false st' [bs "GET"; bs "k"]
                [VInt 1] (snd (firstRead false st' [bs "GET"; bs "k"]))
                eq_refl) as [_ H].
    rewrite H; [reflexivity|vm_compute; discriminate..].
Defined.

(** C8 as stated fails: what [request] returns for the server error
    [-ERR bad] and for the unexpected tag [!] is the same pair. *)
Lemma server_error_counterexample :
  let returned r :=
    match r with
    | Some (ret, reply, _, _) => Some (ret, reply)
    | None => None
    end in
  returned (request false
              (mkDriver (connected [brings (bs "-ERR bad" ++ [CR; LF])]) [] 0)
              [bs "GET"; bs "k"] [])
  = Some (false, @nil QVariant) /\
  returned (request false
              (mkDriver (connected [brings (bs "!oops" ++ [CR; LF])]) [] 0)
              [bs "GET"; bs "k"] [])
  = Some (false, @nil QVariant).
Proof. split; vm_compute; reflexivity. Qed.

(** ** C2 and C4: a bulk string cut short *)

(** When the payload and its terminator are in the buffer, the parse
    succeeds, its payload is the declared number of bytes that follow the
    length line, and the cursor goes after the terminator. *)
Lemma bulk_payload_complete (Q_OS_WIN : bool) (st : Driver) (len : Z)
      (st1 : Driver) :
  fits st ->
  getNumber Q_OS_WIN (setPos st (Int.add (pos st) 1)) = (len, true, st1) ->
  0 <= len ->
  pos st1 + len + 2 <= QByteArray.length (buffer st) ->
  let payload := firstn (Z.to_nat len) (skipn (Z.to_nat (pos st1)) (buffer st))
  in
  parseBulkString Q_OS_WIN st
  = (Some payload, true, setPos st1 (pos st1 + len + 2)) /\
  QByteArray.length payload = len.
Proof.
  intros F E L B payload.
  assert (fits (setPos st (Int.add (pos st) 1))) as F0 by exact F.
  pose proof (@getNumber_advanced Q_OS_WIN _ _ _ F0 E) as (_ & P & Hb & _).
  cbn [buffer setPos] in Hb.
  unfold fits in F. change (2 ^ 30) with 1073741824 in F.
  assert (forall z, 0 <= z <= 1073741824 -> Int.wrap z = z) as Small.
  { intros z Hz. apply wrap_small. unfold Int.min_int, Int.max_int.
    change (2 ^ 31) with 2147483648. lia. }
  split.
  - unfold parseBulkString. rewrite E.
    destruct (len <? -1) eqn:L1; [apply Z.ltb_lt in L1; lia|].
    destruct (len =? -1) eqn:L2; [apply Z.eqb_eq in L2; lia|].
    unfold Int.add. rewrite (Small (len + 2)) by lia.
    rewrite (Small (pos st1 + 2)), (Small (pos st1 + (len + 2))) by lia.
    rewrite Hb, Z.add_assoc.
    destruct (pos st1 + 2 <=? QByteArray.length (buffer st)) eqn:L3;
      [|apply Z.leb_gt in L3; lia].
    cbv iota. do 3 f_equal. subst payload.
    destruct (0 <? len) eqn:L4.
    + unfold QByteArray.mid.
      destruct (QByteArray.length (buffer st) <? pos st1) eqn:M1;
        [apply Z.ltb_lt in M1; lia|].
      destruct (len <? 0) eqn:M2; [apply Z.ltb_lt in M2; lia|].
      destruct (pos st1 <? 0) eqn:M3; [apply Z.ltb_lt in M3; lia|].
      destruct (QByteArray.length (buffer st) <? len + pos st1) eqn:M4;
        [apply Z.ltb_lt in M4; lia|].
      reflexivity.
    + apply Z.ltb_ge in L4. replace len with 0 by lia. reflexivity.
  - subst payload. unfold QByteArray.length in *.
    rewrite length_firstn, length_skipn. lia.
Qed.

(** C2 at the failing input.  The reply declares five payload bytes and the
    buffer holds two of them and no terminator: the parse reports success,
    returns the two bytes, and moves the cursor to 11 in a buffer of 6. *)
Theorem truncated_bulk_string_accepted :
  parseBulkString false (holding (bs "$5" ++ [CR; LF] ++ bs "he") 0)
  = (Some (bs "he"), true, holding (bs "$5" ++ [CR; LF] ++ bs "he") 11).
Proof. vm_compute. reflexivity. Qed.

(** With the five bytes and the terminator in the buffer the payload is the
    five bytes; with nothing after the length line the parse fails. *)
Example whole_bulk_string :
  parseBulkString false
    (holding (bs "$5" ++ [CR; LF] ++ bs "hello" ++ [CR; LF]) 0)
  = (Some (bs "hello"), true,
     holding (bs "$5" ++ [CR; LF] ++ bs "hello" ++ [CR; LF]) 11) /\
  parseBulkString false (holding (bs "$5" ++ [CR; LF] ++ bs "h") 0)
  = (None, false, holding (bs "$5" ++ [CR; LF] ++ bs "h") 0).
Proof. split; vm_compute; reflexivity. Qed.

(** Null and empty bulk strings are different values. *)
Example null_and_empty_bulk_string :
  fst (fst (parseBulkString false (holding (bs "$-1" ++ [CR; LF]) 0))) = None
  /\
  fst (fst (parseBulkString false
              (holding (bs "$0" ++ [CR; LF] ++ [CR; LF]) 0))) = Some [].
Proof. split; vm_compute; reflexivity. Qed.

(** [clearBuffer] establishes the invariant. *)
Lemma clearBuffer_invariant st : cursor_in_buffer (clearBuffer st).
Proof. unfold cursor_in_buffer. simpl. unfold QByteArray.length. simpl. lia. Qed.

(** Where the terminator is the two bytes CR LF, the line scan and the
    number scan keep the invariant of the cursor. *)
Lemma scans_keep_invariant st :
  fits st -> cursor_in_buffer st ->
  cursor_in_buffer (snd (getLine false st)) /\
  cursor_in_buffer (snd (getNumber false st)).
Proof.
  unfold fits, cursor_in_buffer. change (2 ^ 30) with 1073741824.
  intros F I.
  assert (0 <= QByteArray.indexOf (buffer st) (CRLF false) (pos st) ->
          0 <= Int.add (QByteArray.indexOf (buffer st) (CRLF false) (pos st)) 2
          <= QByteArray.length (buffer st)) as K.
  { intros H.
    pose proof (@indexOf_found (buffer st) (CRLF false) (pos st)
                  ltac:(lia)) as B.
    change (QByteArray.length (CRLF false)) with 2 in B.
    rewrite add_small
      by (unfold Int.min_int, Int.max_int;
          change (2 ^ 31) with 2147483648; lia).
    lia. }
  split.
  - unfold getLine. destruct (_ <? 0) eqn:L; [exact I|].
    apply Z.ltb_ge in L. apply K, L.
  - destruct (Z_lt_ge_dec
                (QByteArray.indexOf (buffer st) (CRLF false) (pos st)) 0)
      as [L|L].
    + rewrite getNumber_no_terminator by exact L. exact I.
    + rewrite getNumber_value by lia. apply K. lia.
Qed.

(** C4 at the failing input.  The invariant holds before the parse of a
    bulk string cut short and not after it: the parse succeeds on two of
    five bytes and the cursor is past the end of the buffer. *)
Theorem truncated_bulk_string_breaks_invariant :
  let st := holding (bs "$5" ++ [CR; LF] ++ bs "he") 0 in
  cursor_in_buffer st /\
  snd (fst (parseBulkString false st)) = true /\
  ~ cursor_in_buffer (snd (parseBulkString false st)).
Proof.
  intros st. split; [|split].
  - unfold cursor_in_buffer. vm_compute. split; discriminate.
  - vm_compute. reflexivity.
  - unfold cursor_in_buffer. vm_compute. intros [_ H]. apply H. reflexivity.
Qed.

(** Where [Q_OS_WIN] is defined the terminator is one byte and the scans
    still step over two: a number line that ends the buffer leaves the cursor
    one past its end. *)
Example one_byte_terminator_breaks_invariant :
  let st := holding (bs ":5" ++ [LF]) 1 in
  getNumber true st = (5, true, setPos st 4) /\
  ~ cursor_in_buffer (snd (getNumber true st)).
Proof.
  intros st. split; [vm_compute; reflexivity|].
  unfold cursor_in_buffer. vm_compute. intros [_ H]. apply H. reflexivity.
Qed.

(** * Further properties *)

(** ** Numbers printed and read back *)

Lemma uint_bytes_cons (u : Decimal.uint) :
  uint_bytes u =
  match u with
  | Decimal.Nil => []
  | Decimal.D0 d => "0"%byte :: uint_bytes d
  | Decimal.D1 d => "1"%byte :: uint_bytes d
  | Decimal.D2 d => "2"%byte :: uint_bytes d
  | Decimal.D3 d => "3"%byte :: uint_bytes d
  | Decimal.D4 d => "4"%byte :: uint_bytes d
  | Decimal.D5 d => "5"%byte :: uint_bytes d
  | Decimal.D6 d => "6"%byte :: uint_bytes d
  | Decimal.D7 d => "7"%byte :: uint_bytes d
  | Decimal.D8 d => "8"%byte :: uint_bytes d
  | Decimal.D9 d => "9"%byte :: uint_bytes d
  end.
Proof. destruct u; reflexivity. Qed.

(** Reading the digits of [u] after an accumulated [acc] is what the
    standard library's own reader computes. *)
Lemma decimalFrom_uint_acc (u : Decimal.uint) : forall acc : positive,
  decimalFrom (Z.pos acc) (uint_bytes u) = Z.pos (Pos.of_uint_acc u acc).
Proof.
  induction u; intros acc; rewrite uint_bytes_cons; [reflexivity|..];
    rewrite decimalFrom_cons; cbn [Pos.of_uint_acc]; rewrite <- IHu; f_equal;
    repeat match goal with
           | |- context [code ?d] =>
               let v := eval vm_compute in (code d) in change (code d) with v
           end;
    lia.
Qed.

Lemma decimalFrom_uint (u : Decimal.uint) :
  decimalFrom 0 (uint_bytes u) = Z.of_N (Pos.of_uint u).
Proof.
  induction u; rewrite uint_bytes_cons; [reflexivity|..];
    rewrite decimalFrom_cons; cbn [Pos.of_uint Z.of_N];
    [exact IHu|rewrite <- decimalFrom_uint_acc; reflexivity..].
Qed.

Lemma uint_bytes_digits (u : Decimal.uint) :
  Forall (fun d => isDigit d = true) (uint_bytes u).
Proof.
  induction u; rewrite uint_bytes_cons; constructor; auto.
Qed.

Lemma digitRun_app (ds : bytes) (c : byte) (rest : bytes) :
  Forall (fun d => isDigit d = true) ds ->
  isDigit c = false ->
  digitRun (ds ++ c :: rest) = ds.
Proof.
  intros F C. induction F as [|d ds D F IH]; simpl.
  - rewrite C. reflexivity.
  - rewrite D, IH. reflexivity.
Qed.

(** What [QByteArray::number] prints: the digits, after a [-] below zero. *)
Lemma number_bytes (n : Z) :
  exists u : Decimal.uint,
    u <> Decimal.Nil /\
    Z.of_N (Pos.of_uint u) = Z.abs n /\
    QByteArray.number n
    = if n <? 0 then "-"%byte :: uint_bytes u else uint_bytes u.
Proof.
  unfold QByteArray.number. pose proof (DecimalZ.of_to n) as R.
  assert (forall p, Pos.to_uint p <> Decimal.Nil) as NN.
  { intros p E. pose proof (DecimalPos.Unsigned.of_to p) as T.
    rewrite E in T. discriminate. }
  destruct n as [|p|p]; cbn [Z.to_int] in *.
  - exists (Decimal.D0 Decimal.Nil). repeat split. discriminate.
  - exists (Pos.to_uint p). split; [apply NN|]. split.
    + cbn [Z.of_int] in R. unfold Z.of_uint in R. exact R.
    + cbn [Z.ltb Z.compare NilZero.string_of_int].
      unfold NilZero.string_of_uint, uint_bytes.
      destruct (Pos.to_uint p) eqn:E; try reflexivity.
      exfalso. apply (NN p E).
  - exists (Pos.to_uint p). split; [apply NN|]. split.
    + cbn [Z.of_int] in R. unfold Z.of_uint in R. cbn [Z.abs]. lia.
    + cbn [Z.ltb Z.compare NilZero.string_of_int].
      unfold NilZero.string_of_uint, uint_bytes.
      destruct (Pos.to_uint p) eqn:E; try reflexivity.
      exfalso. apply (NN p E).
Qed.

(** A printed number followed by a byte that is not a digit reads back as
    the number. *)
Lemma signedDecimal_number (n : Z) (c : byte) (rest : bytes) :
  isDigit c = false ->
  signedDecimal (QByteArray.number n ++ c :: rest) = n.
Proof.
  intros C. destruct (number_bytes n) as (u & NN & V & ->).
  pose proof (uint_bytes_digits u) as D.
  destruct (n <? 0) eqn:S.
  - apply Z.ltb_lt in S. cbn [app signedDecimal].
    change (code "-" =? code "-") with true. cbv iota.
    rewrite digitRun_app by assumption.
    unfold decimal. rewrite decimalFrom_uint. lia.
  - apply Z.ltb_ge in S.
    destruct (uint_bytes u) as [|d ds] eqn:E.
    { destruct u; try (elim NN; reflexivity);
        rewrite uint_bytes_cons in E; discriminate. }
    cbn [app signedDecimal].
    assert (isDigit d = true) as Dd by (inversion D; assumption).
    destruct (code d =? code "-") eqn:M.
    { exfalso. apply Z.eqb_eq in M. unfold isDigit in Dd.
      apply andb_true_iff in Dd. destruct Dd as [D1 _].
      apply Z.leb_le in D1. rewrite M in D1. vm_compute in D1.
      apply D1. reflexivity. }
    change (d :: ds ++ c :: rest) with ((d :: ds) ++ c :: rest).
    rewrite digitRun_app by assumption.
    unfold decimal. rewrite <- E, decimalFrom_uint. lia.
Qed.

(** ** Where a line ends *)

Lemma startsWith_other (Q_OS_WIN : bool) (c : byte) (hay : bytes) :
  c <> CR -> c <> LF ->
  QByteArray.startsWith (CRLF Q_OS_WIN) (c :: hay) = false.
Proof.
  intros H1 H2. destruct Q_OS_WIN; simpl.
  - destruct (Byte.eqb LF c) eqn:E; [|reflexivity].
    apply Byte.byte_dec_bl in E. congruence.
  - destruct (Byte.eqb CR c) eqn:E; [|reflexivity].
    apply Byte.byte_dec_bl in E. congruence.
Qed.

Lemma startsWith_self (Q_OS_WIN : bool) (tail : bytes) :
  QByteArray.startsWith (CRLF Q_OS_WIN) (CRLF Q_OS_WIN ++ tail) = true.
Proof. destruct Q_OS_WIN; reflexivity. Qed.

Lemma search_line (Q_OS_WIN : bool) (body tail : bytes) : forall i,
  plain body ->
  QByteArray.search (CRLF Q_OS_WIN) (body ++ CRLF Q_OS_WIN ++ tail) i
  = i + QByteArray.length body.
Proof.
  unfold QByteArray.length.
  induction body as [|c body IH]; intros i P.
  - cbn [app]. destruct Q_OS_WIN; simpl; lia.
  - inversion P as [|? ? [P1 P2] P']; subst.
    cbn [app QByteArray.search]. rewrite startsWith_other by assumption.
    rewrite IH by assumption. cbn [List.length]. lia.
Qed.

(** In a buffer that holds, from index [length pre] on, a line without CR
    or LF and then the terminator, the terminator is found at the end of
    the line. *)
Lemma indexOf_line (Q_OS_WIN : bool) (pre body tail : bytes) :
  plain body ->
  QByteArray.indexOf (pre ++ body ++ CRLF Q_OS_WIN ++ tail) (CRLF Q_OS_WIN)
                     (QByteArray.length pre)
  = QByteArray.length pre + QByteArray.length body.
Proof.
  intros P. unfold QByteArray.indexOf.
  pose proof (length_nonneg pre) as N.
  destruct (QByteArray.length pre <? 0) eqn:E; [apply Z.ltb_lt in E; lia|].
  unfold QByteArray.length at 1. rewrite Nat2Z.id.
  rewrite skipn_app, skipn_all, Nat.sub_diag. cbn [app skipn].
  apply search_line, P.
Qed.

Lemma readFrom_app (pre tail : bytes) :
  readFrom (pre ++ tail) (QByteArray.length pre) = tail.
Proof.
  unfold readFrom. pose proof (length_nonneg pre) as N.
  destruct (QByteArray.length pre <? 0) eqn:E; [apply Z.ltb_lt in E; lia|].
  unfold QByteArray.length. rewrite Nat2Z.id.
  rewrite skipn_app, skipn_all, Nat.sub_diag. reflexivity.
Qed.

Lemma digit_plain (d : byte) : isDigit d = true -> d <> CR /\ d <> LF.
Proof. intros H; split; intros ->; vm_compute in H; discriminate. Qed.

Lemma number_plain (n : Z) : plain (QByteArray.number n).
Proof.
  destruct (number_bytes n) as (u & _ & _ & ->).
  assert (plain (uint_bytes u)) as P.
  { pose proof (uint_bytes_digits u) as D. unfold plain.
    induction D; constructor; auto using digit_plain. }
  destruct (n <? 0); [constructor; [split; discriminate|]|]; exact P.
Qed.

Lemma terminator_head (Q_OS_WIN : bool) (tail : bytes) :
  exists c rest, CRLF Q_OS_WIN ++ tail = c :: rest /\ isDigit c = false.
Proof.
  destruct Q_OS_WIN; simpl; eexists _, _; split; reflexivity.
Qed.

(** The number scan on a printed number. *)
Lemma getNumber_number (Q_OS_WIN : bool) (pre : bytes) (n : Z)
      (tail : bytes) (st : Driver) :
  Int.min_int <= n <= Int.max_int ->
  buffer st = pre ++ QByteArray.number n ++ CRLF Q_OS_WIN ++ tail ->
  pos st = QByteArray.length pre ->
  getNumber Q_OS_WIN st
  = (n, true,
     setPos st
       (Int.add (pos st + QByteArray.length (QByteArray.number n)) 2)).
Proof.
  intros R B P.
  assert (QByteArray.indexOf (buffer st) (CRLF Q_OS_WIN) (pos st)
          = pos st + QByteArray.length (QByteArray.number n)) as I.
  { rewrite B, P. apply indexOf_line, number_plain. }
  rewrite getNumber_value
    by (rewrite I, P; pose proof (length_nonneg pre);
        pose proof (length_nonneg (QByteArray.number n)); lia).
  rewrite I. do 3 f_equal.
  rewrite B, P, readFrom_app.
  destruct (terminator_head Q_OS_WIN tail) as (c & rest & -> & C).
  rewrite signedDecimal_number by exact C.
  apply wrap_small, R.
Qed.

(** ** Replies read back *)

Lemma weight_VList l : weight (VList l) = (2 + weights l)%nat.
Proof. reflexivity. Qed.

Lemma readable_VList l :
  readable_value (VList l) <-> l <> [] /\ readable_values l.
Proof.
  cbn [readable_value]. unfold readable_values.
  assert ((fix all (l : list QVariant) : Prop :=
             match l with
             | [] => True
             | x :: l' => readable_value x /\ all l'
             end) l <-> Forall readable_value l) as E.
  { induction l as [|x l IH]; split; intros H.
    - constructor.
    - exact I.
    - destruct H as [H1 H2]. constructor; [exact H1|]. apply IH, H2.
    - inversion H; subst. split; [assumption|]. apply IH. assumption. }
  rewrite E. reflexivity.
Qed.

Lemma wire_VList l :
  wire (VList l)
  = bs "*" ++ QByteArray.number (Z.of_nat (List.length l)) ++ [CR; LF]
    ++ wires l.
Proof. reflexivity. Qed.

Lemma wires_cons x l : wires (x :: l) = wire x ++ wires l.
Proof. reflexivity. Qed.

Lemma number_nonempty n : (1 <= List.length (QByteArray.number n))%nat.
Proof.
  destruct (number_bytes n) as (u & NN & _ & ->).
  destruct (n <? 0); [simpl; lia|].
  destruct u; try (elim NN; reflexivity); rewrite uint_bytes_cons; simpl; lia.
Qed.

Lemma weight_In x l : In x l -> (weight x <= weights l)%nat.
Proof.
  induction l as [|y l IH]; intros H; [contradiction|].
  cbn [weights fold_right]. fold (weights l).
  destruct H as [->|H]; [lia|]. specialize (IH H). lia.
Qed.

Lemma weights_wires l :
  (forall x, In x l -> (weight x <= List.length (wire x))%nat) ->
  (weights l <= List.length (wires l))%nat.
Proof.
  induction l as [|y l IH]; intros H; [simpl; lia|].
  rewrite wires_cons, length_app. cbn [weights fold_right]. fold (weights l).
  pose proof (H y (or_introl eq_refl)).
  assert (weights l <= List.length (wires l))%nat
    by (apply IH; intros x Hx; apply H; right; exact Hx).
  lia.
Qed.

(** A reply is at least as long as the fuel its value asks for. *)
Lemma weight_wire n : forall v,
  (weight v <= n)%nat -> (weight v <= List.length (wire v))%nat.
Proof.
  induction n as [|n IH]; intros v W.
  - destruct v; cbn [weight] in W; lia.
  - destruct v as [k|[d|]|l].
    + cbn [weight wire]. rewrite !length_app. simpl. lia.
    + cbn [weight wire]. rewrite !length_app. simpl. lia.
    + cbn [weight wire]. rewrite !length_app. simpl. lia.
    + rewrite weight_VList in *. rewrite wire_VList, !length_app.
      pose proof (number_nonempty (Z.of_nat (List.length l))).
      assert (weights l <= List.length (wires l))%nat; [|simpl; lia].
      apply weights_wires. intros x Hx. apply IH.
      apply weight_In in Hx. lia.
Qed.

Lemma weight_pos v : (1 <= weight v)%nat.
Proof. destruct v; cbn [weight]; lia. Qed.

Lemma elements_wires l : (List.length l <= List.length (wires l))%nat.
Proof.
  induction l as [|x l IH]; [simpl; lia|].
  rewrite wires_cons, length_app. cbn [List.length].
  pose proof (@weight_wire (weight x) x (Nat.le_refl _)).
  pose proof (weight_pos x). lia.
Qed.

Lemma at_app (pre : bytes) (c : byte) (tail : bytes) :
  QByteArray.at_ (pre ++ c :: tail) (QByteArray.length pre) = c.
Proof.
  unfold QByteArray.at_. pose proof (length_nonneg pre) as N.
  destruct (QByteArray.length pre <? 0) eqn:E; [apply Z.ltb_lt in E; lia|].
  unfold QByteArray.length. rewrite Nat2Z.id, app_nth2, Nat.sub_diag by lia.
  reflexivity.
Qed.

Lemma skipn_exact (pre tail : bytes) (p : Z) :
  p = QByteArray.length pre -> skipn (Z.to_nat p) (pre ++ tail) = tail.
Proof.
  intros ->. unfold QByteArray.length. rewrite Nat2Z.id.
  rewrite skipn_app, skipn_all, Nat.sub_diag. reflexivity.
Qed.

Lemma firstn_exact (d tail : bytes) (n : Z) :
  n = QByteArray.length d -> firstn (Z.to_nat n) (d ++ tail) = d.
Proof.
  intros ->. unfold QByteArray.length. rewrite Nat2Z.id.
  rewrite firstn_app, firstn_all, Nat.sub_diag. simpl. apply app_nil_r.
Qed.

Lemma small_int z : 0 <= z <= 2 ^ 30 + 4 -> Int.wrap z = z.
Proof.
  change (2 ^ 30) with 1073741824. intros H. apply wrap_small.
  unfold Int.min_int, Int.max_int. change (2 ^ 31) with 2147483648. lia.
Qed.

Lemma setPos_setPos st p q : setPos (setPos st p) q = setPos st q.
Proof. reflexivity. Qed.

Ltac lengths :=
  unfold fits, QByteArray.length in *;
  change (2 ^ 30) with 1073741824 in *;
  change (CRLF false) with [CR; LF] in *;
  repeat rewrite ?length_app, ?length_cons in *;
  repeat match goal with
         | H : context [List.length (bs ?s)] |- _ =>
             let v := eval vm_compute in (List.length (bs s)) in
             change (List.length (bs s)) with v in H
         | |- context [List.length (bs ?s)] =>
             let v := eval vm_compute in (List.length (bs s)) in
             change (List.length (bs s)) with v
         end;
  cbn [List.length] in *.

(** An integer element, as the array loop and [request] read it: the tag
    is stepped over, then the number is scanned. *)
Lemma integer_element (pre : bytes) (n : Z) (tail : bytes) (st : Driver) :
  Int.min_int <= n <= Int.max_int ->
  buffer st = pre ++ wire (VInt n) ++ tail ->
  pos st = QByteArray.length pre ->
  fits st ->
  getNumber false (setPos st (Int.add (pos st) 1))
  = (n, true, setPos st (pos st + QByteArray.length (wire (VInt n)))).
Proof.
  intros R B P F. cbn [wire] in *.
  assert (0 <= pos st /\
          pos st + QByteArray.length (QByteArray.number n) + 3
          <= QByteArray.length (buffer st) < 1073741824) as (P0 & P1 & P2).
  { pose proof F as F2. unfold fits in F2. rewrite B in F2.
    rewrite B, P. lengths. simpl. lia. }
  pose proof (length_nonneg (QByteArray.number n)) as P3.
  rewrite (@getNumber_number false (pre ++ bs ":") n tail).
  - cbn [pos setPos]. rewrite setPos_setPos. f_equal. f_equal.
    unfold Int.add. rewrite (@small_int (pos st + 1)) by
        (change (2 ^ 30) with 1073741824; lia).
    rewrite small_int by (change (2 ^ 30) with 1073741824; lia).
    lengths. simpl. lia.
  - exact R.
  - cbn [buffer setPos]. rewrite B. rewrite <- !app_assoc. reflexivity.
  - cbn [pos setPos]. unfold Int.add.
    rewrite small_int by (change (2 ^ 30) with 1073741824; lia).
    rewrite P. lengths. simpl. lia.
Qed.

(** A bulk string, null or not, read back by [parseBulkString]. *)
Lemma bulk_element (pre : bytes) (s : option bytes) (tail : bytes)
      (st : Driver) :
  buffer st = pre ++ wire (VByteArray s) ++ tail ->
  pos st = QByteArray.length pre ->
  fits st ->
  parseBulkString false st
  = (s, true, setPos st (pos st + QByteArray.length (wire (VByteArray s)))).
Proof.
  intros B P F.
  set (len := match s with Some d => QByteArray.length d | None => -1 end).
  set (after := match s with Some d => d ++ [CR; LF] ++ tail | None => tail end).
  assert (buffer st
          = (pre ++ bs "$") ++ QByteArray.number len ++ CRLF false ++ after)
    as B'.
  { rewrite B. subst len after. destruct s; cbn [wire CRLF];
      rewrite <- !app_assoc; reflexivity. }
  assert (0 <= pos st /\
          pos st + QByteArray.length (QByteArray.number len) + 3
          <= QByteArray.length (buffer st) < 1073741824) as (P0 & P1 & P2).
  { pose proof F as F2. unfold fits in F2. rewrite B' in F2.
    rewrite B', P. lengths. simpl. lia. }
  pose proof (length_nonneg (QByteArray.number len)) as P3.
  assert (Int.min_int <= len <= Int.max_int) as R.
  { unfold Int.min_int, Int.max_int. change (2 ^ 31) with 2147483648.
    subst len. destruct s; [|lia]. rewrite B in P2. cbn [wire] in P2.
    lengths. lia. }
  assert (Int.add (pos st) 1 = pos st + 1) as A1
    by (unfold Int.add; apply small_int;
        change (2 ^ 30) with 1073741824; lia).
  pose proof (@getNumber_number false (pre ++ bs "$") len after
                (setPos st (Int.add (pos st) 1)) R B') as G.
  cbn [pos setPos] in G. rewrite A1 in G.
  specialize (G ltac:(rewrite P; lengths; simpl; lia)).
  rewrite setPos_setPos in G.
  assert (Int.add (pos st + 1 + QByteArray.length (QByteArray.number len)) 2
          = pos st + QByteArray.length (QByteArray.number len) + 3) as A2.
  { unfold Int.add. rewrite small_int by
        (change (2 ^ 30) with 1073741824; lia). lia. }
  rewrite A2 in G.
  destruct s as [d|].
  - (* a string of [length d] bytes *)
    assert (fits st) as F' by exact F.
    pose proof (@bulk_payload_complete false st len
                  (setPos st (pos st + QByteArray.length
                                         (QByteArray.number len) + 3))
                  F') as C.
    rewrite A1 in C. specialize (C G (length_nonneg d)).
    cbn [pos setPos buffer] in C.
    assert (QByteArray.length (wire (VByteArray (Some d)))
            = QByteArray.length (QByteArray.number len) + 3 + len + 2) as W.
    { subst len. cbn [wire]. lengths. simpl. lia. }
    specialize (C ltac:(rewrite B; rewrite B in P1; subst len;
                        cbn [wire] in *; lengths; simpl; lia)).
    cbv zeta in C. destruct C as [C _]. rewrite C. f_equal; [f_equal|].
    + f_equal. rewrite B'.
      replace ((pre ++ bs "$") ++ QByteArray.number len ++ CRLF false ++ after)
        with (((pre ++ bs "$") ++ QByteArray.number len ++ CRLF false)
                ++ after) by (rewrite <- !app_assoc; reflexivity).
      rewrite skipn_exact by (rewrite P; lengths; simpl; lia).
      subst after. apply firstn_exact. reflexivity.
    + rewrite setPos_setPos. f_equal. rewrite W. lia.
  - (* the null string *)
    unfold parseBulkString. rewrite A1, G. subst len.
    change (-1 <? -1) with false. change (-1 =? -1) with true. cbv iota.
    f_equal. f_equal.
    cbn [wire]. lengths. lia.
Qed.

Ltac same_bytes :=
  repeat (progress (rewrite <- ?app_assoc; cbn [app]));
  reflexivity.

(** The line that declares a count or a length, read after its tag. *)
Lemma counted_line (pre : bytes) (c : byte) (n : Z) (tail : bytes)
      (st : Driver) :
  Int.min_int <= n <= Int.max_int ->
  buffer st = pre ++ c :: QByteArray.number n ++ [CR; LF] ++ tail ->
  pos st = QByteArray.length pre ->
  fits st ->
  getNumber false (setPos st (Int.add (pos st) 1))
  = (n, true,
     setPos st (pos st + QByteArray.length (QByteArray.number n) + 3)).
Proof.
  intros R B P F.
  assert (0 <= pos st /\
          pos st + QByteArray.length (QByteArray.number n) + 3
          <= QByteArray.length (buffer st) < 1073741824) as (P0 & P1 & P2).
  { pose proof F as F2. unfold fits in F2. rewrite B in F2.
    rewrite B, P. lengths. lia. }
  pose proof (length_nonneg (QByteArray.number n)) as P3.
  assert (Int.add (pos st) 1 = pos st + 1) as A1
    by (unfold Int.add; apply small_int;
        change (2 ^ 30) with 1073741824; lia).
  rewrite A1.
  rewrite (@getNumber_number false (pre ++ [c]) n tail).
  - cbn [pos setPos]. rewrite setPos_setPos. f_equal. f_equal.
    unfold Int.add. rewrite small_int by
        (change (2 ^ 30) with 1073741824; lia).
    lia.
  - exact R.
  - cbn [buffer setPos]. rewrite B. rewrite <- !app_assoc. reflexivity.
  - cbn [pos setPos]. rewrite P. lengths. lia.
Qed.

Lemma wire_head (x : QVariant) :
  exists c rest,
    wire x = c :: rest /\
    code c = match x with
             | VInt _ => Integer
             | VByteArray _ => BulkString
             | VList _ => Array
             end.
Proof.
  destruct x as [k|[d|]|l]; cbn [wire];
    eexists _, _; (split; [reflexivity|reflexivity]).
Qed.

(** The array parser reads back the reply of every readable array, at any
    depth, with fuel for the weight of its elements. *)
Lemma read_back n :
  (forall l pre tail st fuel,
      (weights l + 2 <= n)%nat -> l <> [] -> readable_values l ->
      buffer st = pre ++ wire (VList l) ++ tail ->
      pos st = QByteArray.length pre -> fits st ->
      (weights l + 2 <= fuel)%nat ->
      parseArray_rec false fuel st
      = Some (l, true,
              setPos st (pos st + QByteArray.length (wire (VList l))))) /\
  (forall l acc pre tail st fuel count,
      (weights l + 1 <= n)%nat -> l <> [] -> readable_values l ->
      buffer st = pre ++ wires l ++ tail ->
      pos st = QByteArray.length pre -> fits st ->
      count = Z.of_nat (List.length acc + List.length l) ->
      (weights l + 1 <= fuel)%nat ->
      arrayLoop false fuel count acc true st
      = Some (acc ++ l, true,
              setPos st (pos st + QByteArray.length (wires l)))).
Proof.
  induction n as [|n [IHA IHL]]; [split; intros; lia|].
  split.
  - (* an array: its count, then its elements *)
    intros l pre tail st fuel W NE R B P F Fu.
    destruct fuel as [|f]; [lia|]. cbn [parseArray_rec].
    assert (buffer st
            = pre ++ "*"%byte
                  :: QByteArray.number (Z.of_nat (List.length l))
                  ++ [CR; LF] ++ (wires l ++ tail)) as B1
      by (rewrite B, wire_VList; same_bytes).
    assert (QByteArray.length (buffer st) < 1073741824) as F2 by exact F.
    pose proof (elements_wires l) as EW.
    assert (Int.min_int <= Z.of_nat (List.length l) <= Int.max_int) as RC.
    { unfold Int.min_int, Int.max_int. change (2 ^ 31) with 2147483648.
      rewrite B1 in F2. lengths. lia. }
    rewrite (@counted_line pre "*"%byte _ (wires l ++ tail) st RC B1 P F).
    set (st1 := setPos st _).
    rewrite (IHL l [] (pre ++ "*"%byte
                           :: QByteArray.number (Z.of_nat (List.length l))
                           ++ [CR; LF]) tail st1 f (Z.of_nat (List.length l)));
      try assumption; try lia.
    + cbn [app]. f_equal. f_equal. subst st1. rewrite setPos_setPos.
      cbn [pos setPos]. f_equal. rewrite wire_VList. lengths. lia.
    + subst st1. cbn [buffer setPos]. rewrite B1. same_bytes.
    + subst st1. cbn [pos setPos]. rewrite P. lengths. lia.
    + reflexivity.
  - (* the elements, the first then the others *)
    intros l acc pre tail st fuel count W NE R B P F C Fu.
    destruct l as [|x l']; [congruence|]. destruct fuel as [|f]; [lia|].
    inversion R as [|? ? Rx Rl']; subst.
    cbn [weights fold_right] in W, Fu. fold (weights l') in W, Fu.
    pose proof (weight_pos x) as Wx.
    assert (buffer st = pre ++ wire x ++ (wires l' ++ tail)) as B1
      by (rewrite B, wires_cons; same_bytes).
    cbn [arrayLoop negb].
    destruct (wire_head x) as (c & wrest & Hw & Hc).
    assert (QByteArray.at_ (buffer st) (pos st) = c) as Tg.
    { rewrite B1, P, Hw. cbn [app]. apply at_app. }
    rewrite Tg, Hc.
    (* what follows the element *)
    assert (forall st1,
               st1 = setPos st (pos st + QByteArray.length (wire x)) ->
               (if Z.of_nat (List.length (acc ++ [x]))
                   >=? Z.of_nat (List.length acc + List.length (x :: l'))
                then Some (acc ++ [x], true, st1)
                else arrayLoop false f
                       (Z.of_nat (List.length acc + List.length (x :: l')))
                       (acc ++ [x]) true st1)
               = Some (acc ++ x :: l', true,
                       setPos st (pos st
                                  + QByteArray.length (wires (x :: l')))))
      as Tail.
    { intros st1 ->. rewrite length_app. cbn [List.length].
      destruct (_ >=? _) eqn:G; rewrite Z.geb_leb in G;
        [apply Z.leb_le in G|apply Z.leb_gt in G].
      - destruct l' as [|y l'']; [|cbn [List.length] in G; lia].
        do 4 f_equal. unfold wires. cbn [map List.concat].
        rewrite app_nil_r. reflexivity.
      - destruct l' as [|y l'']; [cbn [List.length] in G; lia|].
        rewrite (IHL (y :: l'') (acc ++ [x]) (pre ++ wire x) tail);
          try assumption; try lia; try discriminate.
        + rewrite <- app_assoc. cbn [app]. f_equal. f_equal.
          rewrite setPos_setPos. cbn [pos setPos]. f_equal.
          rewrite (wires_cons x). lengths. lia.
        + cbn [buffer setPos]. rewrite B1. same_bytes.
        + cbn [pos setPos]. rewrite P. lengths. lia.
        + rewrite length_app. cbn [List.length]. lia. }
    destruct x as [k|s|lx].
    + (* an integer *)
      change (Integer =? BulkString) with false.
      change (Integer =? Integer) with true. cbv iota.
      rewrite (@integer_element pre k (wires l' ++ tail) st)
        by assumption.
      apply Tail. reflexivity.
    + (* a bulk string *)
      change (BulkString =? BulkString) with true. cbv iota.
      rewrite (@bulk_element pre s (wires l' ++ tail) st) by assumption.
      apply Tail. reflexivity.
    + (* an array *)
      change (Array =? BulkString) with false.
      change (Array =? Integer) with false.
      change (Array =? Array) with true. cbv iota.
      apply readable_VList in Rx. destruct Rx as [NEx Rlx].
      rewrite weight_VList in *.
      rewrite (IHA lx pre (wires l' ++ tail) st f);
        try assumption; try lia.
      apply Tail. reflexivity.
Qed.

Lemma parseArray_wire (l : list QVariant) (pre tail : bytes) (st : Driver) :
  l <> [] -> readable_values l ->
  buffer st = pre ++ wire (VList l) ++ tail ->
  pos st = QByteArray.length pre ->
  fits st ->
  parseArray false st
  = Some (l, true, setPos st (pos st + QByteArray.length (wire (VList l)))).
Proof.
  intros NE R B P F. unfold parseArray.
  destruct (read_back (weights l + 2)) as [A _].
  apply (A l pre tail st (array_fuel st)); try assumption; try lia.
  pose proof (@weight_wire (weight (VList l)) (VList l) (Nat.le_refl _)) as W.
  rewrite weight_VList in W. unfold array_fuel. rewrite B, !length_app. lia.
Qed.

Lemma toBulk_wire (d : bytes) : toBulk false d = wire (VByteArray (Some d)).
Proof. unfold toBulk. cbn [wire CRLF]. same_bytes. Qed.

Lemma toMultiBulk_wire (args : list bytes) :
  toMultiBulk false args = wire (VList (map asBulk args)).
Proof.
  rewrite toMultiBulk_frame, wire_VList. unfold frame, wires.
  rewrite length_map, map_map. reflexivity.
Qed.

Lemma asBulk_readable (args : list bytes) :
  readable_values (map asBulk args).
Proof.
  induction args; constructor; [exact I|assumption].
Qed.

(** X1.  The number scan reads back what [QByteArray::number] prints: for
    every [int] [n], the lowest one included, and on every build target, a
    buffer that holds the decimal text of [n] and the terminator at the
    cursor gives [n], with success and the cursor two bytes after the start
    of the terminator. *)
Theorem number_read_back (Q_OS_WIN : bool) (pre : bytes) (n : Z)
        (tail : bytes) (st : Driver) :
  Int.min_int <= n <= Int.max_int ->
  buffer st = pre ++ QByteArray.number n ++ CRLF Q_OS_WIN ++ tail ->
  pos st = QByteArray.length pre ->
  getNumber Q_OS_WIN st
  = (n, true,
     setPos st
       (Int.add (pos st + QByteArray.length (QByteArray.number n)) 2)).
Proof. apply getNumber_number. Qed.

Lemma number_read_back_witness :
  getNumber false (holding (bs ":" ++ bs "-2147483648" ++ [CR; LF]) 1)
  = (-2147483648, true,
     holding (bs ":" ++ bs "-2147483648" ++ [CR; LF]) 14).
Proof.
  apply (@number_read_back false (bs ":") (-2147483648) []
           (holding (bs ":" ++ bs "-2147483648" ++ [CR; LF]) 1)).
  - vm_compute. split; discriminate.
  - reflexivity.
  - reflexivity.
Defined.

(** X2.  Where the terminator is CR LF, [parseBulkString] inverts
    [toBulk]: a buffer of a size Qt allows that holds, at the cursor, the
    encoding of any byte string [d] (the empty one included) gives back [d]
    itself, not null, with success, and the cursor goes to the end of the
    encoding. *)
Theorem bulk_string_round_trip (pre d tail : bytes) (st : Driver) :
  buffer st = pre ++ toBulk false d ++ tail ->
  pos st = QByteArray.length pre ->
  fits st ->
  parseBulkString false st
  = (Some d, true,
     setPos st (pos st + QByteArray.length (toBulk false d))).
Proof.
  rewrite toBulk_wire. apply bulk_element.
Qed.

Lemma bulk_string_round_trip_witness :
  parseBulkString false
    (holding (bs "+OK" ++ toBulk false (bs "a b") ++ bs "rest") 3)
  = (Some (bs "a b"), true,
     holding (bs "+OK" ++ toBulk false (bs "a b") ++ bs "rest") 12).
Proof.
  apply (@bulk_string_round_trip (bs "+OK") (bs "a b") (bs "rest")
           (holding (bs "+OK" ++ toBulk false (bs "a b") ++ bs "rest") 3)).
  - reflexivity.
  - reflexivity.
  - unfold fits. vm_compute. reflexivity.
Defined.

(** X3.  Where the terminator is CR LF, [parseArray] reads back the reply of
    every array that is not empty and whose elements are integers that fit
    an [int], bulk strings (null, empty or not) and arrays of the same kind,
    to any depth: the list returned is the list of elements, with success,
    and the cursor goes to the end of the reply. *)
Theorem array_reply_read_back (l : list QVariant) (pre tail : bytes)
        (st : Driver) :
  l <> [] -> readable_values l ->
  buffer st = pre ++ wire (VList l) ++ tail ->
  pos st = QByteArray.length pre ->
  fits st ->
  parseArray false st
  = Some (l, true, setPos st (pos st + QByteArray.length (wire (VList l)))).
Proof. apply parseArray_wire. Qed.

Lemma array_reply_read_back_witness :
  let l := [VByteArray (Some (bs "a")); VList [VInt 7; VByteArray None];
            VInt (-3); VByteArray (Some [])] in
  parseArray false (holding (wire (VList l) ++ bs "+OK") 0)
  = Some (l, true, holding (wire (VList l) ++ bs "+OK") 35).
Proof.
  intros l.
  apply (@array_reply_read_back l [] (bs "+OK")
           (holding (wire (VList l) ++ bs "+OK") 0)).
  - discriminate.
  - repeat constructor; try discriminate; vm_compute; discriminate.
  - reflexivity.
  - reflexivity.
  - unfold fits. vm_compute. reflexivity.
Defined.

(** X4.  Where the terminator is CR LF, a command of at least one argument
    encoded by [toMultiBulk] is read back by [parseArray] as the list of
    its arguments, each a bulk string, in order. *)
Theorem command_round_trip (args : list bytes) (tail : bytes) (st : Driver) :
  args <> [] ->
  buffer st = toMultiBulk false args ++ tail ->
  pos st = 0 ->
  fits st ->
  parseArray false st
  = Some (map asBulk args, true,
          setPos st (QByteArray.length (toMultiBulk false args))).
Proof.
  intros NE B P F. rewrite toMultiBulk_wire in *.
  rewrite (@parseArray_wire (map asBulk args) [] tail st).
  - rewrite P. reflexivity.
  - destruct args; [congruence|discriminate].
  - apply asBulk_readable.
  - exact B.
  - exact P.
  - exact F.
Qed.

Lemma command_round_trip_witness :
  parseArray false (holding (toMultiBulk false [bs "SET"; bs "k"; []]) 0)
  = Some ([VByteArray (Some (bs "SET")); VByteArray (Some (bs "k"));
           VByteArray (Some [])], true,
          holding (toMultiBulk false [bs "SET"; bs "k"; []]) 26).
Proof.
  apply (@command_round_trip [bs "SET"; bs "k"; []] []
           (holding (toMultiBulk false [bs "SET"; bs "k"; []]) 0)).
  - discriminate.
  - vm_compute. reflexivity.
  - reflexivity.
  - unfold fits. vm_compute. reflexivity.
Defined.

(** ** Requests and what they read *)

Lemma readLoop_done evs start len s buf :
  QByteArray.length buf <> len -> readLoop evs start len s buf = (s, buf).
Proof.
  intros H. apply Z.eqb_neq in H. destruct evs; cbn [readLoop]; rewrite H;
    reflexivity.
Qed.

(** A read when the event loop brings some bytes at its first turn: they
    are appended to the buffer and that turn alone is used. *)
Lemma readReply_one_event (st : Driver) (e : Poll) (evs : list Poll) :
  isOpen st = true ->
  pos st = 0 ->
  QTcpSocket.readable (redis st) = [] ->
  QTcpSocket.events (redis st) = e :: evs ->
  incoming e <> [] ->
  readReply st
  = (true,
     mkDriver (snd (QTcpSocket.readAll
                      (QTcpSocket.deliver e (redis st) evs)))
              (buffer st ++ incoming e) 0).
Proof.
  intros O P R E I. unfold readReply. rewrite O, P. cbn [negb Z.gtb Z.compare].
  rewrite E. cbn [readLoop]. rewrite Z.eqb_refl, Z.sub_diag.
  cbn [Z.geb Z.compare QTcpSocket.readAll QTcpSocket.deliver
       QTcpSocket.readable].
  rewrite R. cbn [app].
  rewrite readLoop_done.
  - f_equal; [|rewrite P; reflexivity].
    apply Z.gtb_lt. rewrite app_length_Z.
    destruct (incoming e); [congruence|]. unfold QByteArray.length.
    cbn [List.length]. lia.
  - rewrite app_length_Z. destruct (incoming e); [congruence|].
    unfold QByteArray.length. cbn [List.length]. lia.
Qed.

Lemma firstRead_pos (Q_OS_WIN : bool) (st : Driver) (command : list bytes)
      (got : bool) (st1 : Driver) :
  firstRead Q_OS_WIN st command = (got, st1) -> pos st1 = 0.
Proof.
  unfold firstRead. intros H. apply readReply_spec in H.
  destruct H as (_ & _ & _ & _ & H). apply H. reflexivity.
Qed.

Lemma request_whole_reply (v : QVariant) (tail : bytes) (st : Driver)
      (command : list bytes) (reply : QVariantList) (st1 : Driver) :
  firstRead false st command = (true, st1) ->
  buffer st1 = wire v ++ tail ->
  readable_value v ->
  fits st1 ->
  request false st command reply
  = Some (true,
          match v with VList l => l | _ => reply ++ [v] end,
          setPos st1 (QByteArray.length (wire v)), ParseDone).
Proof.
  intros R B Rv F. pose proof (firstRead_pos _ _ _ R) as P.
  unfold firstRead in R. unfold request, request_fuel.
  cbn [requestLoop]. rewrite R. cbn [negb]. cbv zeta.
  destruct (wire_head v) as (c & wrest & Hw & Hc).
  assert (QByteArray.at_ (buffer st1) (pos st1) = c) as Tg.
  { rewrite B, P, Hw. cbn [app]. apply (at_app [] c). }
  rewrite Tg, Hc.
  assert (buffer st1 = [] ++ wire v ++ tail) as B0 by exact B.
  assert (pos st1 = QByteArray.length []) as P0 by exact P.
  destruct v as [k|s|l].
  - change (Integer =? Error) with false.
    change (Integer =? SimpleString) with false.
    change (Integer =? Integer) with true. cbv iota.
    rewrite (@integer_element [] k tail st1 Rv B0 P0 F). rewrite P.
    reflexivity.
  - change (BulkString =? Error) with false.
    change (BulkString =? SimpleString) with false.
    change (BulkString =? Integer) with false.
    change (BulkString =? BulkString) with true. cbv iota.
    rewrite (@bulk_element [] s tail st1 B0 P0 F). rewrite P. reflexivity.
  - change (Array =? Error) with false.
    change (Array =? SimpleString) with false.
    change (Array =? Integer) with false.
    change (Array =? BulkString) with false.
    change (Array =? Array) with true. cbv iota.
    apply readable_VList in Rv. destruct Rv as [NE Rl].
    rewrite (@parseArray_wire l [] tail st1 NE Rl B0 P0 F). rewrite P.
    reflexivity.
Qed.

(** X5.  Where the terminator is CR LF, when the first read of a request
    succeeds and leaves a buffer of fewer than 2^30 bytes that begins with
    the whole reply of a value (more bytes may follow), [request] returns
    [true] after that one read and leaves the cursor at the end of the
    reply: an integer or a bulk string is appended to the reply list it was
    given, while the elements of an array replace that list.  The value is
    one the driver can read back ([readable_value]): an integer within the
    range of a 32-bit [int], from -2^31 to 2^31 - 1, a bulk string, null or
    not, or an array that is not empty and whose elements are, at every
    depth, such integers, bulk strings and non-empty arrays. *)
Theorem request_reads_reply (v : QVariant) (tail : bytes) (st : Driver)
        (command : list bytes) (reply : QVariantList) (st1 : Driver) :
  firstRead false st command = (true, st1) ->
  buffer st1 = wire v ++ tail ->
  readable_value v ->
  fits st1 ->
  request false st command reply
  = Some (true,
          match v with VList l => l | _ => reply ++ [v] end,
          setPos st1 (QByteArray.length (wire v)), ParseDone).
Proof. apply request_whole_reply. Qed.

Lemma request_reads_reply_witness :
  let st := mkDriver (connected [brings (wire (VList [VInt 1; VInt 2]))])
                     [] 0 in
  let st' := mkDriver (connected [brings (wire (VInt 5) ++ bs "+OK")])
                      [] 0 in
  observe (request false st [bs "LRANGE"; bs "k"] [VInt 9])
  = Some (true, [VInt 1; VInt 2], wire (VList [VInt 1; VInt 2]), 12,
          ParseDone) /\
  observe (request false st' [bs "INCR"; bs "k"] [VInt 9])
  = Some (true, [VInt 9; VInt 5], wire (VInt 5) ++ bs "+OK", 4, ParseDone).
Proof.
  intros st st'. split.
  - rewrite (@request_reads_reply (VList [VInt 1; VInt 2]) [] st
               [bs "LRANGE"; bs "k"] [VInt 9]
               (snd (firstRead false st [bs "LRANGE"; bs "k"]))).
    + reflexivity.
    + reflexivity.
    + reflexivity.
    + apply readable_VList. split; [discriminate|].
      repeat constructor; vm_compute; discriminate.
    + unfold fits. vm_compute. reflexivity.
  - rewrite (@request_reads_reply (VInt 5) (bs "+OK") st'
               [bs "INCR"; bs "k"] [VInt 9]
               (snd (firstRead false st' [bs "INCR"; bs "k"]))).
    + reflexivity.
    + reflexivity.
    + reflexivity.
    + vm_compute. split; discriminate.
    + unfold fits. vm_compute. reflexivity.
Defined.

(** One turn of the loop of [request] on a reply of one line: the line is
    looked for from the cursor (after the tag for an integer); without a
    terminator the loop goes on with the cursor put back, otherwise it ends
    with the outcome of the line. *)
Lemma requestLoop_line_step (c : byte) (f : nat) (startpos : Z) (ret : bool)
      (reply : QVariantList) (st st1 : Driver) :
  line_tag c ->
  readReply st = (true, st1) ->
  QByteArray.at_ (buffer st1) (pos st1) = c ->
  let p := if code c =? Integer then Int.add (pos st1) 1 else pos st1 in
  let idx := QByteArray.indexOf (buffer st1) [CR; LF] p in
  requestLoop false (S f) startpos ret reply st
  = if idx <? 0
    then requestLoop false f startpos
                     (if code c =? Error then false else ret) reply
                     (setPos st1 startpos)
    else Some (fst (line_outcome c
                      (Int.wrap (signedDecimal (readFrom (buffer st1) p)))
                      ret reply),
               snd (line_outcome c
                      (Int.wrap (signedDecimal (readFrom (buffer st1) p)))
                      ret reply),
               setPos st1 (Int.add idx 2), ParseDone).
Proof.
  intros T R Tg p idx. cbn [requestLoop]. rewrite R. cbn [negb]. cbv zeta.
  rewrite Tg. unfold line_outcome.
  destruct T as [T|[T|T]]; subst p idx; rewrite T.
  - change (Error =? Error) with true. change (Error =? Integer) with false.
    cbv iota. unfold getLine. change (CRLF false) with [CR; LF].
    destruct (_ <? 0); reflexivity.
  - change (SimpleString =? Error) with false.
    change (SimpleString =? SimpleString) with true.
    change (SimpleString =? Integer) with false.
    cbv iota. unfold getLine. change (CRLF false) with [CR; LF].
    destruct (_ <? 0); reflexivity.
  - change (Integer =? Error) with false.
    change (Integer =? SimpleString) with false.
    change (Integer =? Integer) with true. cbv iota.
    destruct (QByteArray.indexOf (buffer st1) [CR; LF]
                                 (Int.add (pos st1) 1) <? 0) eqn:L.
    + apply Z.ltb_lt in L.
      rewrite (@getNumber_no_terminator false
                 (setPos st1 (Int.add (pos st1) 1)) L).
      reflexivity.
    + apply Z.ltb_ge in L.
      rewrite (@getNumber_value false
                 (setPos st1 (Int.add (pos st1) 1)) L).
      reflexivity.
Qed.

Lemma line_tag_plain (c : byte) : line_tag c -> c <> CR /\ c <> LF.
Proof.
  intros T. split; intros ->; vm_compute in T;
    destruct T as [T|[T|T]]; discriminate.
Qed.

Lemma plain_no_LF (body : bytes) : plain body -> ~ In LF body.
Proof.
  intros P H. unfold plain in P. rewrite Forall_forall in P.
  destruct (P LF H) as [_ N]. apply N. reflexivity.
Qed.

(** A strict prefix of a line with its terminator holds no line feed. *)
Lemma strict_prefix_no_LF (l1 l2 body : bytes) :
  l1 ++ l2 = body ++ [CR; LF] -> l2 <> [] -> plain body -> ~ In LF l1.
Proof.
  intros E N P H.
  destruct (exists_last N) as (l2' & z & ->).
  change (body ++ [CR; LF]) with (body ++ [CR] ++ [LF]) in E.
  rewrite !app_assoc in E. apply app_inj_tail in E. destruct E as [E _].
  assert (In LF (body ++ [CR])) as C
    by (rewrite <- E; apply in_or_app; left; exact H).
  apply in_app_or in C. destruct C as [C|[C|[]]].
  - exact (plain_no_LF P C).
  - discriminate.
Qed.

Lemma line_outcome_ret (c : byte) (num : Z) (ret : bool)
      (reply : QVariantList) :
  line_outcome c num (if code c =? Error then false else ret) reply
  = line_outcome c num ret reply.
Proof. unfold line_outcome. destruct (code c =? Error); reflexivity. Qed.

(** Where the line of a one-line reply is found, and what is read on it. *)
Lemma whole_line (c : byte) (body : bytes) :
  line_tag c -> plain body ->
  let full := c :: body ++ [CR; LF] in
  let p := if code c =? Integer then Int.add 0 1 else 0 in
  QByteArray.indexOf full [CR; LF] p = QByteArray.length full - 2 /\
  (code c = Integer -> readFrom full p = body ++ [CR; LF]).
Proof.
  intros T P. cbv zeta. destruct (line_tag_plain T) as [C1 C2]. split.
  - assert (QByteArray.length (c :: body ++ [CR; LF]) - 2
            = 1 + QByteArray.length body) as L by (lengths; lia).
    rewrite L.
    destruct (code c =? Integer).
    + change (Int.add 0 1) with (QByteArray.length [c]).
      pose proof (@indexOf_line false [c] body [] P) as I.
      cbn [CRLF] in I. rewrite app_nil_r in I. exact I.
    + pose proof (@indexOf_line false [] (c :: body) []) as I.
      cbn [CRLF] in I. rewrite app_nil_r in I.
      change (QByteArray.length []) with 0 in I. cbn [app] in I.
      rewrite I; [lengths; lia|]. constructor; [split; assumption|exact P].
  - intros E. rewrite E. change (Integer =? Integer) with true.
    cbv iota. change (Int.add 0 1) with (QByteArray.length [c]).
    apply (readFrom_app [c]).
Qed.

(** A one-line reply that arrives in pieces, read with a cursor that starts
    at 0: every turn but the last finds no terminator and waits for more,
    the last one ends the loop with the outcome of the line. *)
Lemma requestLoop_pieces (c : byte) (body : bytes) :
  line_tag c -> plain body ->
  QByteArray.length (c :: body ++ [CR; LF]) < 2 ^ 30 ->
  forall evs fuel ret reply st,
    evs <> [] -> each_brings evs ->
    isOpen st = true -> pos st = 0 ->
    QTcpSocket.readable (redis st) = [] ->
    QTcpSocket.events (redis st) = evs ->
    buffer st ++ List.concat (map incoming evs) = c :: body ++ [CR; LF] ->
    (List.length evs < fuel)%nat ->
    exists st',
      requestLoop false fuel 0 ret reply st
      = Some (line_outcome c (Int.wrap (signedDecimal (body ++ [CR; LF])))
                           ret reply, st', ParseDone) /\
      buffer st' = c :: body ++ [CR; LF] /\
      pos st' = QByteArray.length (c :: body ++ [CR; LF]) /\
      QTcpSocket.events (redis st') = [].
Proof.
  intros T P Sz evs.
  induction evs as [|e evs IH]; intros fuel ret reply st NE EB O P0 Rd Ev B Fu;
    [congruence|].
  destruct fuel as [|f]; [cbn [List.length] in Fu; lia|].
  pose proof (Forall_inv EB) as He. cbv beta in He.
  pose proof (Forall_inv_tail EB) as EB'.
  pose proof (readReply_one_event st O P0 Rd Ev He) as RR.
  set (st1 := mkDriver _ _ 0) in RR.
  assert (isOpen st1 = true) as O1 by exact O.
  assert (QTcpSocket.readable (redis st1) = []) as Rd1 by reflexivity.
  assert (QTcpSocket.events (redis st1) = evs) as Ev1 by reflexivity.
  assert (buffer st1 ++ List.concat (map incoming evs)
          = c :: body ++ [CR; LF]) as B1.
  { subst st1. cbn [buffer]. rewrite <- B. cbn [map List.concat].
    rewrite <- app_assoc. reflexivity. }
  assert (QByteArray.at_ (buffer st1) (pos st1) = c) as Tg.
  { subst st1. cbn [buffer pos] in *.
    destruct (buffer st ++ incoming e) as [|c0 b1] eqn:E.
    - apply app_eq_nil in E. destruct E as [_ E]. congruence.
    - cbn [app] in B1. inversion B1. reflexivity. }
  rewrite (@requestLoop_line_step c f 0 ret reply st st1 T RR Tg).
  cbv zeta. change (pos st1) with 0.
  destruct (whole_line T P) as [WI WR]. cbv zeta in WI, WR.
  destruct evs as [|e2 evs2].
  - (* the last piece: the buffer holds the whole line *)
    cbn [map List.concat] in B1. rewrite app_nil_r in B1.
    rewrite B1, WI.
    assert (2 <= QByteArray.length (c :: body ++ [CR; LF])) as L2
      by (lengths; lia).
    destruct (_ <? 0) eqn:L; [apply Z.ltb_lt in L; lia|].
    exists (setPos st1
              (Int.add (QByteArray.length (c :: body ++ [CR; LF]) - 2) 2)).
    split; [|split; [exact B1|split; [|exact Ev1]]].
    + f_equal. f_equal. rewrite <- surjective_pairing.
      unfold line_outcome.
      destruct (code c =? Error) eqn:S0; [reflexivity|].
      destruct (code c =? SimpleString) eqn:S1; [reflexivity|].
      assert (code c = Integer) as TI.
      { destruct T as [T|[T|T]]; try exact T.
        - rewrite T in S0. discriminate.
        - rewrite T in S1. discriminate. }
      rewrite (WR TI). reflexivity.
    + cbn [pos setPos]. unfold Int.add.
      replace (QByteArray.length (c :: body ++ [CR; LF]) - 2 + 2)
        with (QByteArray.length (c :: body ++ [CR; LF])) by lia.
      apply small_int. lia.
  - (* more pieces to come: no line feed yet *)
    pose proof (Forall_inv EB') as He2. cbv beta in He2.
    assert (~ In LF (buffer st1)) as N.
    { apply (@strict_prefix_no_LF (buffer st1)
               (List.concat (map incoming (e2 :: evs2))) (c :: body)).
      - exact B1.
      - cbn [map List.concat]. intros E. apply app_eq_nil in E.
        destruct E as [E _]. congruence.
      - constructor; [apply line_tag_plain, T|exact P]. }
    pose proof (@indexOf_no_LF false (buffer st1)
                  (if code c =? Integer then Int.add 0 1 else 0) N) as I.
    cbn [CRLF] in I. rewrite I. change (-1 <? 0) with true. cbv iota.
    destruct (IH f (if code c =? Error then false else ret) reply
                 (setPos st1 0)) as (st' & H1 & H2);
      try assumption; try discriminate.
    + reflexivity.
    + cbn [List.length] in *. lia.
    + exists st'. split; [|exact H2].
      rewrite H1, line_outcome_ret. reflexivity.
Qed.

Lemma request_pieces (c : byte) (body : bytes) (evs : list Poll)
      (st : Driver) (command : list bytes) (reply : QVariantList) :
  line_tag c -> plain body ->
  isOpen st = true -> pos st = 0 ->
  QTcpSocket.readable (redis st) = [] ->
  QTcpSocket.events (redis st) = evs ->
  each_brings evs ->
  List.concat (map incoming evs) = c :: body ++ [CR; LF] ->
  QByteArray.length (List.concat (map incoming evs)) < 2 ^ 30 ->
  exists st',
    request false st command reply
    = Some (line_outcome c (Int.wrap (signedDecimal (body ++ [CR; LF])))
                         true reply, st', ParseDone) /\
    buffer st' = c :: body ++ [CR; LF] /\
    pos st' = QByteArray.length (c :: body ++ [CR; LF]) /\
    QTcpSocket.events (redis st') = [].
Proof.
  intros T P O P0 Rd Ev EB B Sz. unfold request. rewrite P0.
  rewrite B in Sz.
  apply (@requestLoop_pieces c body T P Sz evs); try assumption.
  - intros E. rewrite E in B. discriminate.
  - unfold isOpen, QTcpSocket.isOpen in *. cbn [redis clearBuffer setRedis].
    rewrite opened_write. exact O.
  - reflexivity.
  - cbn [redis clearBuffer setRedis]. unfold QTcpSocket.write.
    destruct (QTcpSocket.opened (redis st)); assumption.
  - cbn [redis clearBuffer setRedis]. unfold QTcpSocket.write.
    destruct (QTcpSocket.opened (redis st)); assumption.
  - unfold request_fuel. cbn [redis clearBuffer setRedis].
    unfold QTcpSocket.write.
    destruct (QTcpSocket.opened (redis st)); cbn [QTcpSocket.events];
      rewrite Ev; lia.
Qed.

(** X6.  Where the terminator is CR LF, on an open connection entered with
    the cursor at 0 and with no unread bytes in the socket, when what
    arrives is exactly the integer reply [:n] CR LF, for an [n] within the
    range of a 32-bit [int] (from -2^31 to 2^31 - 1) as [QByteArray::number]
    prints it, cut into pieces, however many and wherever cut, each turn of
    the event loop bringing one piece of at least a byte and all of them
    fewer than 2^30 bytes, [request] returns [true] with [n] appended to the
    reply list, the whole reply in the buffer, the cursor at its end and
    nothing more to be brought. *)
Theorem integer_reply_in_pieces (n : Z) (evs : list Poll) (st : Driver)
        (command : list bytes) (reply : QVariantList) :
  Int.min_int <= n <= Int.max_int ->
  isOpen st = true -> pos st = 0 ->
  QTcpSocket.readable (redis st) = [] ->
  QTcpSocket.events (redis st) = evs ->
  each_brings evs ->
  List.concat (map incoming evs) = wire (VInt n) ->
  QByteArray.length (List.concat (map incoming evs)) < 2 ^ 30 ->
  exists st',
    request false st command reply
    = Some (true, reply ++ [VInt n], st', ParseDone) /\
    buffer st' = wire (VInt n) /\
    pos st' = QByteArray.length (wire (VInt n)) /\
    QTcpSocket.events (redis st') = [].
Proof.
  intros R O P0 Rd Ev EB B Sz.
  destruct (@request_pieces ":"%byte (QByteArray.number n) evs st command
              reply) as (st' & H & H');
    try assumption.
  - right. right. reflexivity.
  - apply number_plain.
  - exists st'. split; [|exact H']. rewrite H. unfold line_outcome.
    change (code ":" =? Error) with false.
    change (code ":" =? SimpleString) with false. cbv iota.
    rewrite signedDecimal_number by reflexivity.
    rewrite wrap_small by exact R. reflexivity.
Qed.

Lemma integer_reply_in_pieces_witness :
  let st := mkDriver (connected [brings (bs ":-"); brings (bs "4");
                                 brings (bs "2" ++ [CR]); brings [LF]])
                     [] 0 in
  exists st',
    request false st [bs "DECR"; bs "k"] []
    = Some (true, [VInt (-42)], st', ParseDone) /\
    buffer st' = bs ":-42" ++ [CR; LF] /\ pos st' = 6 /\
    QTcpSocket.events (redis st') = [].
Proof.
  intros st.
  apply (@integer_reply_in_pieces (-42)
           [brings (bs ":-"); brings (bs "4"); brings (bs "2" ++ [CR]);
            brings [LF]] st [bs "DECR"; bs "k"] []).
  - vm_compute. split; discriminate.
  - reflexivity.
  - reflexivity.
  - reflexivity.
  - reflexivity.
  - repeat constructor; discriminate.
  - reflexivity.
  - vm_compute. reflexivity.
Defined.

(** X7.  Where the terminator is CR LF, on an open connection entered with
    the cursor at 0 and with no unread bytes in the socket, when what
    arrives is exactly one line with the tag of a simple string or of an
    error, a text that holds no CR and no LF, and CR LF, cut into pieces,
    however many and wherever cut, each turn of the event loop bringing one
    piece of at least a byte and all of them fewer than 2^30 bytes,
    [request] returns [true] for a simple string and [false] for an error,
    in both cases with the reply list as it was given, the whole line in
    the buffer, the cursor at its end and nothing more to be brought. *)
Theorem status_reply_in_pieces (c : byte) (body : bytes) (evs : list Poll)
        (st : Driver) (command : list bytes) (reply : QVariantList) :
  code c = SimpleString \/ code c = Error ->
  plain body ->
  isOpen st = true -> pos st = 0 ->
  QTcpSocket.readable (redis st) = [] ->
  QTcpSocket.events (redis st) = evs ->
  each_brings evs ->
  List.concat (map incoming evs) = c :: body ++ [CR; LF] ->
  QByteArray.length (List.concat (map incoming evs)) < 2 ^ 30 ->
  exists st',
    request false st command reply
    = Some (code c =? SimpleString, reply, st', ParseDone) /\
    buffer st' = c :: body ++ [CR; LF] /\
    pos st' = QByteArray.length (c :: body ++ [CR; LF]) /\
    QTcpSocket.events (redis st') = [].
Proof.
  intros T P O P0 Rd Ev EB B Sz.
  destruct (@request_pieces c body evs st command reply) as (st' & H & H');
    try assumption.
  - destruct T as [T|T]; [right; left; exact T|left; exact T].
  - exists st'. split; [|exact H']. rewrite H. unfold line_outcome.
    destruct T as [T|T]; rewrite T; reflexivity.
Qed.

Lemma status_reply_in_pieces_witness :
  let st := mkDriver (connected [brings (bs "-ERR"); brings (bs " bad");
                                 brings [CR; LF]]) [] 0 in
  exists st',
    request false st [bs "GET"] [VInt 1]
    = Some (false, [VInt 1], st', ParseDone) /\
    buffer st' = bs "-ERR bad" ++ [CR; LF] /\ pos st' = 10 /\
    QTcpSocket.events (redis st') = [].
Proof.
  intros st.
  apply (@status_reply_in_pieces "-"%byte (bs "ERR bad")
           [brings (bs "-ERR"); brings (bs " bad"); brings [CR; LF]]
           st [bs "GET"] [VInt 1]).
  - right. reflexivity.
  - repeat constructor; discriminate.
  - reflexivity.
  - reflexivity.
  - reflexivity.
  - reflexivity.
  - repeat constructor; discriminate.
  - reflexivity.
  - vm_compute. reflexivity.
Defined.

(** ** What a request does to the connection *)

(** X8.  On either build, a request on a connection that is not open sends
    nothing and reads nothing: it returns [true], the value [ret] was
    initialised with, hands the reply list back as it was given, and leaves
    the driver with an empty buffer and the cursor at 0. *)
Theorem request_on_closed_connection (Q_OS_WIN : bool) (st : Driver)
        (command : list bytes) (reply : QVariantList) :
  isOpen st = false ->
  request Q_OS_WIN st command reply
  = Some (true, reply, clearBuffer st, ReadFailed).
Proof.
  intros O. unfold request, request_fuel. cbn [requestLoop].
  unfold readReply, isOpen, QTcpSocket.isOpen in *.
  cbn [redis clearBuffer setRedis]. rewrite opened_write, O. cbn [negb].
  unfold clearBuffer. cbn [redis]. unfold QTcpSocket.write. rewrite O.
  reflexivity.
Qed.

Lemma request_on_closed_connection_witness :
  let st := mkDriver (QTcpSocket.close (connected [brings (bs "+OK" ++ [CR; LF])]))
                     (bs "left over") 4 in
  request false st [bs "PING"] [VInt 7]
  = Some (true, [VInt 7], clearBuffer st, ReadFailed).
Proof.
  intros st. apply (@request_on_closed_connection false st [bs "PING"] [VInt 7]).
  reflexivity.
Defined.

Lemma readLoop_socket evs : forall start len s buf s' buf',
  readLoop evs start len s buf = (s', buf') ->
  QTcpSocket.written s' = QTcpSocket.written s /\
  QTcpSocket.connects s' = QTcpSocket.connects s.
Proof.
  induction evs as [|e evs IH]; intros start len s buf s' buf';
    cbn [readLoop]; destruct (_ =? len);
    try (intros H; inversion H; subst; split; reflexivity);
    destruct (_ >=? 2000);
    try (intros H; inversion H; subst; split; reflexivity).
  cbn [QTcpSocket.readAll]. intros H. apply IH in H. exact H.
Qed.

Lemma readReply_socket st got st' :
  readReply st = (got, st') ->
  QTcpSocket.written (redis st') = QTcpSocket.written (redis st) /\
  QTcpSocket.connects (redis st') = QTcpSocket.connects (redis st).
Proof.
  unfold readReply. destruct (negb (isOpen st)).
  { intros H; inversion H; subst. split; reflexivity. }
  set (st0 := if pos st >? 0
              then mkDriver (redis st)
                            (QByteArray.remove0 (buffer st) (pos st)) 0
              else st).
  assert (redis st0 = redis st) as R0
      by (subst st0; destruct (pos st >? 0); reflexivity).
  destruct (readLoop _ _ _ _ _) as [s buf] eqn:L.
  apply readLoop_socket in L. rewrite R0 in L.
  intros H; inversion H; subst. exact L.
Qed.

Lemma requestLoop_socket (Q_OS_WIN : bool) fuel :
  forall startpos ret reply st ret' reply' st' e,
    requestLoop Q_OS_WIN fuel startpos ret reply st
    = Some (ret', reply', st', e) ->
    QTcpSocket.written (redis st') = QTcpSocket.written (redis st) /\
    QTcpSocket.connects (redis st') = QTcpSocket.connects (redis st).
Proof.
  induction fuel as [|fuel IH]; intros startpos ret reply st ret' reply' st' e;
    [simpl; discriminate|].
  cbn [requestLoop].
  destruct (readReply st) as [got st1] eqn:R.
  apply readReply_socket in R. destruct R as (R1 & R2).
  destruct got; cbn [negb].
  2:{ intros H; inversion H; subst. simpl. auto. }
  assert (forall ok r1 reply1 st2, same_data st1 st2 ->
            (if ok : bool then Some (r1, reply1, st2, ParseDone)
             else requestLoop Q_OS_WIN fuel startpos r1 reply1
                              (setPos st2 startpos))
            = Some (ret', reply', st', e) ->
            QTcpSocket.written (redis st') = QTcpSocket.written (redis st) /\
            QTcpSocket.connects (redis st') = QTcpSocket.connects (redis st))
    as Cont.
  { intros ok r1 reply1 st2 [D1 D2]. destruct ok.
    - intros H; inversion H; subst. split; congruence.
    - intros H. apply IH in H. simpl in H. rewrite D1 in H.
      destruct H as [H1 H2]. split; congruence. }
  cbv zeta.
  destruct (_ =? Error).
  { pose proof (getLine_data Q_OS_WIN st1) as D.
    destruct (getLine _ _) as [[str ok] st2]. apply Cont, D. }
  destruct (_ =? SimpleString).
  { pose proof (getLine_data Q_OS_WIN st1) as D.
    destruct (getLine _ _) as [[str ok] st2]. apply Cont, D. }
  destruct (_ =? Integer).
  { pose proof (getNumber_data Q_OS_WIN (setPos st1 (Int.add (pos st1) 1)))
      as D.
    destruct (getNumber _ _) as [[num ok] st2]. apply Cont, D. }
  destruct (_ =? BulkString).
  { pose proof (parseBulkString_data Q_OS_WIN st1) as D.
    destruct (parseBulkString _ _) as [[str ok] st2]. apply Cont, D. }
  destruct (_ =? Array).
  { destruct (parseArray _ _) as [[[lst ok] st2]|] eqn:E; [|discriminate].
    apply Cont.
    apply (parseArray_arrayLoop_data Q_OS_WIN (array_fuel st1)) in E.
    exact E. }
  intros H; inversion H; subst. simpl. auto.
Qed.

(** X9.  On either build and whatever the server answers, a request that
    returns has written to the socket the frame [toMultiBulk] builds for the
    command, once and before anything else (nothing when the device is not
    open), has not asked for a connection, and leaves the device open or
    closed as it was. *)
Theorem request_writes_command_once (Q_OS_WIN : bool) (st : Driver)
        (command : list bytes) (reply : QVariantList)
        (ret : bool) (reply' : QVariantList) (st' : Driver) (e : Exit) :
  request Q_OS_WIN st command reply = Some (ret, reply', st', e) ->
  QTcpSocket.written (redis st')
  = QTcpSocket.written (redis st)
    ++ (if isOpen st then toMultiBulk Q_OS_WIN command else []) /\
  QTcpSocket.connects (redis st') = QTcpSocket.connects (redis st) /\
  isOpen st' = isOpen st.
Proof.
  unfold request. intros H.
  pose proof (requestLoop_socket _ _ _ _ _ _ H) as (W & C).
  apply requestLoop_exit in H. destruct H as (O & _).
  cbn [redis clearBuffer setRedis] in W, C, O.
  unfold isOpen, QTcpSocket.isOpen. rewrite W, C, O.
  unfold QTcpSocket.write.
  destruct (QTcpSocket.opened (redis st)) eqn:Op;
    cbn [QTcpSocket.written QTcpSocket.connects QTcpSocket.opened];
    rewrite ?app_nil_r; auto.
Qed.

Lemma request_writes_command_once_witness :
  let st := mkDriver (connected [brings (bs "$3" ++ [CR; LF] ++ bs "b")])
                     [] 0 in
  let st' := mkDriver (QTcpSocket.mk true ConnectedState []
                         (toMultiBulk false [bs "GET"; bs "k"]) [] 2001 [])
                      [] 0 in
  QTcpSocket.written (redis st')
  = QTcpSocket.written (redis st)
    ++ (if isOpen st then toMultiBulk false [bs "GET"; bs "k"] else []) /\
  QTcpSocket.connects (redis st') = QTcpSocket.connects (redis st) /\
  isOpen st' = isOpen st.
Proof.
  intros st st'.
  apply (@request_writes_command_once false st [bs "GET"; bs "k"] []
           true [] st' ReadFailed).
  vm_compute. reflexivity.
Defined.

(** ** What a read does to the buffer and how long it waits *)

Lemma readLoop_wait evs : forall start len s buf s' buf',
  readLoop evs start len s buf = (s', buf') ->
  (exists data, buf' = buf ++ data) /\
  (QByteArray.length buf' = len -> 2000 <= QTcpSocket.clock s' - start).
Proof.
  induction evs as [|e evs IH]; intros start len s buf s' buf';
    cbn [readLoop]; destruct (_ =? len) eqn:L.
  - destruct (_ >=? 2000) eqn:T.
    + intros H; inversion H; subst. split.
      * exists []. rewrite app_nil_r. reflexivity.
      * intros _. apply Z.geb_le in T. exact T.
    + cbn [QTcpSocket.readAll QTcpSocket.idle QTcpSocket.readable].
      intros H; inversion H; subst. split.
      * eexists. reflexivity.
      * intros _. cbn [QTcpSocket.clock]. lia.
  - intros H; inversion H; subst. split.
    + exists []. rewrite app_nil_r. reflexivity.
    + intros E. apply Z.eqb_neq in L. contradiction.
  - destruct (_ >=? 2000) eqn:T.
    + intros H; inversion H; subst. split.
      * exists []. rewrite app_nil_r. reflexivity.
      * intros _. apply Z.geb_le in T. exact T.
    + cbn [QTcpSocket.readAll]. intros H. apply IH in H.
      destruct H as ((data & D) & W). split; [|exact W].
      eexists. rewrite D, <- app_assoc. reflexivity.
  - intros H; inversion H; subst. split.
    + exists []. rewrite app_nil_r. reflexivity.
    + intros E. apply Z.eqb_neq in L. contradiction.
Qed.

Lemma readReply_moves st got st' :
  isOpen st = true ->
  readReply st = (got, st') ->
  exists data,
    buffer st' = QByteArray.remove0 (buffer st) (pos st) ++ data /\
    pending (redis st) = data ++ pending (redis st') /\
    (got = true <-> data <> []) /\
    pos st' = Z.min (pos st) 0 /\
    (got = false ->
     2000 <= QTcpSocket.clock (redis st') - QTcpSocket.clock (redis st)).
Proof.
  intros O. unfold readReply. rewrite O. cbn [negb].
  set (st0 := if pos st >? 0
              then mkDriver (redis st)
                            (QByteArray.remove0 (buffer st) (pos st)) 0
              else st).
  assert (redis st0 = redis st /\
          buffer st0 = QByteArray.remove0 (buffer st) (pos st) /\
          pos st0 = Z.min (pos st) 0) as (R0 & B0 & P0).
  { subst st0. unfold QByteArray.remove0.
    destruct (pos st >? 0) eqn:P; cbn [redis buffer pos].
    - apply Z.gtb_lt in P. destruct (pos st <=? 0) eqn:P'.
      + apply Z.leb_le in P'. lia.
      + repeat split. lia.
    - destruct (pos st <=? 0) eqn:P'.
      + apply Z.leb_le in P'. repeat split. lia.
      + apply Z.leb_gt in P'. pose proof (Zgt_cases (pos st) 0) as G.
        rewrite P in G. lia. }
  destruct (readLoop _ _ _ _ _) as [s buf] eqn:L.
  pose proof (readLoop_wait _ _ _ _ _ L) as ((data & D) & W).
  apply readLoop_spec in L; [|reflexivity].
  destruct L as (_ & L2 & _).
  intros H; inversion H; subst got st'; clear H.
  cbn [redis buffer pos]. rewrite R0 in *. rewrite B0 in *.
  exists data. split; [exact D|].
  rewrite D, <- app_assoc in L2. apply app_inv_head in L2.
  split; [symmetry; exact L2|].
  rewrite D, app_length_Z in *.
  split; [|split; [exact P0|]].
  - split.
    + intros G E. subst data. apply Z.gtb_lt in G.
      change (QByteArray.length []) with 0 in G. lia.
    + intros N. apply Z.gtb_lt. destruct data as [|d data]; [congruence|].
      unfold QByteArray.length. cbn [List.length].
      rewrite Nat2Z.inj_succ. lia.
  - intros G. apply W.
    pose proof (Zgt_cases (QByteArray.length
                             (QByteArray.remove0 (buffer st) (pos st))
                           + QByteArray.length data)
                          (QByteArray.length
                             (QByteArray.remove0 (buffer st) (pos st)))) as C.
    rewrite G in C. pose proof (length_nonneg data). lia.
Qed.

(** X10.  A read on an open connection drops the bytes before the cursor
    and appends to what is left a leading part of the bytes the socket holds
    or is brought, in their order of arrival: none is lost, repeated or
    reordered.  It returns [true] exactly when that part is not empty, and a
    positive cursor is back at 0 (a cursor that is 0 or negative stays). *)
Theorem read_appends_arrived_bytes (st : Driver) (got : bool)
        (st' : Driver) :
  isOpen st = true ->
  readReply st = (got, st') ->
  exists data,
    buffer st' = QByteArray.remove0 (buffer st) (pos st) ++ data /\
    pending (redis st) = data ++ pending (redis st') /\
    (got = true <-> data <> []) /\
    pos st' = Z.min (pos st) 0.
Proof.
  intros O R. destruct (readReply_moves st O R) as (data & A & B & C & D & _).
  exists data. auto.
Qed.

Lemma read_appends_arrived_bytes_witness :
  let st := mkDriver (connected [brings (bs "$3" ++ [CR]); brings (bs "x")])
                     (bs "+OK" ++ [CR; LF] ++ bs ":1") 5 in
  let st' := mkDriver (QTcpSocket.mk true ConnectedState [] [] [] 1
                                     [brings (bs "x")])
                      (bs ":1$3" ++ [CR]) 0 in
  exists data,
    buffer st' = QByteArray.remove0 (buffer st) (pos st) ++ data /\
    pending (redis st) = data ++ pending (redis st') /\
    (true = true <-> data <> []) /\
    pos st' = Z.min (pos st) 0.
Proof.
  intros st st'.
  apply (@read_appends_arrived_bytes st true st'); reflexivity.
Defined.

(** X11.  A read on an open connection gives up only after its deadline:
    when [readReply] returns [false], at least 2000 milliseconds have passed
    on the clock since the call, and the buffer holds what was unread
    before, nothing more. *)
Theorem read_fails_after_deadline (st st' : Driver) :
  isOpen st = true ->
  readReply st = (false, st') ->
  2000 <= QTcpSocket.clock (redis st') - QTcpSocket.clock (redis st) /\
  buffer st' = QByteArray.remove0 (buffer st) (pos st).
Proof.
  intros O R. destruct (readReply_moves st O R) as (data & A & _ & C & _ & W).
  split; [apply W; reflexivity|].
  destruct data as [|d data]; [rewrite A, app_nil_r; reflexivity|].
  assert (false = true) as F by (apply C; discriminate). discriminate.
Qed.

Lemma read_fails_after_deadline_witness :
  let st := mkDriver (connected [mkPoll 700 [] ConnectedState;
                                 mkPoll 1500 [] ConnectedState;
                                 brings (bs "late")])
                     (bs "+OK" ++ [CR; LF] ++ bs ":1") 5 in
  let st' := mkDriver (QTcpSocket.mk true ConnectedState [] [] [] 2200
                                     [brings (bs "late")])
                      (bs ":1") 0 in
  2000 <= QTcpSocket.clock (redis st') - QTcpSocket.clock (redis st) /\
  buffer st' = QByteArray.remove0 (buffer st) (pos st).
Proof.
  intros st st'.
  apply (@read_fails_after_deadline st st'); reflexivity.
Defined.

(** ** Replies the parsers turn down *)

Lemma setPos_same st : setPos st (pos st) = st.
Proof. destruct st. reflexivity. Qed.

Lemma at_rest (pre tail : bytes) :
  QByteArray.at_ (pre ++ tail) (QByteArray.length pre) = hd x00 tail.
Proof.
  destruct tail as [|c tail]; [|apply at_app].
  rewrite app_nil_r. unfold QByteArray.at_.
  pose proof (length_nonneg pre) as N.
  destruct (QByteArray.length pre <? 0) eqn:E; [apply Z.ltb_lt in E; lia|].
  unfold QByteArray.length. rewrite Nat2Z.id. apply nth_overflow. lia.
Qed.

(** X12.  Where the terminator is CR LF, in a buffer of fewer than 2^30
    bytes, a bulk string at the cursor whose header declares a length [n]
    below -1 and not below -2^31, the least 32-bit [int], written as
    [QByteArray::number] prints it, is turned down whatever follows the
    header: [ok] is cleared, a null byte array is returned and the cursor is
    back on the tag. *)
Theorem bulk_length_below_minus_one (pre : bytes) (n : Z) (tail : bytes)
        (st : Driver) :
  Int.min_int <= n < -1 ->
  buffer st = pre ++ bs "$" ++ QByteArray.number n ++ [CR; LF] ++ tail ->
  pos st = QByteArray.length pre ->
  fits st ->
  parseBulkString false st = (None, false, st).
Proof.
  intros R B P F. unfold parseBulkString.
  rewrite (@counted_line pre "$"%byte n tail st); try assumption.
  2:{ unfold Int.max_int. change (2 ^ 31) with 2147483648. lia. }
  destruct (n <? -1) eqn:N; [|apply Z.ltb_ge in N; lia].
  rewrite setPos_setPos, setPos_same. reflexivity.
Qed.

Lemma bulk_length_below_minus_one_witness :
  parseBulkString false
    (holding (bs "+OK" ++ [CR; LF] ++ bs "$-2" ++ [CR; LF] ++ bs "ab") 5)
  = (None, false,
     holding (bs "+OK" ++ [CR; LF] ++ bs "$-2" ++ [CR; LF] ++ bs "ab") 5).
Proof.
  apply (@bulk_length_below_minus_one (bs "+OK" ++ [CR; LF]) (-2) (bs "ab")).
  - vm_compute. split; [discriminate|reflexivity].
  - reflexivity.
  - reflexivity.
  - vm_compute. reflexivity.
Defined.

Lemma array_no_element (pre : bytes) (n : Z) (tail : bytes) (st : Driver) :
  Int.min_int <= n <= Int.max_int ->
  buffer st = pre ++ bs "*" ++ QByteArray.number n ++ [CR; LF] ++ tail ->
  pos st = QByteArray.length pre ->
  fits st ->
  code (hd x00 tail) <> BulkString ->
  code (hd x00 tail) <> Integer ->
  code (hd x00 tail) <> Array ->
  parseArray false st = Some ([], false, st).
Proof.
  intros R B P F T1 T2 T3. unfold parseArray, array_fuel.
  replace (2 * List.length (buffer st) + 4)%nat
    with (S (S (2 * List.length (buffer st) + 2))) by lia.
  cbn [parseArray_rec].
  rewrite (@counted_line pre "*"%byte n tail st R B P F).
  cbn [arrayLoop negb]. cbn [buffer pos setPos].
  assert (QByteArray.at_ (buffer st)
            (pos st + QByteArray.length (QByteArray.number n) + 3)
          = hd x00 tail) as A.
  { rewrite B, P.
    replace (pre ++ bs "*" ++ QByteArray.number n ++ [CR; LF] ++ tail)
      with ((pre ++ bs "*" ++ QByteArray.number n ++ [CR; LF]) ++ tail)
      by (rewrite <- !app_assoc; reflexivity).
    replace (QByteArray.length pre
             + QByteArray.length (QByteArray.number n) + 3)
      with (QByteArray.length
              (pre ++ bs "*" ++ QByteArray.number n ++ [CR; LF]))
      by (lengths; lia).
    apply at_rest. }
  rewrite A.
  apply Z.eqb_neq in T1, T2, T3. rewrite T1, T2, T3.
  rewrite arrayLoop_stopped.
  destruct (_ >=? n); rewrite setPos_setPos, setPos_same; reflexivity.
Qed.

(** X13.  Where the terminator is CR LF, an array whose count line is not
    followed by a bulk string, an integer or an array is turned down,
    whatever count it declares: [ok] is cleared, the list is empty and the
    cursor is back on the tag.  So the empty array and the null array, whose
    encodings end with the count line, are not read when nothing follows
    them in the buffer. *)
Theorem array_without_element_rejected (pre : bytes) (n : Z) (tail : bytes)
        (st : Driver) :
  Int.min_int <= n <= Int.max_int ->
  buffer st = pre ++ bs "*" ++ QByteArray.number n ++ [CR; LF] ++ tail ->
  pos st = QByteArray.length pre ->
  fits st ->
  code (hd x00 tail) <> BulkString ->
  code (hd x00 tail) <> Integer ->
  code (hd x00 tail) <> Array ->
  parseArray false st = Some ([], false, st).
Proof. apply array_no_element. Qed.

Lemma array_without_element_rejected_witness :
  parseArray false (holding (bs ":1" ++ [CR; LF] ++ bs "*0" ++ [CR; LF]) 4)
  = Some ([], false,
          holding (bs ":1" ++ [CR; LF] ++ bs "*0" ++ [CR; LF]) 4) /\
  parseArray false (holding (bs "*-1" ++ [CR; LF]) 0)
  = Some ([], false, holding (bs "*-1" ++ [CR; LF]) 0) /\
  parseArray false (holding (bs "*1" ++ [CR; LF] ++ bs "+OK" ++ [CR; LF]) 0)
  = Some ([], false, holding (bs "*1" ++ [CR; LF] ++ bs "+OK" ++ [CR; LF]) 0).
Proof.
  split; [|split].
  - apply (@array_without_element_rejected (bs ":1" ++ [CR; LF]) 0 []);
      try reflexivity; try discriminate.
    vm_compute. split; discriminate.
  - apply (@array_without_element_rejected [] (-1) []);
      try reflexivity; try discriminate.
    vm_compute. split; discriminate.
  - apply (@array_without_element_rejected [] 1 (bs "+OK" ++ [CR; LF]));
      try reflexivity; try discriminate.
    vm_compute. split; discriminate.
Defined.

Lemma readReply_nothing_left (st : Driver) :
  isOpen st = true ->
  pending (redis st) = [] ->
  exists st', readReply st = (false, st').
Proof.
  intros O Pn. destruct (readReply st) as [got st'] eqn:R.
  exists st'. f_equal.
  destruct (readReply_moves st O R) as (data & _ & B & C & _).
  rewrite Pn in B. destruct data as [|d data]; [|discriminate].
  destruct got; [|reflexivity]. destruct C as [C _].
  elim (C eq_refl). reflexivity.
Qed.

(** X14.  Where the terminator is CR LF, when all the server sends is the
    count line of an array, be the count 0, -1 or any other, the request
    waits until the read deadline passes and then returns [true] with an
    empty reply list, whatever the list held before, an empty buffer and the
    cursor at 0: an empty array, a null array and an array cut after its
    count line are not told apart, nor from a success. *)
Theorem array_count_line_alone_times_out (n : Z) (e : Poll) (st : Driver)
        (command : list bytes) (reply : QVariantList) :
  Int.min_int <= n <= Int.max_int ->
  isOpen st = true -> pos st = 0 ->
  QTcpSocket.readable (redis st) = [] ->
  QTcpSocket.events (redis st) = [e] ->
  incoming e = bs "*" ++ QByteArray.number n ++ [CR; LF] ->
  QByteArray.length (incoming e) < 2 ^ 30 ->
  exists st',
    request false st command reply = Some (true, [], st', ReadFailed) /\
    buffer st' = [] /\ pos st' = 0.
Proof.
  intros R O P0 Rd Ev I Sz. unfold request, request_fuel.
  set (st0 := clearBuffer (setRedis st (QTcpSocket.write (redis st)
                                          (toMultiBulk false command)))).
  assert (isOpen st0 = true) as O0.
  { unfold isOpen, QTcpSocket.isOpen in *. subst st0.
    cbn [redis clearBuffer setRedis]. rewrite opened_write. exact O. }
  assert (QTcpSocket.readable (redis st0) = [] /\
          QTcpSocket.events (redis st0) = [e]) as (Rd0 & Ev0).
  { subst st0. cbn [redis clearBuffer setRedis]. unfold QTcpSocket.write.
    destruct (QTcpSocket.opened (redis st)); auto. }
  rewrite Ev0, P0. cbn [List.length requestLoop].
  assert (incoming e <> []) as NE by (rewrite I; discriminate).
  rewrite (@readReply_one_event st0 e [] O0 eq_refl Rd0 Ev0 NE).
  cbn [negb]. cbv zeta.
  set (st1 := mkDriver _ _ 0).
  assert (buffer st1 = [] ++ bs "*" ++ QByteArray.number n ++ [CR; LF] ++ [])
    as B1 by (subst st1 st0; cbn [buffer clearBuffer app]; rewrite I;
              reflexivity).
  assert (fits st1) as F1
      by (unfold fits; subst st1 st0; cbn [buffer clearBuffer app]; exact Sz).
  replace (QByteArray.at_ (buffer st1) (pos st1)) with "*"%byte
    by (rewrite B1; reflexivity).
  change (code "*" =? Error) with false.
  change (code "*" =? SimpleString) with false.
  change (code "*" =? Integer) with false.
  change (code "*" =? BulkString) with false.
  change (code "*" =? Array) with true. cbv iota.
  rewrite (@array_no_element [] n [] st1 R B1 eq_refl F1)
    by (cbn [hd]; discriminate).
  destruct (@readReply_nothing_left (setPos st1 0)) as (st2 & R2).
  - exact O0.
  - subst st1. cbn [redis setPos]. unfold pending.
    cbn [QTcpSocket.readAll QTcpSocket.deliver snd QTcpSocket.readable
         QTcpSocket.events map List.concat app]. reflexivity.
  - rewrite R2. cbn [negb]. exists (clearBuffer st2).
    split; [reflexivity|]. split; reflexivity.
Qed.

Lemma array_count_line_alone_times_out_witness :
  let st := mkDriver (connected [brings (bs "*0" ++ [CR; LF])]) [] 0 in
  exists st',
    request false st [bs "KEYS"; bs "nothing*"] [VInt 5]
    = Some (true, [], st', ReadFailed) /\
    buffer st' = [] /\ pos st' = 0.
Proof.
  intros st.
  apply (@array_count_line_alone_times_out 0 (brings (bs "*0" ++ [CR; LF]))
           st [bs "KEYS"; bs "nothing*"] [VInt 5]);
    try reflexivity.
  vm_compute. split; discriminate.
Defined.

(** X15.  Where the terminator is CR LF, [parseBulkString] takes the two
    bytes that follow the payload on trust: whatever they are, the declared
    number of bytes is returned as the string and the cursor moves past the
    two bytes.  The header line alone decides where the string ends. *)
Theorem bulk_terminator_not_checked (pre d : bytes) (a b : byte)
        (tail : bytes) (st : Driver) :
  buffer st = pre ++ bs "$" ++ QByteArray.number (QByteArray.length d)
                  ++ [CR; LF] ++ d ++ [a; b] ++ tail ->
  pos st = QByteArray.length pre ->
  fits st ->
  parseBulkString false st
  = (Some d, true,
     setPos st (pos st
                + QByteArray.length
                    (bs "$" ++ QByteArray.number (QByteArray.length d)
                        ++ [CR; LF] ++ d ++ [a; b]))).
Proof.
  intros B P F.
  set (len := QByteArray.length d) in *.
  pose proof (length_nonneg d) as L0. fold len in L0.
  pose proof (length_nonneg (QByteArray.number len)) as P3.
  pose proof (length_nonneg pre) as P4.
  assert (pos st + QByteArray.length (QByteArray.number len) + 3 + len + 2
          <= QByteArray.length (buffer st) < 1073741824) as (P1 & P2).
  { pose proof F as F2. unfold fits in F2. rewrite B in F2.
    rewrite B, P. subst len. lengths. lia. }
  assert (Int.min_int <= len <= Int.max_int) as R.
  { unfold Int.min_int, Int.max_int. change (2 ^ 31) with 2147483648. lia. }
  pose proof (@counted_line pre "$"%byte len (d ++ [a; b] ++ tail) st R B P F)
    as G.
  pose proof (@bulk_payload_complete false st len _ F G L0) as C.
  cbn [pos setPos buffer] in C. specialize (C ltac:(lia)).
  cbv zeta in C. destruct C as [C _]. rewrite C. f_equal; [f_equal|].
  - f_equal. rewrite B.
    replace (pre ++ bs "$" ++ QByteArray.number len ++ [CR; LF]
                 ++ d ++ [a; b] ++ tail)
      with ((pre ++ bs "$" ++ QByteArray.number len ++ [CR; LF])
              ++ d ++ [a; b] ++ tail)
      by (rewrite <- !app_assoc; reflexivity).
    rewrite skipn_exact by (rewrite P; lengths; lia).
    apply firstn_exact. reflexivity.
  - rewrite setPos_setPos. f_equal. subst len. lengths. lia.
Qed.

Lemma bulk_terminator_not_checked_witness :
  parseBulkString false
    (holding (bs "$2" ++ [CR; LF] ++ bs "hi" ++ bs "XY" ++ bs ":1") 0)
  = (Some (bs "hi"), true,
     holding (bs "$2" ++ [CR; LF] ++ bs "hi" ++ bs "XY" ++ bs ":1") 8).
Proof.
  apply (@bulk_terminator_not_checked [] (bs "hi") "X"%byte "Y"%byte
           (bs ":1")); reflexivity.
Defined.

(** ** Arrays that declare one element or fewer *)

Lemma arrayLoop_small_count (fuel : nat) (n : Z) (st : Driver) :
  n <= 1 ->
  arrayLoop false fuel n [] true st = arrayLoop false fuel 1 [] true st.
Proof.
  intros N. destruct fuel as [|fuel]; [reflexivity|].
  cbn [arrayLoop negb app].
  assert (forall (x : QVariant) ok st1,
             (if Z.of_nat (List.length (if ok : bool then [x] else []))
                 >=? n
              then Some (if ok then [x] else [], ok, st1)
              else arrayLoop false fuel n (if ok then [x] else []) ok st1)
             = (if Z.of_nat (List.length (if ok : bool then [x] else []))
                   >=? 1
                then Some (if ok then [x] else [], ok, st1)
                else arrayLoop false fuel 1 (if ok then [x] else []) ok st1))
    as K.
  { intros x ok st1. destruct ok; cbn [List.length].
    - destruct (Z.of_nat 1 >=? n) eqn:E; [reflexivity|].
      pose proof (Zge_cases (Z.of_nat 1) n) as C. rewrite E in C. lia.
    - rewrite !arrayLoop_stopped. destruct (_ >=? n); reflexivity. }
  destruct (_ =? BulkString).
  { destruct (parseBulkString _ _) as [[str ok] st1]. apply K. }
  destruct (_ =? Integer).
  { destruct (getNumber _ _) as [[num ok] st1]. apply K. }
  destruct (_ =? Array).
  { destruct (parseArray_rec _ _ _) as [[[var ok] st1]|]; [|reflexivity].
    apply K. }
  rewrite !arrayLoop_stopped. destruct (_ >=? n); reflexivity.
Qed.

(** X16.  Where the terminator is CR LF, in a buffer of fewer than 2^30
    bytes, an array at the cursor that declares a count [n] of 1 or less and
    not below -2^31, the least 32-bit [int] (so 1, 0, -1 and the negative
    counts down to there), written as [QByteArray::number] prints it, and
    that is followed by the whole reply of a value, is read as the array of
    that one value: the loop reads an element before it looks at the count.
    The cursor ends past the value.  The value is one the driver can read
    back ([readable_value]): an integer within the range of a 32-bit [int],
    a bulk string, null or not, or an array that is not empty and whose
    elements are, at every depth, such integers, bulk strings and non-empty
    arrays. *)
Theorem array_of_small_count_takes_one_element (pre : bytes) (n : Z)
        (v : QVariant) (tail : bytes) (st : Driver) :
  Int.min_int <= n <= 1 ->
  readable_value v ->
  buffer st = pre ++ bs "*" ++ QByteArray.number n ++ [CR; LF]
                  ++ wire v ++ tail ->
  pos st = QByteArray.length pre ->
  fits st ->
  parseArray false st
  = Some ([v], true,
          setPos st (pos st
                     + QByteArray.length
                         (bs "*" ++ QByteArray.number n ++ [CR; LF]
                             ++ wire v))).
Proof.
  intros R Rv B P F.
  assert (Int.min_int <= n <= Int.max_int) as R'
      by (unfold Int.max_int; change (2 ^ 31) with 2147483648; lia).
  unfold parseArray, array_fuel.
  replace (2 * List.length (buffer st) + 4)%nat
    with (S (2 * List.length (buffer st) + 3)) by lia.
  cbn [parseArray_rec].
  rewrite (@counted_line pre "*"%byte n (wire v ++ tail) st R' B P F).
  rewrite arrayLoop_small_count by lia.
  destruct (read_back (weights [v] + 1)) as [_ A].
  rewrite (A [v] [] (pre ++ bs "*" ++ QByteArray.number n ++ [CR; LF]) tail
             (setPos st (pos st + QByteArray.length (QByteArray.number n) + 3))
             (2 * List.length (buffer st) + 3)%nat 1).
  - cbn [app pos setPos]. rewrite setPos_setPos. f_equal. f_equal. f_equal.
    unfold wires. cbn [map List.concat]. rewrite app_nil_r.
    lengths. lia.
  - lia.
  - discriminate.
  - constructor; [exact Rv|constructor].
  - cbn [buffer setPos]. rewrite B. unfold wires. cbn [map List.concat].
    rewrite app_nil_r. same_bytes.
  - cbn [pos setPos]. rewrite P. lengths. lia.
  - exact F.
  - reflexivity.
  - pose proof (@weight_wire (weight v) v (Nat.le_refl _)) as W.
    unfold weights. cbn [fold_right]. rewrite B, !length_app. lia.
Qed.

Lemma array_of_small_count_takes_one_element_witness :
  parseArray false
    (holding (bs "*0" ++ [CR; LF] ++ bs ":5" ++ [CR; LF] ++ bs "+OK") 0)
  = Some ([VInt 5], true,
          holding (bs "*0" ++ [CR; LF] ++ bs ":5" ++ [CR; LF] ++ bs "+OK") 8).
Proof.
  apply (@array_of_small_count_takes_one_element [] 0 (VInt 5) (bs "+OK"));
    try reflexivity.
  - vm_compute. split; discriminate.
  - vm_compute. split; discriminate.
Defined.

(** ** A line read at a cursor *)

Lemma mid_from (pre rest : bytes) (len : Z) :
  0 <= len ->
  QByteArray.mid (pre ++ rest) (QByteArray.length pre) len
  = firstn (Z.to_nat len) rest.
Proof.
  intros L. unfold QByteArray.mid.
  pose proof (length_nonneg pre) as P0. pose proof (length_nonneg rest) as R0.
  rewrite app_length_Z.
  destruct (_ <? QByteArray.length pre) eqn:E1; [apply Z.ltb_lt in E1; lia|].
  destruct (len <? 0) eqn:E2; [apply Z.ltb_lt in E2; lia|].
  destruct (QByteArray.length pre <? 0) eqn:E3; [apply Z.ltb_lt in E3; lia|].
  rewrite skipn_exact by reflexivity.
  destruct (_ <? len + _) eqn:E4; [|reflexivity].
  apply Z.ltb_lt in E4.
  rewrite !firstn_all2; [reflexivity| |]; unfold QByteArray.length in *; lia.
Qed.

(** X17.  On either build, [getLine] called with the cursor at the start of
    a line returns, from the cursor on, as many bytes as the index of the
    line's terminator counted from the start of the buffer (or all there
    are, if fewer): the line itself when the cursor is at 0, and otherwise
    the line, its terminator and bytes after it, one for each byte before
    the cursor.  The cursor moves to the terminator's index plus two. *)
Theorem line_length_counts_from_buffer_start (Q_OS_WIN : bool)
        (pre body tail : bytes) (st : Driver) :
  plain body ->
  buffer st = pre ++ body ++ CRLF Q_OS_WIN ++ tail ->
  pos st = QByteArray.length pre ->
  fits st ->
  getLine Q_OS_WIN st
  = (Some (firstn (Z.to_nat (QByteArray.length pre + QByteArray.length body))
                  (body ++ CRLF Q_OS_WIN ++ tail)),
     true,
     setPos st (QByteArray.length pre + QByteArray.length body + 2)).
Proof.
  intros Pl B P F. unfold getLine. rewrite B, P, indexOf_line by exact Pl.
  pose proof (length_nonneg pre) as P0. pose proof (length_nonneg body) as B0.
  destruct (_ <? 0) eqn:E; [apply Z.ltb_lt in E; lia|].
  rewrite mid_from by lia. f_equal.
  unfold Int.add. rewrite small_int; [reflexivity|].
  unfold fits in F. rewrite B in F. rewrite !app_length_Z in F.
  pose proof (length_nonneg (CRLF Q_OS_WIN)).
  pose proof (length_nonneg tail). lia.
Qed.

Lemma line_length_counts_from_buffer_start_witness :
  getLine false
    (holding (bs ":1" ++ [CR; LF] ++ bs "+OK" ++ [CR; LF] ++ bs ":23") 4)
  = (Some (bs "+OK" ++ [CR; LF] ++ bs ":2"), true,
     holding (bs ":1" ++ [CR; LF] ++ bs "+OK" ++ [CR; LF] ++ bs ":23") 9).
Proof.
  apply (@line_length_counts_from_buffer_start false (bs ":1" ++ [CR; LF])
           (bs "+OK") (bs ":23")).
  - repeat constructor; discriminate.
  - reflexivity.
  - reflexivity.
  - reflexivity.
Defined.

(** ** Frames delimit themselves *)

Lemma asBulk_inj (l l' : list bytes) :
  map asBulk l = map asBulk l' -> l = l'.
Proof.
  revert l'. induction l as [|a l IH]; intros [|a' l']; simpl; intros H;
    try discriminate; [reflexivity|].
  inversion H; subst. f_equal. apply IH. assumption.
Qed.

Lemma frame_count (l : list QVariant) (tail : bytes) (st : Driver) :
  buffer st = wire (VList l) ++ tail ->
  pos st = 0 ->
  fits st ->
  fst (fst (getNumber false (setPos st (Int.add (pos st) 1))))
  = Z.of_nat (List.length l).
Proof.
  intros B P F.
  rewrite (@counted_line [] "*"%byte (Z.of_nat (List.length l))
             (wires l ++ tail) st); [reflexivity| | |exact P|exact F].
  - pose proof (elements_wires l) as E.
    unfold fits in F. rewrite B, wire_VList in F. revert F. lengths.
    unfold Int.min_int, Int.max_int. change (2 ^ 31) with 2147483648. lia.
  - rewrite B, wire_VList. same_bytes.
Qed.

(** X18.  Where the terminator is CR LF, the frame of a command delimits
    itself: if two frames built by [toMultiBulk], each followed by any
    bytes, make the same byte sequence of less than 2^30 bytes, the two
    argument lists are equal and so are the bytes that follow.  No command
    is the beginning of another, and commands sent one after the other can
    be told apart. *)
Theorem frames_delimit_themselves (args args' : list bytes)
        (tail tail' : bytes) :
  toMultiBulk false args ++ tail = toMultiBulk false args' ++ tail' ->
  QByteArray.length (toMultiBulk false args ++ tail) < 2 ^ 30 ->
  args = args' /\ tail = tail'.
Proof.
  intros E Sz. rewrite !toMultiBulk_wire in *.
  set (st := holding (wire (VList (map asBulk args)) ++ tail) 0).
  assert (fits st) as F by exact Sz.
  assert (List.length args = List.length args') as Ln.
  { pose proof (@frame_count (map asBulk args) tail st eq_refl eq_refl F)
      as C1.
    pose proof (@frame_count (map asBulk args') tail' st E eq_refl F) as C2.
    rewrite C1, !length_map in C2. lia. }
  assert (args = args') as A.
  { destruct args as [|a l].
    - destruct args'; [reflexivity|discriminate].
    - destruct args' as [|a' l']; [discriminate|].
      pose proof (@parseArray_wire (map asBulk (a :: l)) [] tail st
                    ltac:(discriminate) (asBulk_readable _) eq_refl eq_refl F)
        as P1.
      pose proof (@parseArray_wire (map asBulk (a' :: l')) [] tail' st
                    ltac:(discriminate) (asBulk_readable _) E eq_refl F)
        as P2.
      rewrite P1 in P2. inversion P2 as [[H1 H2 H3]].
      apply asBulk_inj. cbn [map]. congruence. }
  split; [exact A|]. subst args'. apply app_inv_head in E. exact E.
Qed.

Lemma frames_delimit_themselves_witness :
  [bs "GET"; bs "k"] = [bs "GET"; bs "k"] /\ bs "*1" = bs "*1".
Proof.
  apply (@frames_delimit_themselves [bs "GET"; bs "k"] [bs "GET"; bs "k"]
           (bs "*1") (bs "*1")).
  - reflexivity.
  - vm_compute. reflexivity.
Defined.

(** ** A reply whose line never ends *)

Ltac other_tag :=
  repeat match goal with
         | H : (_ =? _) = false |- _ => apply Z.eqb_neq in H
         | H : (_ =? _) = true |- _ => apply Z.eqb_eq in H
         end;
  let E := fresh "E" in
  intros E; try tauto;
  match goal with
  | H : code _ = _ |- _ => rewrite H in E; discriminate E
  end.

Lemma requestLoop_no_terminator (Q_OS_WIN : bool) (c : byte) (fuel : nat) :
  code c = Error \/ code c = SimpleString \/ code c = Integer \/
  code c = BulkString \/ code c = Array ->
  forall ret reply st b,
    isOpen st = true ->
    pos st = 0 ->
    buffer st = c :: b ->
    ~ In LF (buffer st ++ pending (redis st)) ->
    (reads_left st < fuel)%nat ->
    (code c = Error -> ret = false) ->
    (code c = Array -> reply = []) ->
    exists st',
      requestLoop Q_OS_WIN fuel 0 ret reply st
      = Some (ret, reply, st', ReadFailed) /\
      buffer st' = [] /\ pos st' = 0.
Proof.
  intros T. induction fuel as [|fuel IH]; intros ret reply st b O P B N M Hr Hl;
    [lia|].
  cbn [requestLoop].
  destruct (readReply st) as [got st1] eqn:R.
  pose proof (readReply_moves st O R) as (data & D1 & D2 & _ & D4 & _).
  apply readReply_spec in R. destruct R as (R1 & _ & R3 & _).
  destruct got; cbn [negb].
  2:{ exists (clearBuffer st1). repeat split. }
  specialize (R3 eq_refl).
  rewrite P in D1, D4. cbn [QByteArray.remove0 Z.leb Z.compare] in D1.
  change (Z.min 0 0) with 0 in D4.
  assert (~ In LF (buffer st1)) as N1.
  { intros C. apply N. rewrite D2, app_assoc, <- D1.
    apply in_or_app. left. exact C. }
  assert (~ In LF (buffer st1 ++ pending (redis st1))) as N2.
  { rewrite D1, <- app_assoc, <- D2. exact N. }
  assert (isOpen st1 = true) as O1
      by (unfold isOpen, QTcpSocket.isOpen in *; congruence).
  assert (QByteArray.at_ (buffer st1) (pos st1) = c) as Tg
      by (rewrite D1, D4, B; reflexivity).
  assert (forall r l (st2 : Driver),
             setPos st2 0 = setPos st1 0 ->
             (code c = Error -> r = false) -> (code c = Array -> l = []) ->
             r = ret \/ code c = Error -> l = reply \/ code c = Array ->
             exists st',
               requestLoop Q_OS_WIN fuel 0 r l (setPos st2 0)
               = Some (ret, reply, st', ReadFailed) /\
               buffer st' = [] /\ pos st' = 0) as Next.
  { intros r l st2 E2 Hr' Hl' Er El. rewrite E2. clear E2 st2.
    assert (r = ret) as ->
        by (destruct Er as [|Er]; [assumption|]; rewrite Hr, Hr'; auto).
    assert (l = reply) as ->
        by (destruct El as [|El]; [assumption|]; rewrite Hl, Hl'; auto).
    apply (IH ret reply (setPos st1 0) (b ++ data)); try assumption.
    - reflexivity.
    - cbn [buffer setPos]. rewrite D1, B. reflexivity.
    - unfold reads_left in *. cbn [redis setPos]. lia. }
  cbv zeta. rewrite Tg.
  destruct (code c =? Error) eqn:T1.
  { apply Z.eqb_eq in T1. unfold getLine.
    rewrite indexOf_no_LF by exact N1. cbn [Z.ltb Z.compare].
    apply Next; rewrite ?setPos_setPos; auto. }
  destruct (code c =? SimpleString) eqn:T2.
  { unfold getLine.
    rewrite indexOf_no_LF by exact N1. cbn [Z.ltb Z.compare].
    apply Z.eqb_neq in T1. cbv beta iota zeta. apply Next; rewrite ?setPos_setPos; auto. }
  destruct (code c =? Integer) eqn:T3.
  { rewrite (@getNumber_no_terminator Q_OS_WIN)
      by (cbn [buffer setPos]; rewrite indexOf_no_LF by exact N1; lia).
    apply Z.eqb_neq in T1. cbv beta iota zeta. apply Next; rewrite ?setPos_setPos; auto. }
  destruct (code c =? BulkString) eqn:T4.
  { unfold parseBulkString.
    rewrite (@getNumber_no_terminator Q_OS_WIN)
      by (cbn [buffer setPos]; rewrite indexOf_no_LF by exact N1; lia).
    apply Z.eqb_neq in T1. cbv beta iota zeta. apply Next; rewrite ?setPos_setPos; auto. }
  destruct (code c =? Array) eqn:T5.
  { apply Z.eqb_eq in T5. unfold parseArray, array_fuel.
    replace (2 * List.length (buffer st1) + 4)%nat
      with (S (2 * List.length (buffer st1) + 3)) by lia.
    cbn [parseArray_rec].
    rewrite (@getNumber_no_terminator Q_OS_WIN)
      by (cbn [buffer setPos]; rewrite indexOf_no_LF by exact N1; lia).
    rewrite arrayLoop_stopped.
    apply Z.eqb_neq in T1. cbv beta iota zeta. apply Next; rewrite ?setPos_setPos; auto. }
  apply Z.eqb_neq in T1, T2, T3, T4, T5. tauto.
Qed.

(** X19.  On either build, when a reply has begun with one of the five tags
    and the bytes that arrive never hold a line feed, the request goes on
    reading until a read times out and then returns with an empty buffer and
    the cursor at 0.  What it returns depends on the tag: [false] for the
    tag of an error and [true] for the four others, and the reply list as
    it was given, but emptied for the tag of an array. *)
Theorem reply_without_line_end_times_out (Q_OS_WIN : bool) (st : Driver)
        (command : list bytes) (reply : QVariantList) (st1 : Driver) :
  firstRead Q_OS_WIN st command = (true, st1) ->
  pos st = 0 ->
  ~ In LF (buffer st1 ++ pending (redis st1)) ->
  let tag := code (QByteArray.at_ (buffer st1) 0) in
  tag = Error \/ tag = SimpleString \/ tag = Integer \/
  tag = BulkString \/ tag = Array ->
  exists st',
    request Q_OS_WIN st command reply
    = Some (negb (tag =? Error), if tag =? Array then [] else reply, st',
            ReadFailed) /\
    buffer st' = [] /\ pos st' = 0.
Proof.
  intros R P N tag T. pose proof (firstRead_pos _ _ _ R) as P1.
  unfold firstRead in R.
  set (st0 := clearBuffer (setRedis st (QTcpSocket.write (redis st)
                                          (toMultiBulk Q_OS_WIN command))))
    in *.
  assert (isOpen st0 = true) as O0.
  { unfold readReply in R. destruct (isOpen st0); [reflexivity|].
    cbn [negb] in R. discriminate. }
  destruct (buffer st1) as [|c b] eqn:B1.
  { subst tag. cbn in T. unfold Error, SimpleString, Integer, BulkString,
      Array in T. cbn in T. lia. }
  assert (tag = code c) as Tc by reflexivity. clearbody tag. subst tag.
  unfold request, request_fuel. fold st0. rewrite P.
  replace (S (S (List.length (QTcpSocket.events (redis st0)))))
    with (S (List.length (QTcpSocket.events (redis st0)) + 1)) by lia.
  cbn [requestLoop]. rewrite R. cbn [negb]. cbv zeta.
  pose proof R as R'. apply readReply_spec in R'.
  destruct R' as (R1 & _ & R3 & _). specialize (R3 eq_refl).
  assert (isOpen st1 = true) as O1
      by (unfold isOpen, QTcpSocket.isOpen in *; congruence).
  assert (~ In LF (buffer st1)) as N1.
  { intros C. apply N. rewrite <- B1. apply in_or_app. left. exact C. }
  rewrite <- B1 in N.
  assert (QByteArray.at_ (buffer st1) (pos st1) = c) as Tg
      by (rewrite B1, P1; reflexivity).
  assert (forall r l (st2 : Driver),
             setPos st2 0 = setPos st1 0 ->
             (code c = Error -> r = false) -> (code c = Array -> l = []) ->
             exists st',
               requestLoop Q_OS_WIN
                 (List.length (QTcpSocket.events (redis st0)) + 1) 0 r l
                 (setPos st2 0)
               = Some (r, l, st', ReadFailed) /\
               buffer st' = [] /\ pos st' = 0) as Next.
  { intros r l st2 E2 Hr Hl. rewrite E2. clear E2 st2.
    apply (@requestLoop_no_terminator Q_OS_WIN c
             (List.length (QTcpSocket.events (redis st0)) + 1) T r l
             (setPos st1 0) b); try assumption; try reflexivity.
    unfold reads_left in *. cbn [redis setPos].
    destruct (QTcpSocket.readable (redis st0)); lia. }
  rewrite Tg.
  destruct (code c =? Error) eqn:T1.
  { apply Z.eqb_eq in T1. unfold getLine.
    rewrite indexOf_no_LF by exact N1. cbn [Z.ltb Z.compare negb].
    destruct (code c =? Array) eqn:T5;
      [apply Z.eqb_eq in T5; rewrite T1 in T5; discriminate|].
    apply Next; rewrite ?setPos_setPos; auto; other_tag. }
  cbn [negb].
  destruct (code c =? SimpleString) eqn:T2.
  { apply Z.eqb_eq in T2. unfold getLine.
    rewrite indexOf_no_LF by exact N1. cbn [Z.ltb Z.compare].
    destruct (code c =? Array) eqn:T5;
      [apply Z.eqb_eq in T5; rewrite T2 in T5; discriminate|].
    apply Z.eqb_neq in T1. cbv beta iota zeta. apply Next; rewrite ?setPos_setPos; auto; other_tag. }
  destruct (code c =? Integer) eqn:T3.
  { apply Z.eqb_eq in T3.
    rewrite (@getNumber_no_terminator Q_OS_WIN)
      by (cbn [buffer setPos]; rewrite indexOf_no_LF by exact N1; lia).
    destruct (code c =? Array) eqn:T5;
      [apply Z.eqb_eq in T5; rewrite T3 in T5; discriminate|].
    apply Z.eqb_neq in T1. cbv beta iota zeta. apply Next; rewrite ?setPos_setPos; auto; other_tag. }
  destruct (code c =? BulkString) eqn:T4.
  { apply Z.eqb_eq in T4. unfold parseBulkString.
    rewrite (@getNumber_no_terminator Q_OS_WIN)
      by (cbn [buffer setPos]; rewrite indexOf_no_LF by exact N1; lia).
    destruct (code c =? Array) eqn:T5;
      [apply Z.eqb_eq in T5; rewrite T4 in T5; discriminate|].
    apply Z.eqb_neq in T1. cbv beta iota zeta. apply Next; rewrite ?setPos_setPos; auto; other_tag. }
  destruct (code c =? Array) eqn:T5.
  { unfold parseArray, array_fuel.
    replace (2 * List.length (buffer st1) + 4)%nat
      with (S (2 * List.length (buffer st1) + 3)) by lia.
    cbn [parseArray_rec].
    rewrite (@getNumber_no_terminator Q_OS_WIN)
      by (cbn [buffer setPos]; rewrite indexOf_no_LF by exact N1; lia).
    rewrite arrayLoop_stopped.
    apply Z.eqb_neq in T1. cbv beta iota zeta. apply Next; rewrite ?setPos_setPos; auto; other_tag. }
  apply Z.eqb_neq in T1, T2, T3, T4, T5. tauto.
Qed.

Lemma reply_without_line_end_times_out_witness :
  let st := mkDriver (connected [brings (bs "-ERR par"); brings (bs "tial")])
                     [] 0 in
  exists st',
    request false st [bs "GET"; bs "k"] [VInt 1]
    = Some (false, [VInt 1], st', ReadFailed) /\
    buffer st' = [] /\ pos st' = 0.
Proof.
  intros st.
  apply (@reply_without_line_end_times_out false st [bs "GET"; bs "k"]
           [VInt 1]
           (mkDriver (QTcpSocket.mk true ConnectedState []
                        (toMultiBulk false [bs "GET"; bs "k"]) [] 1
                        [brings (bs "tial")])
                     (bs "-ERR par") 0)).
  - reflexivity.
  - reflexivity.
  - vm_compute. intuition discriminate.
  - left. reflexivity.
Defined.

(** ** What the parsers and the connection calls leave alone *)

(** X20.  On either build and whatever the outcome, the four parsing
    functions change nothing but the cursor: the buffer and the socket are
    the same after [getLine], [getNumber], [parseBulkString] and
    [parseArray] as before. *)
Theorem parsers_change_only_cursor (Q_OS_WIN : bool) (st : Driver) :
  same_data st (snd (getLine Q_OS_WIN st)) /\
  same_data st (snd (getNumber Q_OS_WIN st)) /\
  same_data st (snd (parseBulkString Q_OS_WIN st)) /\
  (forall r, parseArray Q_OS_WIN st = Some r -> same_data st (snd r)).
Proof.
  split; [apply getLine_data|]. split; [apply getNumber_data|].
  split; [apply parseBulkString_data|].
  intros r E.
  apply (parseArray_arrayLoop_data Q_OS_WIN (array_fuel st)) in E. exact E.
Qed.

Lemma parsers_change_only_cursor_witness :
  let st := holding (bs "*2" ++ [CR; LF] ++ bs ":1" ++ [CR; LF]
                        ++ bs "$1" ++ [CR; LF] ++ bs "a" ++ [CR; LF]) 0 in
  same_data st (holding (buffer st) 15).
Proof.
  intros st.
  destruct (@parsers_change_only_cursor false st) as (_ & _ & _ & A).
  apply (A ([VInt 1; VByteArray (Some (bs "a"))], true,
            holding (buffer st) 15)).
  vm_compute. reflexivity.
Defined.

(** X21.  Where the terminator is CR LF and the buffer is below 2^30 bytes,
    reading a line or a number keeps the cursor inside the buffer: if it
    was between 0 and the length of the buffer before [getLine] or
    [getNumber], it is after, be the call a success or not. *)
Theorem line_scans_keep_cursor_in_buffer (st : Driver) :
  fits st -> cursor_in_buffer st ->
  cursor_in_buffer (snd (getLine false st)) /\
  cursor_in_buffer (snd (getNumber false st)).
Proof. apply scans_keep_invariant. Qed.

Lemma line_scans_keep_cursor_in_buffer_witness :
  let st := holding (bs "+OK" ++ [CR; LF]) 0 in
  cursor_in_buffer (snd (getLine false st)) /\
  cursor_in_buffer (snd (getNumber false st)).
Proof.
  intros st. apply (@line_scans_keep_cursor_in_buffer st).
  - vm_compute. reflexivity.
  - vm_compute. split; discriminate.
Defined.

(** X22.  Opening and closing the connection leave the receive buffer and
    the cursor as they are, whether the connection is made or not: a driver
    that is closed and opened again still holds the bytes and the cursor its
    last request left. *)
Theorem connection_calls_keep_buffer (st : Driver) (host : string)
        (port : Z) :
  buffer (snd (open st host port)) = buffer st /\
  pos (snd (open st host port)) = pos st /\
  buffer (close st) = buffer st /\
  pos (close st) = pos st /\
  buffer (snd (open (close st) host port)) = buffer st /\
  pos (snd (open (close st) host port)) = pos st.
Proof.
  assert (forall s, buffer (snd (open s host port)) = buffer s /\
                    pos (snd (open s host port)) = pos s) as A.
  { intros s. unfold open. destruct (isOpen s); [split; reflexivity|].
    unfold waitForState. destruct (waitLoop _ _ _ _ _) as [r s'].
    split; reflexivity. }
  destruct (A st) as [A1 A2]. destruct (A (close st)) as [A3 A4].
  repeat split; assumption.
Qed.

(** ** A whole session *)

Lemma open_first_turn (clock : Z) (e0 : Poll) (evs : list Poll)
      (host : string) (port : Z) :
  state_after e0 = ConnectedState ->
  open (TRedisDriver clock (e0 :: evs)) host port
  = (true,
     mkDriver
       (QTcpSocket.mk true ConnectedState
          [(match host with EmptyString => "localhost"%string | _ => host end,
            if port <=? 0 then DEFAULT_PORT else port)]
          [] (incoming e0) (clock + elapsed_ms e0) evs)
       [] 0).
Proof.
  intros C. unfold open, waitForState, TRedisDriver. simpl.
  rewrite Z.sub_diag. simpl. unfold QTcpSocket.deliver. simpl. rewrite C.
  destruct evs; reflexivity.
Qed.

(** X23.  Where the terminator is CR LF, a whole session goes through: a
    driver just constructed, whose first turn of the event loop makes the
    connection and brings no bytes, and whose next brings fewer than 2^30
    bytes that begin with the whole reply of a value, is opened with [true]
    (the port not being negative), having asked once for a connection to
    the host (localhost when none is given) and port (6379 when it is 0);
    the request then returns [true] with the value, appended to the reply
    list or, for an array, its elements in place of the list, having
    written the frame of the command and nothing else and leaving the
    cursor at the end of the reply; and after the destructor the connection
    is not open.  The value is one the driver can read back
    ([readable_value]): an integer within the range of a 32-bit [int], from
    -2^31 to 2^31 - 1, a bulk string, null or not, or an array that is not
    empty and whose elements are, at every depth, such integers, bulk
    strings and non-empty arrays. *)
Theorem session_reads_reply (v : QVariant) (tail : bytes) (clock : Z)
        (e0 e1 : Poll) (evs : list Poll) (host : string) (port : Z)
        (command : list bytes) (reply : QVariantList) :
  state_after e0 = ConnectedState ->
  incoming e0 = [] ->
  incoming e1 = wire v ++ tail ->
  readable_value v ->
  QByteArray.length (incoming e1) < 2 ^ 30 ->
  0 <= port ->
  let st := TRedisDriver clock (e0 :: e1 :: evs) in
  fst (open st host port) = true /\
  exists st2,
    request false (snd (open st host port)) command reply
    = Some (true, match v with VList l => l | _ => reply ++ [v] end, st2,
            ParseDone) /\
    QTcpSocket.connects (redis st2)
    = [(match host with EmptyString => "localhost"%string | _ => host end,
        if port =? 0 then 6379 else port)] /\
    QTcpSocket.written (redis st2) = toMultiBulk false command /\
    buffer st2 = wire v ++ tail /\
    pos st2 = QByteArray.length (wire v) /\
    isOpen st2 = true /\
    isOpen (destroy st2) = false.
Proof.
  intros C I0 I1 Rv Sz Pt st. subst st.
  rewrite (open_first_turn clock e0 (e1 :: evs) host port C).
  cbn [fst snd]. split; [reflexivity|]. rewrite I0.
  set (st1 := mkDriver _ [] 0).
  assert (incoming e1 <> []) as NE.
  { rewrite I1. destruct (wire_head v) as (c & r & -> & _). discriminate. }
  assert (firstRead false st1 command
          = (true,
             mkDriver
               (snd (QTcpSocket.readAll
                       (QTcpSocket.deliver e1
                          (QTcpSocket.write (redis st1)
                             (toMultiBulk false command)) evs)))
               ([] ++ incoming e1) 0)) as FR.
  { unfold firstRead.
    rewrite (@readReply_one_event _ e1 evs); try reflexivity.
    exact NE. }
  cbn [app] in FR.
  eexists. split; [|split; [|split; [|split; [|split; [|split]]]]].
  - apply (@request_whole_reply v tail st1 command reply _ FR).
    + cbn [buffer]. exact I1.
    + exact Rv.
    + unfold fits. cbn [buffer]. exact Sz.
  - cbn [redis setPos QTcpSocket.readAll QTcpSocket.deliver snd
         QTcpSocket.connects QTcpSocket.write QTcpSocket.opened].
    subst st1. cbn [redis QTcpSocket.opened QTcpSocket.connects].
    unfold DEFAULT_PORT.
    destruct (port <=? 0) eqn:E1, (port =? 0) eqn:E2; try reflexivity.
    + apply Z.leb_le in E1. apply Z.eqb_neq in E2. lia.
    + apply Z.leb_gt in E1. apply Z.eqb_eq in E2. lia.
  - reflexivity.
  - cbn [buffer setPos]. exact I1.
  - reflexivity.
  - reflexivity.
  - reflexivity.
Qed.

Lemma session_reads_reply_witness :
  let st := TRedisDriver 0 [mkPoll 3 [] ConnectedState;
                            brings (wire (VByteArray (Some (bs "v"))))] in
  fst (open st EmptyString 0) = true /\
  exists st2,
    request false (snd (open st EmptyString 0)) [bs "GET"; bs "k"] []
    = Some (true, [VByteArray (Some (bs "v"))], st2, ParseDone) /\
    QTcpSocket.connects (redis st2) = [("localhost"%string, 6379)] /\
    QTcpSocket.written (redis st2) = toMultiBulk false [bs "GET"; bs "k"] /\
    buffer st2 = wire (VByteArray (Some (bs "v"))) ++ [] /\
    pos st2 = QByteArray.length (wire (VByteArray (Some (bs "v")))) /\
    isOpen st2 = true /\
    isOpen (destroy st2) = false.
Proof.
  intros st.
  apply (@session_reads_reply (VByteArray (Some (bs "v"))) [] 0
           (mkPoll 3 [] ConnectedState)
           (brings (wire (VByteArray (Some (bs "v"))))) []
           EmptyString 0 [bs "GET"; bs "k"] []).
  - reflexivity.
  - reflexivity.
  - reflexivity.
  - exact I.
  - vm_compute. reflexivity.
  - lia.
Defined.

(** ** The build with a one-byte terminator *)

Lemma number_head_digit (n : Z) :
  0 <= n ->
  exists d rest, QByteArray.number n = d :: rest /\ isDigit d = true.
Proof.
  intros N. destruct (number_bytes n) as (u & NN & _ & E).
  destruct (n <? 0) eqn:L; [apply Z.ltb_lt in L; lia|].
  pose proof (uint_bytes_digits u) as D. rewrite <- E in D.
  destruct (QByteArray.number n) as [|d rest] eqn:Q.
  - pose proof (number_nonempty n) as M. rewrite Q in M. simpl in M. lia.
  - exists d, rest. split; [reflexivity|]. apply (Forall_inv D).
Qed.

Lemma digit_no_tag (d : byte) :
  isDigit d = true ->
  code d <> BulkString /\ code d <> Integer /\ code d <> Array.
Proof.
  unfold isDigit. intros H. apply andb_prop in H. destruct H as [H1 H2].
  apply Z.leb_le in H1, H2. revert H1 H2.
  change (code "0") with 48. change (code "9") with 57.
  change BulkString with 36. change Integer with 58. change Array with 42.
  lia.
Qed.

(** X24.  On the build where the terminator is the single byte LF, the
    driver does not read back its own frames: the cursor is moved two bytes
    past the start of a terminator that is one byte long, so after the count
    line of any frame [toMultiBulk] builds for a non-empty argument list the
    cursor is on the first digit of a length, not on the [$] before it, and
    [parseArray] turns the frame down with the cursor back at its start. *)
Theorem one_byte_terminator_rejects_own_frames (args : list bytes)
        (tail : bytes) (st : Driver) :
  args <> [] ->
  buffer st = toMultiBulk true args ++ tail ->
  pos st = 0 ->
  fits st ->
  parseArray true st = Some ([], false, st).
Proof.
  intros NE B P F. destruct args as [|a l]; [congruence|]. clear NE.
  rewrite toMultiBulk_frame in B. unfold frame in B.
  cbn [map List.concat CRLF] in B.
  set (n := Z.of_nat (List.length (a :: l))) in *.
  destruct (number_head_digit (length_nonneg a)) as (d & rest & Hd & Dg).
  rewrite Hd in B.
  set (after := rest ++ [LF] ++ a ++ [LF]
                ++ List.concat
                     (map (fun a0 => bs "$"
                                     ++ QByteArray.number
                                          (QByteArray.length a0)
                                     ++ [LF] ++ a0 ++ [LF]) l) ++ tail).
  assert (buffer st
          = (bs "*" ++ QByteArray.number n ++ [LF] ++ bs "$")
              ++ d :: after) as B'.
  { rewrite B. subst after. same_bytes. }
  pose proof (length_nonneg (QByteArray.number n)) as P3.
  assert (QByteArray.length (QByteArray.number n) + 4
          <= QByteArray.length (buffer st) < 1073741824) as (P1 & P2).
  { pose proof F as F2. unfold fits in F2. rewrite B' in F2.
    rewrite B'. lengths. lia. }
  assert (Int.min_int <= n <= Int.max_int) as R.
  { unfold Int.min_int, Int.max_int. change (2 ^ 31) with 2147483648.
    subst n. split; [lia|].
    assert (List.length l
            <= List.length
                 (List.concat
                    (map (fun a0 => bs "$"
                                    ++ QByteArray.number
                                         (QByteArray.length a0)
                                    ++ [LF] ++ a0 ++ [LF]) l)))%nat as K.
    { clear. induction l as [|x l IH]; [simpl; lia|].
      cbn [map List.concat]. rewrite length_app.
      change (bs "$") with ["$"%byte] at 1. cbn [app List.length] in *. lia. }
    revert P2. rewrite B'. subst after. lengths. lia. }
  unfold parseArray, array_fuel.
  replace (2 * List.length (buffer st) + 4)%nat
    with (S (S (2 * List.length (buffer st) + 2))) by lia.
  cbn [parseArray_rec]. rewrite P.
  change (Int.add 0 1) with 1.
  rewrite (@getNumber_number true (bs "*") n (bs "$" ++ d :: after)
             (setPos st 1) R).
  2:{ cbn [buffer setPos]. rewrite B'. same_bytes. }
  2:{ reflexivity. }
  cbn [pos setPos]. rewrite setPos_setPos.
  assert (Int.add (1 + QByteArray.length (QByteArray.number n)) 2
          = QByteArray.length (bs "*" ++ QByteArray.number n ++ [LF]
                                  ++ bs "$")) as A.
  { unfold Int.add. rewrite small_int
      by (change (2 ^ 30) with 1073741824; lia).
    lengths. lia. }
  rewrite A. cbn [arrayLoop negb]. cbn [buffer pos setPos].
  rewrite B', at_app.
  destruct (@digit_no_tag d Dg) as (T1 & T2 & T3).
  apply Z.eqb_neq in T1, T2, T3. rewrite T1, T2, T3.
  rewrite arrayLoop_stopped.
  assert (setPos st 0 = st) as S0 by (rewrite <- P; apply setPos_same).
  destruct (_ >=? n); rewrite setPos_setPos, S0; reflexivity.
Qed.

Lemma one_byte_terminator_rejects_own_frames_witness :
  let st := holding (toMultiBulk true [bs "GET"; bs "k"]) 0 in
  parseArray true st = Some ([], false, st).
Proof.
  intros st.
  apply (@one_byte_terminator_rejects_own_frames [bs "GET"; bs "k"] [] st).
  - discriminate.
  - vm_compute. reflexivity.
  - reflexivity.
  - vm_compute. reflexivity.
Defined.

(** ** C1: the cursor [request] retries from *)

(** After an attempt that fails, [request] does [pos = startpos], and
    [startpos] is the cursor [request] was entered with, read before
    [clearBuffer()] put the cursor at 0.  So for every request whose first
    read brings the beginning of a reply, with one of the five tags and no
    line feed yet, the attempt is made at cursor 0 and the retry starts from
    the cursor of entry, with the flag and the list the failed attempt left:
    the next read then drops that many bytes off the front of the reply. *)
Lemma request_retries_from_entry_cursor (Q_OS_WIN : bool) (st : Driver)
      (command : list bytes) (reply : QVariantList) (st1 : Driver)
      (c : byte) (b : bytes) :
  firstRead Q_OS_WIN st command = (true, st1) ->
  buffer st1 = c :: b ->
  code c = Error \/ code c = SimpleString \/ code c = Integer \/
  code c = BulkString \/ code c = Array ->
  ~ In LF (buffer st1) ->
  pos st1 = 0 /\
  request Q_OS_WIN st command reply
  = requestLoop Q_OS_WIN (S (List.length (QTcpSocket.events (redis st))))
      (pos st) (negb (code c =? Error))
      (if code c =? Array then [] else reply)
      (setPos st1 (pos st)).
Proof.
  intros R B T N1. pose proof (firstRead_pos _ _ _ R) as P1.
  split; [exact P1|].
  unfold firstRead in R. unfold request, request_fuel.
  set (st0 := clearBuffer (setRedis st (QTcpSocket.write (redis st)
                                          (toMultiBulk Q_OS_WIN command))))
    in *.
  assert (QTcpSocket.events (redis st0) = QTcpSocket.events (redis st)) as Ev.
  { subst st0. cbn [redis clearBuffer setRedis]. unfold QTcpSocket.write.
    destruct (QTcpSocket.opened (redis st)); reflexivity. }
  rewrite Ev. cbn [requestLoop]. rewrite R. cbn [negb]. cbv zeta.
  assert (QByteArray.at_ (buffer st1) (pos st1) = c) as Tg
      by (rewrite B, P1; reflexivity).
  rewrite Tg.
  destruct (code c =? Error) eqn:T1.
  { apply Z.eqb_eq in T1. unfold getLine.
    rewrite indexOf_no_LF by exact N1. cbn [Z.ltb Z.compare negb].
    destruct (code c =? Array) eqn:T5;
      [apply Z.eqb_eq in T5; rewrite T1 in T5; discriminate|].
    reflexivity. }
  cbn [negb].
  destruct (code c =? SimpleString) eqn:T2.
  { apply Z.eqb_eq in T2. unfold getLine.
    rewrite indexOf_no_LF by exact N1. cbn [Z.ltb Z.compare].
    destruct (code c =? Array) eqn:T5;
      [apply Z.eqb_eq in T5; rewrite T2 in T5; discriminate|].
    reflexivity. }
  destruct (code c =? Integer) eqn:T3.
  { apply Z.eqb_eq in T3.
    rewrite (@getNumber_no_terminator Q_OS_WIN)
      by (cbn [buffer setPos]; rewrite indexOf_no_LF by exact N1; lia).
    destruct (code c =? Array) eqn:T5;
      [apply Z.eqb_eq in T5; rewrite T3 in T5; discriminate|].
    cbv beta iota zeta. rewrite setPos_setPos. reflexivity. }
  destruct (code c =? BulkString) eqn:T4.
  { apply Z.eqb_eq in T4. unfold parseBulkString.
    rewrite (@getNumber_no_terminator Q_OS_WIN)
      by (cbn [buffer setPos]; rewrite indexOf_no_LF by exact N1; lia).
    destruct (code c =? Array) eqn:T5;
      [apply Z.eqb_eq in T5; rewrite T4 in T5; discriminate|].
    cbv beta iota zeta. rewrite !setPos_setPos. reflexivity. }
  destruct (code c =? Array) eqn:T5.
  { unfold parseArray, array_fuel.
    replace (2 * List.length (buffer st1) + 4)%nat
      with (S (2 * List.length (buffer st1) + 3)) by lia.
    cbn [parseArray_rec].
    rewrite (@getNumber_no_terminator Q_OS_WIN)
      by (cbn [buffer setPos]; rewrite indexOf_no_LF by exact N1; lia).
    rewrite arrayLoop_stopped.
    cbv beta iota zeta. rewrite !setPos_setPos. reflexivity. }
  apply Z.eqb_neq in T1, T2, T3, T4, T5. tauto.
Qed.

(** C1, where the code departs from it.  A driver just connected serves a
    first request, whose reply [+OK] leaves the cursor at 5.  The reply to
    its second request, the integer line [:12], arrives in two pieces.  The
    attempt on the first piece [:1] is made at cursor 0 and fails for want
    of a terminator; [request] then puts the cursor at 5, where it was on
    entry, not at 0, where the attempt began.  The next read drops five
    bytes off the buffer, so [:1] is lost, the buffer holds the second piece
    alone, and the request ends with [false] as for an invalid protocol.  On
    the same driver with the cursor at 0 the same two pieces are read as
    12. *)
Theorem retry_starts_at_entry_cursor :
  let fresh :=
    mkDriver (connected [brings (bs "+OK" ++ [CR; LF]);
                         brings (bs ":1");
                         brings (bs "2" ++ [CR; LF])]) [] 0 in
  exists served attempt,
    request false fresh [bs "PING"] [] = Some (true, [], served, ParseDone) /\
    cursor_in_buffer served /\
    pos served = 5 /\
    firstRead false served [bs "GET"; bs "n"] = (true, attempt) /\
    buffer attempt = bs ":1" /\
    pos attempt = 0 /\
    getNumber false (setPos attempt 1) = (0, false, setPos attempt 1) /\
    request false served [bs "GET"; bs "n"] []
    = requestLoop false 2 5 true [] (setPos attempt 5) /\
    buffer (snd (readReply (setPos attempt 5))) = bs "2" ++ [CR; LF] /\
    observe (request false served [bs "GET"; bs "n"] [])
    = Some (false, [], [], 0, InvalidProtocol) /\
    observe (request false (setPos served 0) [bs "GET"; bs "n"] [])
    = Some (true, [VInt 12], bs ":12" ++ [CR; LF], 5, ParseDone).
Proof.
  intros fresh.
  destruct (request false fresh [bs "PING"] [])
    as [[[[r l] served] e]|] eqn:E; vm_compute in E; [|discriminate].
  inversion E; subst r l served e. clear E.
  eexists. eexists.
  split; [reflexivity|].
  split; [vm_compute; split; discriminate|].
  split; [reflexivity|].
  split; [vm_compute; reflexivity|].
  repeat split; vm_compute; reflexivity.
Qed.
